(** * Planning algorithms of the protobuf code generators

    Two generators are covered:

    - [ObjC]: the extension-dependency closure of
      [src/google/protobuf/compiler/objectivec/file.cc]
      ([FileContainsExtensions],
      [CollectMinimalFileDepsContainingExtensionsInternal],
      [CollectMinimalFileDepsContainingExtensions]);
    - [Java]: the builder generator of
      [src/google/protobuf/compiler/java/message_builder.cc]
      (bit-field words, [mergeFrom], the parsing loop and
      [isInitialized]). *)

From Stdlib Require Import ZArith Lia String List Permutation Sorted OrdersEx.
From stdpp Require Import base gmap sets list strings sorting.

Local Open Scope nat_scope.

(* ===================================================================== *)
(** * C++ library functions used by both generators                       *)
(* ===================================================================== *)

(** [std::sort(first, last, comp)], modelled by insertion sort: the
    standard promises a permutation of the input that is ordered by
    [comp], and nothing about which algorithm produces it. *)
Fixpoint sort_insert {A : Type} (comp : A → A → bool) (x : A) (l : list A)
    : list A :=
  match l with
  | [] => [x]
  | y :: l' => if comp x y then x :: y :: l' else y :: sort_insert comp x l'
  end.

Definition std_sort {A : Type} (comp : A → A → bool) (l : list A) : list A :=
  foldr (sort_insert comp) [] l.

(* ===================================================================== *)
(** * Objective-C generator: extension-dependency closure                 *)
(* ===================================================================== *)

Module ObjC.

(** A [const FileDescriptor*]: files are compared and hashed by address. *)
Definition FileId := nat.

(** A message [Descriptor], as far as [MessageContainsExtensions] reads it:
    the number of extensions declared in its scope and its nested types. *)
#[local] Unset Elimination Schemes.
Inductive Descriptor : Type :=
  mkDescriptor { extension_count : nat; nested_type : list Descriptor }.
#[local] Set Elimination Schemes.

(** A [FileDescriptor], as far as file.cc reads it. *)
Record FileDescriptor : Type := mkFile {
  name : string;
  dependency : list FileId;
  file_extension_count : nat;
  message_type : list Descriptor
}.

(** [MessageContainsExtensions]: on the message or a nested message under
    it.  The [for] loop with an early [return true] is [existsb]. *)
Fixpoint MessageContainsExtensions (message : Descriptor) : bool :=
  match message with
  | mkDescriptor count nested =>
      if 0 <? count then true
      else existsb MessageContainsExtensions nested
  end.

(** [FileContainsExtensions]: at the root or nested under a message. *)
Definition FileContainsExtensions (file : FileDescriptor) : bool :=
  if 0 <? file_extension_count file then true
  else existsb MessageContainsExtensions (message_type file).

(** [FileGenerator::CommonState::MinDepsEntry]. *)
Record MinDepsEntry : Type := mkEntry {
  has_extensions : bool;
  min_deps : gset FileId;
  covered_deps : gset FileId
}.

(** The three local hash sets of
    [CollectMinimalFileDepsContainingExtensionsInternal]. *)
Record Collectors : Type := mkCollectors {
  min_deps_collector : gset FileId;
  covered_deps_collector : gset FileId;
  to_prune : gset FileId
}.

Definition no_collectors : Collectors := mkCollectors ∅ ∅ ∅.

(** Body of the loop over the dependencies, after the recursive call
    returned [dep_info] for [dep] (file.cc lines 161-180). *)
Definition visit_dep (dep : FileId) (dep_info : MinDepsEntry)
    (acc : Collectors) : Collectors :=
  let covered := covered_deps_collector acc ∪ covered_deps dep_info in
  let prune := to_prune acc ∪ covered_deps dep_info in
  if has_extensions dep_info then
    mkCollectors ({[dep]} ∪ min_deps_collector acc)
                 (covered ∪ min_deps dep_info)
                 (prune ∪ min_deps dep_info)
  else
    mkCollectors (min_deps_collector acc ∪ min_deps dep_info) covered prune.

(** The loop itself: [rec] is the recursive call, which may update the
    cache and is run once per dependency, in order. *)
Fixpoint deps_loop {St : Type}
    (rec : FileId → St → option (MinDepsEntry * St))
    (deps : list FileId) (acc : Collectors) (cache : St)
    : option (Collectors * St) :=
  match deps with
  | [] => Some (acc, cache)
  | dep :: rest =>
      match rec dep cache with
      | None => None
      | Some (dep_info, cache') =>
          deps_loop rec rest (visit_dep dep dep_info acc) cache'
      end
  end.

(** [deps_info_cache.insert({file, entry}).first->second]: an insertion
    that keeps an entry already present and returns the stored one. *)
Definition cache_insert (file : FileId) (entry : MinDepsEntry)
    (cache : gmap FileId MinDepsEntry) : MinDepsEntry * gmap FileId MinDepsEntry :=
  match cache !! file with
  | Some old => (old, cache)
  | None => (entry, <[file := entry]> cache)
  end.

(** [inner] is [outer] or a message nested under it, at any depth. *)
Inductive nested_in (inner : Descriptor) : Descriptor → Prop :=
| nested_here : nested_in inner inner
| nested_deeper outer child :
    child ∈ nested_type outer → nested_in inner child →
    nested_in inner outer.

(** The file declares an extension at its root or in some message of it. *)
Definition declares_extension (file : FileDescriptor) : Prop :=
  0 < file_extension_count file ∨
  ∃ top message, top ∈ message_type file ∧ nested_in message top ∧
                 0 < extension_count message.

Section Closure.

(** What the pointers point to. *)
Variable pool : FileId → FileDescriptor.

(** Lines 183-202: the entry built once every dependency was visited,
    with the fast path that skips the pruning. *)
Definition make_entry (file : FileId) (acc : Collectors) : MinDepsEntry :=
  let file_has_exts := FileContainsExtensions (pool file) in
  if bool_decide (to_prune acc = ∅)
     || (length (dependency (pool file)) =? 1)
  then mkEntry file_has_exts (min_deps_collector acc)
               (covered_deps_collector acc)
  else mkEntry file_has_exts
               (filter (λ value, value ∉ to_prune acc)
                       (min_deps_collector acc))
               (covered_deps_collector acc).

(** [CollectMinimalFileDepsContainingExtensionsInternal], with the memo
    table [deps_info_cache] threaded through.  The recursion follows the
    import graph; [fuel] bounds its depth, and [None] means the bound was
    hit. *)
Fixpoint CollectMinimalFileDepsContainingExtensionsInternal
    (fuel : nat) (file : FileId) (deps_info_cache : gmap FileId MinDepsEntry)
    : option (MinDepsEntry * gmap FileId MinDepsEntry) :=
  match fuel with
  | 0 => None
  | S fuel' =>
      match deps_info_cache !! file with
      | Some entry => Some (entry, deps_info_cache)
      | None =>
          match deps_loop
                  (CollectMinimalFileDepsContainingExtensionsInternal fuel')
                  (dependency (pool file)) no_collectors deps_info_cache with
          | None => None
          | Some (acc, cache') =>
              Some (cache_insert file (make_entry file acc) cache')
          end
      end
  end.

(** ** Notions used to state the properties of the closure *)

(** The import graph is acyclic: the files can be ranked so that every
    import goes to a file of smaller rank. *)
Definition acyclic : Prop :=
  ∃ rank : FileId → nat,
    ∀ file dep, dep ∈ dependency (pool file) → rank dep < rank file.

(** [min_chain cache m x]: [x] is reached from [m] by following cached
    [min_deps] one or more times. *)
Inductive min_chain (cache : gmap FileId MinDepsEntry)
    : FileId → FileId → Prop :=
| min_chain_one m entry x :
    cache !! m = Some entry → x ∈ min_deps entry → min_chain cache m x
| min_chain_more m entry y x :
    cache !! m = Some entry → y ∈ min_deps entry →
    min_chain cache y x → min_chain cache m x.

(** No member of [min_deps entry] lies on the chain of a member. *)
Definition transitively_reduced (cache : gmap FileId MinDepsEntry)
    (entry : MinDepsEntry) : Prop :=
  ∀ m1 m2, m1 ∈ min_deps entry → m2 ∈ min_deps entry →
           ¬ min_chain cache m2 m1.

(** The closure without the memo table, used as the reference against
    which the cached entries are checked: [closure n file] unfolds the
    recursion [n] levels deep. *)
Fixpoint closure (n : nat) (file : FileId) : MinDepsEntry :=
  match n with
  | 0 => mkEntry false ∅ ∅
  | S n' =>
      make_entry file
        (foldl (λ acc dep, visit_dep dep (closure n' dep) acc)
               no_collectors (dependency (pool file)))
  end.

(** With a ranking of the files: the entry of a file is the recursion
    unfolded one level deeper than its rank, [collected] is what the loop
    over its dependencies gathers from their entries, and a memo table
    agrees when every entry it holds is the entry of its file. *)
Definition entry_of (rank : FileId → nat) (file : FileId) : MinDepsEntry :=
  closure (S (rank file)) file.

Definition collected (rank : FileId → nat) (file : FileId) : Collectors :=
  foldl (λ acc dep, visit_dep dep (entry_of rank dep) acc)
        no_collectors (dependency (pool file)).

Definition cache_agrees (rank : FileId → nat)
    (cache : gmap FileId MinDepsEntry) : Prop :=
  ∀ file entry, cache !! file = Some entry → entry = entry_of rank file.

(** [FileDescriptorsOrderedByName]: [a->name() < b->name()], the
    lexicographic order of [std::string] on unsigned bytes. *)
Definition FileDescriptorsOrderedByName (a b : FileId) : bool :=
  String.ltb (name (pool a)) (name (pool b)).

(** Order in which a hash set hands out its elements when it is copied
    into a vector ([result(min_deps.begin(), min_deps.end())]): some
    enumeration of the set, not otherwise specified. *)
Variable iteration_order : gset FileId → list FileId.

(** [CollectMinimalFileDepsContainingExtensions]. *)
Definition CollectMinimalFileDepsContainingExtensions
    (fuel : nat) (file : FileId) (deps_info_cache : gmap FileId MinDepsEntry)
    : option (list FileId * gmap FileId MinDepsEntry) :=
  match CollectMinimalFileDepsContainingExtensionsInternal
          fuel file deps_info_cache with
  | None => None
  | Some (entry, cache') =>
      let result := iteration_order (min_deps entry) in
      Some (std_sort FileDescriptorsOrderedByName result, cache')
  end.

(** The generator is run for one file after the other on the same
    [CommonState]; [generate_files] is the state of the memo table after
    the closure was requested for each of [files] in turn. *)
Fixpoint generate_files (fuel : nat) (files : list FileId)
    (deps_info_cache : gmap FileId MinDepsEntry)
    : option (gmap FileId MinDepsEntry) :=
  match files with
  | [] => Some deps_info_cache
  | file :: rest =>
      match CollectMinimalFileDepsContainingExtensions
              fuel file deps_info_cache with
      | None => None
      | Some (_, cache') => generate_files fuel rest cache'
      end
  end.

End Closure.

(** ** Two import graphs used as concrete inputs *)

(** The scenario of the specification: [A] imports [B] and [C]; [B]
    declares an extension (in a nested message); [C] imports [B] and
    declares none. *)
Module Scenario.
Definition A : FileId := 0.
Definition B : FileId := 1.
Definition C : FileId := 2.

Definition pool (file : FileId) : FileDescriptor :=
  match file with
  | 0 => mkFile "a.proto" [B; C] 0 []
  | 1 => mkFile "b.proto" [] 0 [mkDescriptor 0 [mkDescriptor 1 []]]
  | 2 => mkFile "c.proto" [B] 0 [mkDescriptor 0 []]
  | _ => mkFile "" [] 0 []
  end.

Definition rank (file : FileId) : nat :=
  match file with 0 => 2 | 2 => 1 | _ => 0 end.
End Scenario.

(** A graph in which both fast paths and the pruning are taken:
    [top] imports [left] and [right]; [left] imports [base]; [right]
    imports [mid]; [mid] imports [base]; [base] and [mid] declare
    extensions. *)
Module Diamond.
Definition top : FileId := 0.
Definition left : FileId := 1.
Definition right : FileId := 2.
Definition base : FileId := 3.
Definition mid : FileId := 4.

Definition pool (file : FileId) : FileDescriptor :=
  match file with
  | 0 => mkFile "top.proto" [left; right] 0 []
  | 1 => mkFile "left.proto" [base] 0 []
  | 2 => mkFile "right.proto" [mid] 0 []
  | 3 => mkFile "base.proto" [] 1 []
  | 4 => mkFile "mid.proto" [base] 2 []
  | _ => mkFile "" [] 0 []
  end.

Definition rank (file : FileId) : nat :=
  match file with 0 => 3 | 1 => 1 | 2 => 2 | 4 => 1 | _ => 0 end.

Definition files : list FileId := [top; left; right; base; mid].
End Diamond.

(** A file with several minimal dependencies, whose names are not in the
    order of their descriptors: [root] imports [zeta], [mu] and [hub];
    [hub] imports [alpha]; [zeta], [mu] and [alpha] declare extensions. *)
Module Fan.
Definition root : FileId := 0.
Definition zeta : FileId := 1.
Definition mu : FileId := 2.
Definition hub : FileId := 3.
Definition alpha : FileId := 4.

Definition pool (file : FileId) : FileDescriptor :=
  match file with
  | 0 => mkFile "root.proto" [zeta; mu; hub] 0 []
  | 1 => mkFile "zeta.proto" [] 1 []
  | 2 => mkFile "mu.proto" [] 0 [mkDescriptor 1 []]
  | 3 => mkFile "hub.proto" [alpha] 0 []
  | 4 => mkFile "alpha.proto" [] 1 []
  | _ => mkFile "" [] 0 []
  end.

Definition rank (file : FileId) : nat :=
  match file with 0 => 2 | 3 => 1 | _ => 0 end.

Definition files : list FileId := [root; zeta; mu; hub; alpha].
End Fan.

(** ** The rest of the file generator that uses the closure *)

Section Source.

Variable pool : FileId → FileDescriptor.

(** [file] imports [x], directly or through other files. *)
Inductive imports : FileId → FileId → Prop :=
| imports_direct file dep :
    dep ∈ dependency (pool file) → imports file dep
| imports_through file dep x :
    dep ∈ dependency (pool file) → imports dep x → imports file x.

(** A memo table is closed when it holds an entry for every dependency of
    every file it holds an entry for. *)
Definition cache_closed (cache : gmap FileId MinDepsEntry) : Prop :=
  ∀ file entry dep,
    cache !! file = Some entry → dep ∈ dependency (pool file) →
    is_Some (cache !! dep).

(** [IsDirectDependency]: the pointers are compared. *)
Definition IsDirectDependency (dep file : FileId) : bool :=
  existsb (λ d, dep =? d) (dependency (pool file)).

(** What [GenerateSource] prints between [@implementation] and [@end]
    (lines 536-623). *)
Inductive RegistryItem : Type :=
| RegistryBegin
    (* the head of the class method extensionRegistry, up to
         registry = [[GPBExtensionRegistry alloc] init]; *)
| Descriptions
    (* static GPBExtensionDescription descriptions[] = { ... };
       for (...) { ... [registry addExtension:extension]; ... } *)
| NoImportDefinedExtensions
    (* // None of the imports (direct or indirect) defined extensions, so
       // no need to add them to this registry. *)
| MergeImports
    (* // Merge in the imports (direct or indirect) that defined
       // extensions. *)
| AddExtensions (dep : FileId)
    (* [registry addExtensions:[<root class of dep> extensionRegistry]]; *)
| RegistryEnd
    (* } return registry; } *)
| NoRegistryDespiteImports
    (* // No extensions in the file and none of the imports (direct or
       // indirect) defined extensions, so no need to generate
       // +extensionRegistry. *)
| NoRegistryNoImports.
    (* // No extensions in the file and no imports, so no need to generate
       // +extensionRegistry. *)

Definition registry_block (file : FileId) (deps_with_extensions : list FileId)
    : list RegistryItem :=
  let file_contains_extensions := FileContainsExtensions (pool file) in
  let no_deps := match deps_with_extensions with [] => true | _ => false end in
  if file_contains_extensions || negb no_deps then
    [RegistryBegin]
    ++ (if file_contains_extensions then [Descriptions] else [])
    ++ (if no_deps then [NoImportDefinedExtensions]
        else MergeImports :: map AddExtensions deps_with_extensions)
    ++ [RegistryEnd]
  else if 0 <? length (dependency (pool file))
       then [NoRegistryDespiteImports]
       else [NoRegistryNoImports].

(** The options and collaborators [GenerateSource] reads:
    [generation_options_.headers_use_forward_declarations],
    [is_bundled_proto_], the public dependencies of a file, and the order
    in which a hash set is enumerated. *)
Variable headers_use_forward_declarations_option : bool.
Variable is_bundled_proto_ : FileId → bool.
Variable public_dependency : FileId → list FileId.
Variable iteration_order : gset FileId → list FileId.

(** The parts of the generated source modelled here: the files handed to
    [import_writer.AddFile], in order, and the registry block. *)
Record SourceFile : Type := mkSource {
  imported : list FileId;
  registry : list RegistryItem
}.

(** [GenerateSource], lines 420-468 and 536-623. *)
Definition GenerateSource (fuel : nat) (file : FileId)
    (deps_info_cache : gmap FileId MinDepsEntry)
    : option (SourceFile * gmap FileId MinDepsEntry) :=
  match CollectMinimalFileDepsContainingExtensions
          pool iteration_order fuel file deps_info_cache with
  | None => None
  | Some (deps_with_extensions, cache') =>
      let headers_use_forward_declarations :=
        headers_use_forward_declarations_option
        && negb (is_bundled_proto_ file) in
      let public_import_names : gset string :=
        list_to_set (map (λ dep, name (pool dep)) (public_dependency file)) in
      let plain_imports :=
        if headers_use_forward_declarations then
          List.filter
            (λ dep, negb (bool_decide (name (pool dep) ∈ public_import_names)))
            (dependency (pool file))
        else [] in
      let extension_imports :=
        List.filter (λ dep, negb (IsDirectDependency dep file))
                    deps_with_extensions in
      Some (mkSource ([file] ++ plain_imports ++ extension_imports)
                     (registry_block file deps_with_extensions),
            cache')
  end.

End Source.

End ObjC.

(* ===================================================================== *)
(** * Java generator: the builder class of a message                      *)
(* ===================================================================== *)

Module Java.

Local Open Scope Z_scope.

(** ** C++ [int] and [uint32_t] arithmetic *)

(** The value of a 32-bit two's complement pattern. *)
Definition wrap_int32 (z : Z) : Z := (z + 2 ^ 31) mod 2 ^ 32 - 2 ^ 31.

(** [a + b] and [a / b] on [int]; the division truncates towards zero. *)
Definition int_add (a b : Z) : Z := wrap_int32 (a + b).
Definition int_div (a b : Z) : Z := wrap_int32 (Z.quot a b).

(** [static_cast<int32_t>(tag)] for a [uint32_t] tag. *)
Definition static_cast_int32 (tag : Z) : Z := wrap_int32 tag.

(** The values [i] takes in [for (int i = 0; i < n; i++)]. *)
Definition int_range (n : Z) : list Z := map Z.of_nat (seq 0 (Z.to_nat n)).

(** ** Descriptors, as far as message_builder.cc reads them *)

Inductive Label : Type := LABEL_OPTIONAL | LABEL_REQUIRED | LABEL_REPEATED.

Inductive FieldType : Type :=
| TYPE_DOUBLE | TYPE_FLOAT | TYPE_INT64 | TYPE_UINT64 | TYPE_INT32
| TYPE_FIXED64 | TYPE_FIXED32 | TYPE_BOOL | TYPE_STRING | TYPE_GROUP
| TYPE_MESSAGE | TYPE_BYTES | TYPE_UINT32 | TYPE_ENUM | TYPE_SFIXED32
| TYPE_SFIXED64 | TYPE_SINT32 | TYPE_SINT64.

Inductive JavaType : Type :=
| JAVATYPE_INT | JAVATYPE_LONG | JAVATYPE_FLOAT | JAVATYPE_DOUBLE
| JAVATYPE_BOOLEAN | JAVATYPE_STRING | JAVATYPE_BYTES | JAVATYPE_ENUM
| JAVATYPE_MESSAGE.

Inductive WireType : Type :=
| WIRETYPE_VARINT | WIRETYPE_FIXED64 | WIRETYPE_LENGTH_DELIMITED
| WIRETYPE_START_GROUP | WIRETYPE_END_GROUP | WIRETYPE_FIXED32.

(** A [const Descriptor*] and a [const OneofDescriptor*]. *)
Definition DescriptorId := nat.
Definition OneofId := nat.

(** A [FieldDescriptor].  [message_type] is only read for fields whose Java
    type is a message; [real_containing_oneof] is the oneof of the field
    when [IsRealOneof] holds of it; [options_packed] is
    [options().packed()], which the generator never reads. *)
Record FieldDescriptor : Type := mkField {
  name : string;
  number : Z;
  type : FieldType;
  label : Label;
  is_packable : bool;
  options_packed : bool;
  message_type : DescriptorId;
  real_containing_oneof : option OneofId
}.

Definition is_required (field : FieldDescriptor) : bool :=
  match label field with LABEL_REQUIRED => true | _ => false end.

Definition IsRealOneof (field : FieldDescriptor) : bool :=
  match real_containing_oneof field with Some _ => true | None => false end.

(** A message [Descriptor]: its fields in declaration order and the number
    of its extension ranges. *)
Record Descriptor : Type := mkMessage {
  field : list FieldDescriptor;
  extension_range_count : nat
}.

(** [oneof->field(j)] for [j] below [oneof->field_count()]: the fields of
    the message that belong to the oneof, in declaration order. *)
Definition oneof_fields (descriptor : Descriptor) (oneof : OneofId)
    : list FieldDescriptor :=
  filter (λ f, real_containing_oneof f = Some oneof) (field descriptor).

(** The set [oneofs_] filled by the constructor: the oneof of every field
    that is in a real oneof. *)
Definition oneofs_ (descriptor : Descriptor) : gset OneofId :=
  list_to_set (omap real_containing_oneof (field descriptor)).

(** The field generator of a field ([field_generators_.get(field)]), as far
    as its answers are read. *)
Record ImmutableFieldGenerator : Type := mkFieldGenerator {
  GetNumBitsForMessage : Z;
  GetNumBitsForBuilder : Z
}.

(** The methods of a field generator that print code into the builder. *)
Inductive FieldGeneratorCall : Type :=
| GenerateBuildingCode
| GenerateMergingCode
| GenerateBuilderParsingCode
| GenerateBuilderParsingCodeFromPacked.

(** ** The generated code

    One constructor per statement that the generator prints; the text
    printed is quoted next to each. *)

(** Statements of [buildPartial()]; [GetBitFieldName(i)] is
    [bitField<i>_]. *)
Inductive BuildStmt : Type :=
| FromBitField (i : Z)       (* int from_bitField<i>_ = bitField<i>_; *)
| ToBitField (i : Z)         (* int to_bitField<i>_ = 0; *)
| FieldBuilding (f : FieldDescriptor)
                             (* GenerateBuildingCode of the field *)
| ResultBitField (i : Z)     (* result.bitField<i>_ = to_bitField<i>_; *)
| ResultOneofCase (oneof : OneofId)
                             (* result.<oneof>Case_ = <oneof>Case_; *)
| OnBuilt                    (* onBuilt(); *)
| ReturnResult.              (* return result; *)

(** Members of the builder class. *)
Inductive Member : Type :=
| PrivateIntBitField (i : Z). (* private int bitField<i>_; *)

(** Statements of [mergeFrom($classname$ other)]. *)
Inductive MergeStmt : Type :=
| ReturnThisIfDefaultInstance
    (* if (other == $classname$.getDefaultInstance()) return this; *)
| FieldMerging (f : FieldDescriptor)
    (* GenerateMergingCode of the field *)
| OneofSwitch (oneof : OneofId) (members : list FieldDescriptor)
    (* switch (other.get<Oneof>Case()) {
         case <FIELD>: { GenerateMergingCode of the member; break; }  ...
         case <ONEOF>_NOT_SET: { break; }
       } *)
| MergeExtensionFields
    (* this.mergeExtensionFields(other); *)
| MergeUnknownFields
    (* this.mergeUnknownFields(other.getUnknownFields()); *)
| OnChanged
    (* onChanged(); *)
| ReturnThis.
    (* return this; *)

(** Statements inside a [case] of the parsing [switch]. *)
Inductive ParseStmt : Type :=
| SetDone
    (* done = true; *)
| FieldParsing (call : FieldGeneratorCall) (f : FieldDescriptor)
    (* GenerateBuilderParsingCode[FromPacked] of the field *)
| ParseUnknownFieldOrDone.
    (* if (!super.parseUnknownField(input, extensionRegistry, tag)) {
         done = true; // was an endgroup tag
       } *)

(** [case <tag>: { body break; }], or [default: { body break; }] when
    there is no label. *)
Record SwitchCase : Type := mkCase {
  case_label : option Z;
  case_body : list ParseStmt
}.

(** Checks of [isInitialized()]; each returns [false] when it fails. *)
Inductive InitCheck : Type :=
| CheckHas (f : FieldDescriptor)
    (* if (!has<Name>()) { return false; } *)
| CheckRequiredMessage (f : FieldDescriptor)
    (* if (!get<Name>().isInitialized()) { return false; } *)
| CheckOptionalMessage (f : FieldDescriptor)
    (* if (has<Name>()) { if (!get<Name>().isInitialized()) { return false; } } *)
| CheckMapValues (f : FieldDescriptor)
    (* for (<type> item : get<Name>Map().values()) {
         if (!item.isInitialized()) { return false; } } *)
| CheckRepeatedMessage (f : FieldDescriptor)
    (* for (int i = 0; i < get<Name>Count(); i++) {
         if (!get<Name>(i).isInitialized()) { return false; } } *)
| CheckExtensions.
    (* if (!extensionsAreInitialized()) { return false; } *)

(** The field a check recurses into, if it does. *)
Definition recursion_target (check : InitCheck) : option FieldDescriptor :=
  match check with
  | CheckRequiredMessage f | CheckOptionalMessage f
  | CheckMapValues f | CheckRepeatedMessage f => Some f
  | CheckHas _ | CheckExtensions => None
  end.

(** ** The generator *)

Section Generator.

(** Functions of the protobuf library and of the Java generator's helpers
    that message_builder.cc calls and that are defined in other files:
    [WireFormatLite::MakeTag], [WireFormat::WireTypeForFieldType],
    [GetJavaType], [HasRequiredFields] (the memoised may-contain-required-
    fields analysis), [IsMapEntry], the type of [descriptor->map_value()],
    the map from fields to their generators, and
    [context_->HasGeneratedMethods]. *)
Variable MakeTag : Z → WireType → Z.
Variable WireTypeForFieldType : FieldType → WireType.
Variable GetJavaType : FieldDescriptor → JavaType.
Variable HasRequiredFields : DescriptorId → bool.
Variable IsMapEntry : DescriptorId → bool.
Variable map_value_type : DescriptorId → FieldType.
Variable field_generators_ : FieldDescriptor → ImmutableFieldGenerator.
Variable HasGeneratedMethods : Descriptor → bool.

(** The order in which [for (auto oneof : oneofs_)] visits the set of
    oneof pointers: some enumeration of it. *)
Variable oneofs_iteration : gset OneofId → list OneofId.

(** Modelled from the spec: [SortFieldsByNumber] (helpers.cc, not among the
    sources) returns the fields of the message sorted by ascending field
    number. *)
Definition SortFieldsByNumber (descriptor : Descriptor) : list FieldDescriptor :=
  std_sort (λ a b, number a <? number b) (field descriptor).

(** [Generate], lines 157-167: the [int] members that hold the presence
    bits of the builder. *)
Definition Generate_bit_fields (descriptor : Descriptor) : list Member :=
  let totalBits :=
    fold_left
      (λ total f, int_add total (GetNumBitsForBuilder (field_generators_ f)))
      (field descriptor) 0 in
  let totalInts := int_div (int_add totalBits 31) 32 in
  map PrivateIntBitField (int_range totalInts).

(** [GenerateCommonBuilderMethods], lines 418-465: the body of
    [buildPartial()] after [result] is constructed. *)
Definition buildPartial_body (descriptor : Descriptor) : list BuildStmt :=
  let '(totalBuilderBits, totalMessageBits) :=
    fold_left
      (λ '(builder_bits, message_bits) f,
         (int_add builder_bits (GetNumBitsForBuilder (field_generators_ f)),
          int_add message_bits (GetNumBitsForMessage (field_generators_ f))))
      (field descriptor) (0, 0) in
  let totalBuilderInts := int_div (int_add totalBuilderBits 31) 32 in
  let totalMessageInts := int_div (int_add totalMessageBits 31) 32 in
  map FromBitField (int_range totalBuilderInts)
  ++ map ToBitField (int_range totalMessageInts)
  ++ map FieldBuilding (field descriptor)
  ++ map ResultBitField (int_range totalMessageInts)
  ++ map ResultOneofCase (oneofs_iteration (oneofs_ descriptor))
  ++ [OnBuilt; ReturnResult].

(** [GenerateCommonBuilderMethods], lines 559-614: the body of
    [mergeFrom($classname$ other)]. *)
Definition mergeFrom_body (descriptor : Descriptor) : list MergeStmt :=
  [ReturnThisIfDefaultInstance]
  ++ flat_map (λ f, if IsRealOneof f then [] else [FieldMerging f])
              (field descriptor)
  ++ map (λ oneof, OneofSwitch oneof (oneof_fields descriptor oneof))
         (oneofs_iteration (oneofs_ descriptor))
  ++ (if (0 <? extension_range_count descriptor)%nat
      then [MergeExtensionFields] else [])
  ++ [MergeUnknownFields; OnChanged; ReturnThis].

(** The two methods of [GenerateCommonBuilderMethods] modelled here;
    [mergeFrom($classname$ other)] is only generated under
    [context_->HasGeneratedMethods(descriptor_)] (line 545). *)
Record CommonBuilderMethods : Type := mkCommon {
  buildPartial : list BuildStmt;
  mergeFrom : option (list MergeStmt)
}.

Definition GenerateCommonBuilderMethods (descriptor : Descriptor)
    : CommonBuilderMethods :=
  mkCommon (buildPartial_body descriptor)
           (if HasGeneratedMethods descriptor
            then Some (mergeFrom_body descriptor) else None).

(** [GenerateBuilderFieldParsingCase]. *)
Definition GenerateBuilderFieldParsingCase (f : FieldDescriptor) : SwitchCase :=
  let tag := MakeTag (number f) (WireTypeForFieldType (type f)) in
  mkCase (Some (static_cast_int32 tag))
         [FieldParsing GenerateBuilderParsingCode f].

(** [GenerateBuilderPackedFieldParsingCase]. *)
Definition GenerateBuilderPackedFieldParsingCase (f : FieldDescriptor)
    : SwitchCase :=
  let tag := MakeTag (number f) WIRETYPE_LENGTH_DELIMITED in
  mkCase (Some (static_cast_int32 tag))
         [FieldParsing GenerateBuilderParsingCodeFromPacked f].

(** [GenerateBuilderFieldParsingCases]. *)
Definition GenerateBuilderFieldParsingCases (descriptor : Descriptor)
    : list SwitchCase :=
  flat_map
    (λ f, GenerateBuilderFieldParsingCase f
          :: (if is_packable f
              then [GenerateBuilderPackedFieldParsingCase f] else []))
    (SortFieldsByNumber descriptor).

(** [GenerateBuilderParsingMethods]: the cases of the [switch (tag)] of
    [mergeFrom(CodedInputStream, ExtensionRegistryLite)], in the order in
    which they are printed.  The statements around the [switch] are the
    same for every message; [run_parsing_method] below gives their
    meaning. *)
Definition GenerateBuilderParsingMethods (descriptor : Descriptor)
    : list SwitchCase :=
  [mkCase (Some 0) [SetDone]]
  ++ GenerateBuilderFieldParsingCases descriptor
  ++ [mkCase None [ParseUnknownFieldOrDone]].

(** [MapValueImmutableClassdName] is only called for its [GOOGLE_CHECK_EQ],
    which aborts the generator when the value of the map is not a message:
    [true] when the check passes. *)
Definition MapValueImmutableClassdName (entry : DescriptorId) : bool :=
  match map_value_type entry with TYPE_MESSAGE => true | _ => false end.

(** Second loop of [GenerateIsInitialized], one field: [None] when the
    check above aborts. *)
Definition embedded_message_check (f : FieldDescriptor)
    : option (list InitCheck) :=
  match GetJavaType f with
  | JAVATYPE_MESSAGE =>
      if HasRequiredFields (message_type f) then
        match label f with
        | LABEL_REQUIRED => Some [CheckRequiredMessage f]
        | LABEL_OPTIONAL => Some [CheckOptionalMessage f]
        | LABEL_REPEATED =>
            if IsMapEntry (message_type f) then
              if MapValueImmutableClassdName (message_type f)
              then Some [CheckMapValues f] else None
            else Some [CheckRepeatedMessage f]
        end
      else Some []
  | _ => Some []
  end.

Fixpoint embedded_message_checks (fields : list FieldDescriptor)
    : option (list InitCheck) :=
  match fields with
  | [] => Some []
  | f :: rest =>
      match embedded_message_check f with
      | None => None
      | Some checks =>
          match embedded_message_checks rest with
          | None => None
          | Some more => Some (checks ++ more)
          end
      end
  end.

(** [GenerateIsInitialized]: the checks of [isInitialized()] in the order
    in which they are printed, followed in the generated method by
    [return true;]. *)
Definition GenerateIsInitialized (descriptor : Descriptor)
    : option (list InitCheck) :=
  let required :=
    flat_map (λ f, if is_required f then [CheckHas f] else [])
             (field descriptor) in
  match embedded_message_checks (field descriptor) with
  | None => None
  | Some embedded =>
      Some (required ++ embedded
            ++ (if (0 <? extension_range_count descriptor)%nat
                then [CheckExtensions] else []))
  end.

End Generator.

(** ** Meaning of the generated parsing method *)

Section ParsingSemantics.

Variables Input Builder : Type.

(** [input.readTag()]; [None] when it throws. *)
Variable readTag : Input → option (Z * Input).

(** The parsing code a field generator printed; [None] when it throws. *)
Variable run_field_parsing :
  FieldGeneratorCall → FieldDescriptor → Input → Builder →
  option (Input * Builder).

(** [super.parseUnknownField(input, extensionRegistry, tag)]: whether to go
    on, or [None] when it throws. *)
Variable parseUnknownField :
  Z → Input → Builder → option (bool * (Input * Builder)).

Variable onChanged : Builder → Builder.

Record ParseState : Type := mkParseState {
  input : Input;
  builder : Builder;
  done : bool
}.

Definition exec_parse_stmt (tag : Z) (stmt : ParseStmt) (st : ParseState)
    : option ParseState :=
  match stmt with
  | SetDone => Some (mkParseState (input st) (builder st) true)
  | FieldParsing call f =>
      match run_field_parsing call f (input st) (builder st) with
      | None => None
      | Some (input', builder') => Some (mkParseState input' builder' (done st))
      end
  | ParseUnknownFieldOrDone =>
      match parseUnknownField tag (input st) (builder st) with
      | None => None
      | Some (go_on, (input', builder')) =>
          Some (mkParseState input' builder'
                  (if go_on then done st else true))
      end
  end.

Fixpoint exec_parse_stmts (tag : Z) (stmts : list ParseStmt) (st : ParseState)
    : option ParseState :=
  match stmts with
  | [] => Some st
  | stmt :: rest =>
      match exec_parse_stmt tag stmt st with
      | None => None
      | Some st' => exec_parse_stmts tag rest st'
      end
  end.

(** [switch (tag)]: the case labelled with the tag, else the default. *)
Definition select_case (tag : Z) (cases : list SwitchCase) : option SwitchCase :=
  match find (λ c, bool_decide (case_label c = Some tag)) cases with
  | Some c => Some c
  | None => find (λ c, bool_decide (case_label c = None)) cases
  end.

Inductive Outcome : Type :=
| Returned (rest : Input) (this : Builder)  (* return this; *)
| Threw                                      (* an exception leaves the method *)
| OutOfFuel.

(** [while (!done) { int tag = input.readTag(); switch (tag) { ... } }]
    inside [try { ... } finally { onChanged(); }], then [return this;]. *)
Fixpoint run_loop (fuel : nat) (cases : list SwitchCase) (st : ParseState)
    : Outcome :=
  if done st then Returned (input st) (onChanged (builder st))
  else
    match fuel with
    | O => OutOfFuel
    | S fuel' =>
        match readTag (input st) with
        | None => Threw
        | Some (tag, input') =>
            let st' := mkParseState input' (builder st) (done st) in
            match select_case tag cases with
            | None => run_loop fuel' cases st'
            | Some c =>
                match exec_parse_stmts tag (case_body c) st' with
                | None => Threw
                | Some st'' => run_loop fuel' cases st''
                end
            end
        end
    end.

(** The whole method: the null check on the registry, then the loop
    started with [done = false]. *)
Definition run_parsing_method (cases : list SwitchCase)
    (extensionRegistry_is_null : bool) (fuel : nat)
    (input0 : Input) (this : Builder) : Outcome :=
  if extensionRegistry_is_null then Threw
  else run_loop fuel cases (mkParseState input0 this false).

End ParsingSemantics.

(** ** Meaning of the generated [mergeFrom($classname$ other)] *)

Section MergeSemantics.

Variables Builder Message : Type.

(** [other == $classname$.getDefaultInstance()]. *)
Variable is_default_instance : Message → bool.

(** The merging code a field generator printed. *)
Variable run_field_merging : FieldDescriptor → Builder → Message → Builder.

(** [other.get<Oneof>Case()]: the field number of the member that is set,
    or [None] for [<ONEOF>_NOT_SET]. *)
Variable oneof_case : OneofId → Message → option Z.

Variable mergeExtensionFields : Builder → Message → Builder.
Variable mergeUnknownFields : Builder → Message → Builder.
Variable onChanged : Builder → Builder.

(** One statement that is not a [return]. *)
Definition exec_merge_stmt (stmt : MergeStmt) (this : Builder) (other : Message)
    : Builder :=
  match stmt with
  | FieldMerging f => run_field_merging f this other
  | OneofSwitch oneof members =>
      match oneof_case oneof other with
      | None => this
      | Some active =>
          match find (λ m, number m =? active) members with
          | Some m => run_field_merging m this other
          | None => this
          end
      end
  | MergeExtensionFields => mergeExtensionFields this other
  | MergeUnknownFields => mergeUnknownFields this other
  | OnChanged => onChanged this
  | ReturnThisIfDefaultInstance | ReturnThis => this
  end.

(** Runs the body: the builder when the method returns, and the statements
    that were executed, in order. *)
Fixpoint run_mergeFrom (body : list MergeStmt) (this : Builder) (other : Message)
    : Builder * list MergeStmt :=
  match body with
  | [] => (this, [])
  | stmt :: rest =>
      match stmt with
      | ReturnThis => (this, [stmt])
      | ReturnThisIfDefaultInstance =>
          if is_default_instance other then (this, [stmt])
          else
            let '(this', log) := run_mergeFrom rest this other in
            (this', stmt :: log)
      | _ =>
          let '(this', log) :=
            run_mergeFrom rest (exec_merge_stmt stmt this other) other in
          (this', stmt :: log)
      end
  end.

End MergeSemantics.

(** ** Notions used to state the properties *)

(** The merge actions of a body: everything but the guard on the default
    instance, [onChanged()] and [return this]. *)
Definition is_merge_action (stmt : MergeStmt) : bool :=
  match stmt with
  | FieldMerging _ | OneofSwitch _ _
  | MergeExtensionFields | MergeUnknownFields => true
  | ReturnThisIfDefaultInstance | OnChanged | ReturnThis => false
  end.

Definition merge_actions (body : list MergeStmt) : list MergeStmt :=
  List.filter is_merge_action body.

(** The field whose parsing code a case runs. *)
Definition case_field (c : SwitchCase) : option FieldDescriptor :=
  match case_body c with
  | [FieldParsing _ f] => Some f
  | _ => None
  end.

(** The dispatch entries of a field: the cases that run its parsing code,
    the field being identified by its number. *)
Definition entries_of (f : FieldDescriptor) (cases : list SwitchCase)
    : list SwitchCase :=
  List.filter (λ c, match case_field c with
                    | Some g => number g =? number f
                    | None => false
                    end) cases.

(** Ceiling of [a / b] for positive [b], by floor division. *)
Definition ceil_div (a b : Z) : Z := - ((- a) / b).

(** The presence bits of one side, added up as integers. *)
Definition total_bits (bits : FieldDescriptor → Z) (descriptor : Descriptor) : Z :=
  foldr (λ f total, bits f + total) 0 (field descriptor).

Section TypeGraph.

Variable pool : DescriptorId → Descriptor.
Variable GetJavaType : FieldDescriptor → JavaType.

(** [reachable from to]: [to] is [from] or the type of a message field of a
    message reachable from [from]. *)
Inductive reachable (from : DescriptorId) : DescriptorId → Prop :=
| reachable_here : reachable from from
| reachable_field via f :
    reachable from via → f ∈ field (pool via) →
    GetJavaType f = JAVATYPE_MESSAGE →
    reachable from (message_type f).

(** Nothing reachable from the message has a required field. *)
Definition no_required_fields (message : DescriptorId) : Prop :=
  ∀ m f, reachable message m → f ∈ field (pool m) → is_required f = false.

(** Nothing reachable from the message has an extension range. *)
Definition no_extension_ranges (message : DescriptorId) : Prop :=
  ∀ m, reachable message m → extension_range_count (pool m) = 0%nat.

(** The analysis only answers [true] for a type from which a required
    field or an extension range can be reached. *)
Definition analysis_sound (HasRequiredFields : DescriptorId → bool) : Prop :=
  ∀ message, HasRequiredFields message = true →
    ∃ m, reachable message m ∧
         ((0 < extension_range_count (pool m))%nat ∨
          ∃ f, f ∈ field (pool m) ∧ is_required f = true).

End TypeGraph.

(** ** Concrete inputs *)

Module Example.

(** The wire format: [WireFormatLite::MakeTag] is
    [(field_number << 3) | wire_type] on [uint32_t], the wire types are
    numbered 0 to 5, and [WireFormat::WireTypeForFieldType] is the table
    [kWireTypeForFieldType]. *)
Definition wire_type_number (wire_type : WireType) : Z :=
  match wire_type with
  | WIRETYPE_VARINT => 0 | WIRETYPE_FIXED64 => 1
  | WIRETYPE_LENGTH_DELIMITED => 2 | WIRETYPE_START_GROUP => 3
  | WIRETYPE_END_GROUP => 4 | WIRETYPE_FIXED32 => 5
  end.

Definition MakeTag (field_number : Z) (wire_type : WireType) : Z :=
  Z.lor (Z.shiftl field_number 3) (wire_type_number wire_type) mod 2 ^ 32.

Definition WireTypeForFieldType (t : FieldType) : WireType :=
  match t with
  | TYPE_DOUBLE | TYPE_FIXED64 | TYPE_SFIXED64 => WIRETYPE_FIXED64
  | TYPE_FLOAT | TYPE_FIXED32 | TYPE_SFIXED32 => WIRETYPE_FIXED32
  | TYPE_STRING | TYPE_MESSAGE | TYPE_BYTES => WIRETYPE_LENGTH_DELIMITED
  | TYPE_GROUP => WIRETYPE_START_GROUP
  | _ => WIRETYPE_VARINT
  end.

Definition GetJavaType (f : FieldDescriptor) : JavaType :=
  match type f with
  | TYPE_MESSAGE | TYPE_GROUP => JAVATYPE_MESSAGE
  | TYPE_STRING => JAVATYPE_STRING
  | TYPE_BYTES => JAVATYPE_BYTES
  | TYPE_ENUM => JAVATYPE_ENUM
  | TYPE_BOOL => JAVATYPE_BOOLEAN
  | TYPE_DOUBLE => JAVATYPE_DOUBLE
  | TYPE_FLOAT => JAVATYPE_FLOAT
  | TYPE_INT64 | TYPE_UINT64 | TYPE_FIXED64 | TYPE_SFIXED64 | TYPE_SINT64 =>
      JAVATYPE_LONG
  | _ => JAVATYPE_INT
  end.

(** The message of the specification's scenario:
    [required int32 id = 1; optional Msg child = 2;
     repeated int32 tags = 3], [Msg] being an empty message. *)
Definition Parent : DescriptorId := 0%nat.
Definition Msg : DescriptorId := 1%nat.
Definition Holder : DescriptorId := 2%nat.
Definition Extendable : DescriptorId := 3%nat.
Definition Choice : DescriptorId := 4%nat.

Definition id_field : FieldDescriptor :=
  mkField "id" 1 TYPE_INT32 LABEL_REQUIRED false false Parent None.
Definition child_field : FieldDescriptor :=
  mkField "child" 2 TYPE_MESSAGE LABEL_OPTIONAL false false Msg None.
Definition tags_field : FieldDescriptor :=
  mkField "tags" 3 TYPE_INT32 LABEL_REPEATED true false Parent None.

(** A oneof [{a, b}] next to a plain field [c]. *)
Definition a_field : FieldDescriptor :=
  mkField "a" 1 TYPE_INT32 LABEL_OPTIONAL false false Choice (Some 0%nat).
Definition b_field : FieldDescriptor :=
  mkField "b" 2 TYPE_STRING LABEL_OPTIONAL false false Choice (Some 0%nat).
Definition c_field : FieldDescriptor :=
  mkField "c" 3 TYPE_BOOL LABEL_OPTIONAL false false Choice None.

(** [Holder] only holds an optional [Msg]; [Extendable] has no field and
    one extension range. *)
Definition pool (message : DescriptorId) : Descriptor :=
  match message with
  | 0%nat => mkMessage [id_field; child_field; tags_field] 0
  | 2%nat => mkMessage [child_field] 0
  | 3%nat => mkMessage [] 1
  | 4%nat => mkMessage [a_field; b_field; c_field] 1
  | _ => mkMessage [] 0
  end.

(** The analysis on this pool: only [Parent] has a required field, and
    [Extendable] and [Choice] have extension ranges. *)
Definition HasRequiredFields (message : DescriptorId) : bool :=
  match message with 0%nat | 3%nat | 4%nat => true | _ => false end.

Definition IsMapEntry (message : DescriptorId) : bool := false.
Definition map_value_type (message : DescriptorId) : FieldType := TYPE_MESSAGE.

(** Singular fields outside oneofs take one bit on each side, repeated
    fields one bit in the builder only, members of a oneof none. *)
Definition field_generators_ (f : FieldDescriptor) : ImmutableFieldGenerator :=
  match real_containing_oneof f, label f with
  | Some _, _ => mkFieldGenerator 0 0
  | None, LABEL_REPEATED => mkFieldGenerator 0 1
  | None, _ => mkFieldGenerator 1 1
  end.

Definition HasGeneratedMethods (descriptor : Descriptor) : bool := true.

(** An input stream of tags, a builder that logs what ran on it, and a
    handler of unknown fields that stops at the end-group tag 12. *)
Definition readTag (input : list Z) : option (Z * list Z) :=
  match input with
  | [] => Some (0, [])
  | tag :: rest => Some (tag, rest)
  end.

Definition run_field_parsing (call : FieldGeneratorCall) (f : FieldDescriptor)
    (input : list Z) (this : list Z) : option (list Z * list Z) :=
  Some (input, number f :: this).

Definition parseUnknownField (tag : Z) (input : list Z) (this : list Z)
    : option (bool * (list Z * list Z)) :=
  Some (negb (tag =? 12), (input, this)).

Definition onChanged (this : list Z) : list Z := this.

End Example.

(** ** Further parts of the generator *)

Section DescriptorMethods.

Variable GetJavaType : FieldDescriptor → JavaType.
Variable IsMapEntry : DescriptorId → bool.

(** [descriptor_->options().no_standard_descriptor_accessor()]. *)
Variable no_standard_descriptor_accessor : Descriptor → bool.

(** The loop of [GenerateDescriptorMethods] that fills [map_fields]
    (lines 218-225). *)
Definition map_fields (descriptor : Descriptor) : list FieldDescriptor :=
  List.filter
    (λ f, match GetJavaType f with
          | JAVATYPE_MESSAGE => IsMapEntry (message_type f)
          | _ => false
          end)
    (field descriptor).

(** [case <number>: return internalGet[Mutable]<Name>();] *)
Record MapFieldCase : Type := mkMapCase {
  map_case_number : Z;
  map_case_field : FieldDescriptor
}.

(** What [GenerateDescriptorMethods] prints: whether [getDescriptor()] is
    there, and the cases of the [switch (number)] of [internalGetMapField]
    and of [internalGetMutableMapField], each followed by a [default] that
    throws; the two methods are left out when there is no map field. *)
Record DescriptorMethods : Type := mkDescriptorMethods {
  getDescriptor : bool;
  internalGetMapField : option (list MapFieldCase);
  internalGetMutableMapField : option (list MapFieldCase)
}.

Definition GenerateDescriptorMethods (descriptor : Descriptor)
    : DescriptorMethods :=
  let fields := map_fields descriptor in
  let cases := map (λ f, mkMapCase (number f) f) fields in
  mkDescriptorMethods
    (negb (no_standard_descriptor_accessor descriptor))
    (match fields with [] => None | _ => Some cases end)
    (match fields with [] => None | _ => Some cases end).

End DescriptorMethods.

(** [switch (number) { cases default: throw new RuntimeException(...) }]:
    the field whose map is returned, or [None] when the default throws. *)
Definition run_map_switch (cases : list MapFieldCase) (number : Z)
    : option FieldDescriptor :=
  match find (λ c, map_case_number c =? number) cases with
  | Some c => Some (map_case_field c)
  | None => None
  end.

(** ** Meaning of the generated [isInitialized()] *)

Section InitializedSemantics.

(** [has<Name>()], [get<Name>().isInitialized()], the answers of
    [isInitialized()] on the elements of a repeated field or the values of
    a map field, in order, and [extensionsAreInitialized()]. *)
Variable has : FieldDescriptor → bool.
Variable message_initialized : FieldDescriptor → bool.
Variable elements_initialized : FieldDescriptor → list bool.
Variable extensionsAreInitialized : bool.

(** A check passes when it does not return [false]. *)
Definition check_passes (check : InitCheck) : bool :=
  match check with
  | CheckHas f => has f
  | CheckRequiredMessage f => message_initialized f
  | CheckOptionalMessage f => if has f then message_initialized f else true
  | CheckMapValues f | CheckRepeatedMessage f =>
      forallb (λ ok, ok) (elements_initialized f)
  | CheckExtensions => extensionsAreInitialized
  end.

(** The checks in order, then [return true;]. *)
Fixpoint run_isInitialized (checks : list InitCheck) : bool :=
  match checks with
  | [] => true
  | check :: rest =>
      if check_passes check then run_isInitialized rest else false
  end.

End InitializedSemantics.

(** A message with a map field: [map<string, int32> counts = 1;
    optional string title = 2; map<string, Msg> parts = 4], the entries of
    the maps being the messages [CountsEntry] and [PartsEntry]. *)
Module MapExample.

Definition Book : DescriptorId := 0%nat.
Definition CountsEntry : DescriptorId := 1%nat.
Definition PartsEntry : DescriptorId := 2%nat.

Definition counts_field : FieldDescriptor :=
  mkField "counts" 1 TYPE_MESSAGE LABEL_REPEATED false false CountsEntry None.
Definition title_field : FieldDescriptor :=
  mkField "title" 2 TYPE_STRING LABEL_OPTIONAL false false Book None.
Definition parts_field : FieldDescriptor :=
  mkField "parts" 4 TYPE_MESSAGE LABEL_REPEATED false false PartsEntry None.

Definition book : Descriptor :=
  mkMessage [counts_field; title_field; parts_field] 0.

Definition IsMapEntry (message : DescriptorId) : bool :=
  match message with 1%nat | 2%nat => true | _ => false end.

Definition no_standard_descriptor_accessor (descriptor : Descriptor) : bool :=
  false.

End MapExample.

End Java.

(* ===================================================================== *)
(** * Properties of the sort                                              *)
(* ===================================================================== *)

(** Case analysis on membership in a list that is given element by
    element. *)
Ltac list_cases H :=
  repeat (apply elem_of_cons in H as [->|H]); [..|by inversion H].

Section Sorting.
Context {A : Type} (comp : A → A → bool).

Lemma sort_insert_Permutation x l : sort_insert comp x l ≡ₚ x :: l.
Proof.
  induction l as [|y l IH]; simpl; [done|].
  destruct (comp x y); [done|]. rewrite IH. apply Permutation_swap.
Qed.

Lemma std_sort_Permutation l : std_sort comp l ≡ₚ l.
Proof.
  induction l as [|x l IH]; simpl; [done|].
  rewrite sort_insert_Permutation. by constructor.
Qed.

(** [comp] is a strict total order on the elements to sort. *)
Hypothesis comp_trans :
  ∀ x y z, comp x y = true → comp y z = true → comp x z = true.

Lemma sort_insert_sorted x l :
  (∀ y, y ∈ l → comp x y = false → comp y x = true) →
  StronglySorted (λ a b, comp a b = true) l →
  StronglySorted (λ a b, comp a b = true) (sort_insert comp x l).
Proof.
  intros Htotal Hsorted.
  induction Hsorted as [|y l Hsorted IH Hall]; simpl.
  - repeat constructor.
  - destruct (comp x y) eqn:Hxy.
    + constructor; [by constructor|]. constructor; [done|].
      eapply Forall_impl; [exact Hall|]. intros z Hz. by eapply comp_trans.
    + constructor.
      * apply IH. intros z Hz. apply Htotal. by right.
      * rewrite sort_insert_Permutation. constructor; [|done].
        apply Htotal; [left|done].
Qed.

Lemma std_sort_sorted l :
  (∀ x y, x ∈ l → y ∈ l → x ≠ y → comp x y = false → comp y x = true) →
  NoDup l →
  StronglySorted (λ a b, comp a b = true) (std_sort comp l).
Proof.
  intros Htotal Hnodup. induction Hnodup as [|x l Hx Hnodup IH]; simpl.
  - constructor.
  - apply sort_insert_sorted.
    + intros y Hy. rewrite std_sort_Permutation in Hy.
      apply Htotal; [left|by right|]. intros ->. done.
    + apply IH. intros a b Ha Hb. apply Htotal; by right.
Qed.

End Sorting.

(* ===================================================================== *)
(** * Properties of the extension-dependency closure                      *)
(* ===================================================================== *)

Module ObjCProofs.
Import ObjC.

(** ** Extensions declared at any depth *)

Lemma Descriptor_nested_ind (P : Descriptor → Prop) :
  (∀ count nested, Forall P nested → P (mkDescriptor count nested)) →
  ∀ message, P message.
Proof.
  intros step. fix IH 1. intros [count nested]. apply step.
  induction nested as [|child rest IHrest]; constructor.
  - apply IH.
  - exact IHrest.
Qed.

Lemma MessageContainsExtensions_iff message :
  MessageContainsExtensions message = true ↔
  ∃ inner, nested_in inner message ∧ 0 < extension_count inner.
Proof.
  induction message as [count nested IH] using Descriptor_nested_ind.
  simpl. destruct (0 <? count) eqn:Hcount.
  - apply Nat.ltb_lt in Hcount. split; [intros _|done].
    exists (mkDescriptor count nested). split; [constructor|done].
  - apply Nat.ltb_ge in Hcount. rewrite existsb_exists. split.
    + intros (child & Hin & Hchild). apply list_elem_of_In in Hin.
      rewrite Forall_forall in IH. apply IH in Hchild; [|done].
      destruct Hchild as (inner & Hnest & Hpos).
      exists inner. split; [|done]. by eapply nested_deeper.
    + intros (inner & Hnest & Hpos).
      inversion Hnest as [Heq | outer child Hin Hnest' Heq]; subst.
      * simpl in Hpos. lia.
      * simpl in Hin. exists child. split; [by apply list_elem_of_In|].
        rewrite Forall_forall in IH. apply IH; [done|]. by exists inner.
Qed.

Lemma FileContainsExtensions_iff file :
  FileContainsExtensions file = true ↔ declares_extension file.
Proof.
  unfold FileContainsExtensions, declares_extension.
  destruct (0 <? file_extension_count file) eqn:Hcount.
  - apply Nat.ltb_lt in Hcount. split; [by left|done].
  - apply Nat.ltb_ge in Hcount. rewrite existsb_exists. split.
    + intros (top & Hin & Htop). right.
      apply MessageContainsExtensions_iff in Htop as (inner & ? & ?).
      exists top, inner. by rewrite list_elem_of_In.
    + intros [Hpos | (top & inner & Hin & Hnest & Hpos)]; [lia|].
      exists top. split; [by apply list_elem_of_In|].
      apply MessageContainsExtensions_iff. by exists inner.
Qed.

(** ** What the loop over the dependencies collects *)

Section Collectors.
Variable info : FileId → MinDepsEntry.

Local Abbreviation collect :=
  (foldl (λ acc dep, visit_dep dep (info dep) acc)).

Lemma collect_min deps acc x :
  x ∈ min_deps_collector (collect acc deps) ↔
  x ∈ min_deps_collector acc ∨
  ∃ dep, dep ∈ deps ∧
    (if has_extensions (info dep) then x = dep else x ∈ min_deps (info dep)).
Proof.
  revert acc. induction deps as [|d deps IH]; intros acc; simpl.
  - split; [by left|]. intros [?|(dep & Hin & _)]; [done|]. by inversion Hin.
  - rewrite IH. clear IH. unfold visit_dep.
    destruct (has_extensions (info d)) eqn:Hd; simpl.
    + split.
      * intros [Hx|(dep & Hin & Hdep)].
        -- apply elem_of_union in Hx as [Hx|Hx]; [|by left].
           apply elem_of_singleton in Hx. right. exists d.
           rewrite Hd. split; [left|done].
        -- right. exists dep. split; [by right|done].
      * intros [Hx|(dep & Hin & Hdep)]; [left; set_solver|].
        apply elem_of_cons in Hin as [->|Hin].
        -- rewrite Hd in Hdep. left. set_solver.
        -- right. by exists dep.
    + split.
      * intros [Hx|(dep & Hin & Hdep)].
        -- apply elem_of_union in Hx as [Hx|Hx]; [by left|].
           right. exists d. rewrite Hd. split; [left|done].
        -- right. exists dep. split; [by right|done].
      * intros [Hx|(dep & Hin & Hdep)]; [left; set_solver|].
        apply elem_of_cons in Hin as [->|Hin].
        -- rewrite Hd in Hdep. left. set_solver.
        -- right. by exists dep.
Qed.

Lemma collect_covered deps acc x :
  x ∈ covered_deps_collector (collect acc deps) ↔
  x ∈ covered_deps_collector acc ∨
  ∃ dep, dep ∈ deps ∧
    (x ∈ covered_deps (info dep) ∨
     (has_extensions (info dep) = true ∧ x ∈ min_deps (info dep))).
Proof.
  revert acc. induction deps as [|d deps IH]; intros acc; simpl.
  - split; [by left|]. intros [?|(dep & Hin & _)]; [done|]. by inversion Hin.
  - rewrite IH. clear IH. unfold visit_dep.
    destruct (has_extensions (info d)) eqn:Hd; simpl.
    + split.
      * intros [Hx|(dep & Hin & Hdep)].
        -- apply elem_of_union in Hx as [Hx|Hx].
           ++ apply elem_of_union in Hx as [Hx|Hx]; [by left|].
              right. exists d. split; [left|by left].
           ++ right. exists d. split; [left|by right].
        -- right. exists dep. split; [by right|done].
      * intros [Hx|(dep & Hin & Hdep)]; [left; set_solver|].
        apply elem_of_cons in Hin as [->|Hin].
        -- left. destruct Hdep as [?|[_ ?]]; set_solver.
        -- right. by exists dep.
    + split.
      * intros [Hx|(dep & Hin & Hdep)].
        -- apply elem_of_union in Hx as [Hx|Hx]; [by left|].
           right. exists d. split; [left|by left].
        -- right. exists dep. split; [by right|done].
      * intros [Hx|(dep & Hin & Hdep)]; [left; set_solver|].
        apply elem_of_cons in Hin as [->|Hin].
        -- left. destruct Hdep as [?|[? _]]; [set_solver|congruence].
        -- right. by exists dep.
Qed.

(** The prune set and the covered set receive the same insertions. *)
Lemma collect_prune deps acc :
  to_prune acc = covered_deps_collector acc →
  to_prune (collect acc deps) = covered_deps_collector (collect acc deps).
Proof.
  revert acc. induction deps as [|d deps IH]; intros acc Hacc; [done|].
  simpl. apply IH. unfold visit_dep.
  destruct (has_extensions (info d)); simpl; by rewrite Hacc.
Qed.

End Collectors.

Lemma collect_ext (info1 info2 : FileId → MinDepsEntry) deps acc :
  (∀ dep, dep ∈ deps → info1 dep = info2 dep) →
  foldl (λ acc dep, visit_dep dep (info1 dep) acc) acc deps =
  foldl (λ acc dep, visit_dep dep (info2 dep) acc) acc deps.
Proof.
  revert acc. induction deps as [|d deps IH]; intros acc Hext; [done|].
  simpl. rewrite (Hext d); [|left]. apply IH. intros dep Hin.
  apply Hext. by right.
Qed.

(** ** The memo table agrees with the closure computed without it *)

Section Acyclic.
Variable pool : FileId → FileDescriptor.
Variable rank : FileId → nat.
Hypothesis rank_decreases :
  ∀ file dep, dep ∈ dependency (pool file) → rank dep < rank file.

Local Abbreviation Internal :=
  (CollectMinimalFileDepsContainingExtensionsInternal pool).
Local Abbreviation entry_of := (ObjC.entry_of pool rank).
Local Abbreviation collected := (ObjC.collected pool rank).
Local Abbreviation cache_agrees := (ObjC.cache_agrees pool rank).

Lemma closure_fuel n m file :
  rank file < n → rank file < m → closure pool n file = closure pool m file.
Proof.
  revert m file. induction n as [|n IH]; intros m file Hn Hm; [lia|].
  destruct m as [|m]; [lia|]. simpl. f_equal.
  apply collect_ext. intros dep Hdep.
  apply rank_decreases in Hdep. apply IH; lia.
Qed.

Lemma entry_of_unfold file :
  entry_of file = make_entry pool file (collected file).
Proof.
  unfold entry_of at 1. simpl. f_equal. apply collect_ext.
  intros dep Hdep. apply rank_decreases in Hdep.
  apply closure_fuel; lia.
Qed.

Lemma cache_agrees_empty : cache_agrees ∅.
Proof. intros file entry Hlook. by rewrite lookup_empty in Hlook. Qed.

Lemma cache_insert_agrees file cache :
  cache_agrees cache →
  ∃ cache', cache_insert file (entry_of file) cache = (entry_of file, cache')
            ∧ cache_agrees cache' ∧ cache' !! file = Some (entry_of file)
            ∧ cache ⊆ cache'.
Proof.
  intros Hagree. unfold cache_insert.
  destruct (cache !! file) as [old|] eqn:Hlook.
  - rewrite (Hagree _ _ Hlook). exists cache.
    rewrite <- (Hagree _ _ Hlook). by repeat split.
  - exists (<[file := entry_of file]> cache). repeat split.
    + intros other entry. rewrite lookup_insert.
      case_decide; [naive_solver|]. apply Hagree.
    + apply lookup_insert_eq.
    + by apply insert_subseteq.
Qed.

Lemma deps_loop_agrees fuel :
  (∀ file cache, rank file < fuel → cache_agrees cache →
     ∃ cache', Internal fuel file cache = Some (entry_of file, cache')
               ∧ cache_agrees cache' ∧ cache ⊆ cache') →
  ∀ deps acc cache,
    (∀ dep, dep ∈ deps → rank dep < fuel) → cache_agrees cache →
    ∃ cache',
      deps_loop (Internal fuel) deps acc cache =
        Some (foldl (λ acc dep, visit_dep dep (entry_of dep) acc) acc deps,
              cache')
      ∧ cache_agrees cache' ∧ cache ⊆ cache'.
Proof.
  intros Hrec deps. induction deps as [|d deps IH]; intros acc cache Hlt Hok.
  - exists cache. by repeat split.
  - simpl. destruct (Hrec d cache) as (cache1 & -> & Hok1 & Hsub1);
      [apply Hlt; left|done|].
    destruct (IH (visit_dep d (entry_of d) acc) cache1)
      as (cache2 & -> & Hok2 & Hsub2); [|done|].
    { intros dep Hin. apply Hlt. by right. }
    exists cache2. repeat split; [done|]. by etrans.
Qed.

(** With fuel above the rank of the file the call returns, and it returns
    the entry of the file, stored in a table that still agrees. *)
Lemma Internal_agrees fuel file cache :
  rank file < fuel → cache_agrees cache →
  ∃ cache', Internal fuel file cache = Some (entry_of file, cache')
            ∧ cache_agrees cache' ∧ cache' !! file = Some (entry_of file)
            ∧ cache ⊆ cache'.
Proof.
  revert file cache. induction fuel as [|fuel IH]; intros file cache Hlt Hok;
    [lia|].
  simpl. destruct (cache !! file) as [entry|] eqn:Hlook.
  - rewrite (Hok _ _ Hlook). exists cache.
    rewrite <- (Hok _ _ Hlook). by repeat split.
  - destruct (deps_loop_agrees fuel) with
      (deps := dependency (pool file)) (acc := no_collectors) (cache := cache)
      as (cache1 & Hloop & Hok1 & Hsub1); [| |done|].
    { intros f c Hf Hc. destruct (IH f c Hf Hc) as (c' & ? & ? & ? & ?).
      by exists c'. }
    { intros dep Hdep. apply rank_decreases in Hdep. lia. }
    rewrite Hloop. fold (collected file). rewrite <- entry_of_unfold.
    destruct (cache_insert_agrees file cache1 Hok1)
      as (cache2 & -> & Hok2 & Hlook2 & Hsub2).
    exists cache2. repeat split; [done..|]. by etrans.
Qed.

(** ** Shape of an entry *)

Lemma has_extensions_entry_of file :
  has_extensions (entry_of file) = FileContainsExtensions (pool file).
Proof.
  rewrite entry_of_unfold. unfold make_entry.
  by destruct (_ || _).
Qed.

Lemma covered_entry_of file :
  covered_deps (entry_of file) = covered_deps_collector (collected file).
Proof.
  rewrite entry_of_unfold. unfold make_entry.
  by destruct (_ || _).
Qed.

Lemma min_deps_entry_of_collected file m :
  m ∈ min_deps (entry_of file) → m ∈ min_deps_collector (collected file).
Proof.
  rewrite entry_of_unfold. unfold make_entry.
  destruct (_ || _); simpl; [done|].
  rewrite elem_of_filter. tauto.
Qed.

Lemma collected_prune file :
  to_prune (collected file) = covered_deps_collector (collected file).
Proof. by apply collect_prune. Qed.

(** Where a member of [min_deps] comes from: a dependency with extensions,
    or the [min_deps] of a dependency without. *)
Lemma min_deps_origin file m :
  m ∈ min_deps (entry_of file) →
  ∃ dep, dep ∈ dependency (pool file) ∧
    (if has_extensions (entry_of dep) then m = dep
     else m ∈ min_deps (entry_of dep)).
Proof.
  intros Hm. apply min_deps_entry_of_collected in Hm.
  unfold collected in Hm. apply collect_min in Hm as [Hm|Hm]; [|done].
  by apply not_elem_of_empty in Hm.
Qed.

Lemma covered_from_dep file dep x :
  dep ∈ dependency (pool file) →
  x ∈ covered_deps (entry_of dep) ∨
    (has_extensions (entry_of dep) = true ∧ x ∈ min_deps (entry_of dep)) →
  x ∈ covered_deps (entry_of file).
Proof.
  intros Hdep Hx. rewrite covered_entry_of. unfold collected.
  apply collect_covered. right. by exists dep.
Qed.

Lemma min_deps_rank file m :
  m ∈ min_deps (entry_of file) → rank m < rank file.
Proof.
  remember (rank file) as n eqn:Hn. revert file m Hn.
  induction n as [n IH] using lt_wf_ind. intros file m -> Hm.
  apply min_deps_origin in Hm as (dep & Hdep & Hm).
  pose proof (rank_decreases _ _ Hdep) as Hlt.
  destruct (has_extensions (entry_of dep)); [by subst|].
  specialize (IH (rank dep) Hlt dep m eq_refl Hm). lia.
Qed.

(** What a member of [min_deps] lists or covers is covered by the file. *)
Lemma min_deps_covered file m x :
  m ∈ min_deps (entry_of file) →
  x ∈ min_deps (entry_of m) ∨ x ∈ covered_deps (entry_of m) →
  x ∈ covered_deps (entry_of file).
Proof.
  remember (rank file) as n eqn:Hn. revert file m x Hn.
  induction n as [n IH] using lt_wf_ind. intros file m x -> Hm Hx.
  apply min_deps_origin in Hm as (dep & Hdep & Hm).
  pose proof (rank_decreases _ _ Hdep) as Hlt.
  destruct (has_extensions (entry_of dep)) eqn:Hext.
  - subst m. apply (covered_from_dep file dep); [done|]. tauto.
  - apply (covered_from_dep file dep); [done|]. left.
    by apply (IH (rank dep) Hlt dep m x eq_refl).
Qed.

Section Chains.
Variable cache : gmap FileId MinDepsEntry.
Hypothesis agrees : cache_agrees cache.

Lemma min_chain_covered m x :
  min_chain cache m x →
  ∀ file, m ∈ min_deps (entry_of file) → x ∈ covered_deps (entry_of file).
Proof.
  induction 1 as [m entry x Hlook Hx | m entry y x Hlook Hy _ IH];
    intros file Hm; apply agrees in Hlook; subst entry.
  - apply (min_deps_covered file m); tauto.
  - apply (min_deps_covered file m); [done|]. right. by apply IH.
Qed.

Lemma min_chain_rank m x : min_chain cache m x → rank x < rank m.
Proof.
  induction 1 as [m entry x Hlook Hx | m entry y x Hlook Hy _ IH];
    apply agrees in Hlook; subst entry.
  - by apply min_deps_rank.
  - apply min_deps_rank in Hy. lia.
Qed.

(** The chain of a member of the collected set ends in the prune set. *)
Lemma min_chain_pruned file m2 m1 :
  m2 ∈ min_deps_collector (collected file) →
  min_chain cache m2 m1 → m1 ∈ to_prune (collected file).
Proof.
  intros Hm2 Hchain. rewrite collected_prune. unfold collected in *.
  apply collect_min in Hm2 as [Hm2|(dep & Hdep & Hm2)];
    [by apply not_elem_of_empty in Hm2|].
  apply collect_covered. right. exists dep. split; [done|].
  destruct (has_extensions (entry_of dep)) eqn:Hext.
  - subst m2.
    inversion Hchain as [? entry ? Hlook Hx | ? entry y ? Hlook Hy Hrest];
      subst; apply agrees in Hlook; subst entry.
    + by right.
    + left. by apply (min_chain_covered y).
  - left. by apply (min_chain_covered m2).
Qed.

Lemma entry_of_reduced file : transitively_reduced cache (entry_of file).
Proof.
  remember (rank file) as n eqn:Hn. revert file Hn.
  induction n as [n IH] using lt_wf_ind. intros file -> m1 m2 Hm1 Hm2 Hchain.
  pose proof (min_chain_pruned file m2 m1
                (min_deps_entry_of_collected _ _ Hm2) Hchain) as Hpruned.
  revert Hm1 Hm2. rewrite entry_of_unfold. unfold make_entry.
  destruct (bool_decide (to_prune (collected file) = ∅)) eqn:Hempty; simpl.
  { apply bool_decide_eq_true in Hempty. rewrite Hempty in Hpruned.
    by apply not_elem_of_empty in Hpruned. }
  destruct (length (dependency (pool file)) =? 1) eqn:Hone; simpl.
  - apply Nat.eqb_eq in Hone.
    destruct (dependency (pool file)) as [|dep [|? ?]] eqn:Hdeps;
      try discriminate.
    unfold collected. rewrite Hdeps. simpl. unfold visit_dep.
    assert (rank dep < rank file) as Hlt.
    { apply rank_decreases. rewrite Hdeps. left. }
    destruct (has_extensions (entry_of dep)); simpl.
    + intros Hm1 Hm2.
      rewrite (right_id_L ∅ (∪)) in Hm1, Hm2.
      apply elem_of_singleton in Hm1, Hm2. subst m1 m2.
      apply min_chain_rank in Hchain. lia.
    + intros Hm1 Hm2.
      rewrite (left_id_L ∅ (∪)) in Hm1, Hm2.
      by apply (IH (rank dep) Hlt dep eq_refl m1 m2).
  - intros Hm1 _. apply elem_of_filter in Hm1 as [Hm1 _]. done.
Qed.

End Chains.

End Acyclic.

(** ** Unfolding the memoised function *)

Section Unfold.
Variable pool : FileId → FileDescriptor.

Local Abbreviation Internal :=
  (CollectMinimalFileDepsContainingExtensionsInternal pool).

Lemma Internal_hit fuel file cache entry :
  cache !! file = Some entry →
  Internal (S fuel) file cache = Some (entry, cache).
Proof. intros Hlook. simpl. by rewrite Hlook. Qed.

Lemma Internal_miss fuel file cache :
  cache !! file = None →
  Internal (S fuel) file cache =
    match deps_loop (Internal fuel) (dependency (pool file))
                    no_collectors cache with
    | None => None
    | Some (acc, cache') =>
        Some (cache_insert file (make_entry pool file acc) cache')
    end.
Proof. intros Hlook. simpl. by rewrite Hlook. Qed.

Lemma deps_loop_cons {St} (rec : FileId → St → option (MinDepsEntry * St))
    dep rest acc cache :
  deps_loop rec (dep :: rest) acc cache =
    match rec dep cache with
    | None => None
    | Some (dep_info, cache') =>
        deps_loop rec rest (visit_dep dep dep_info acc) cache'
    end.
Proof. reflexivity. Qed.

Lemma deps_loop_nil {St} (rec : FileId → St → option (MinDepsEntry * St))
    acc cache :
  deps_loop rec [] acc cache = Some (acc, cache).
Proof. reflexivity. Qed.

End Unfold.

Ltac tidy_sets :=
  simpl; rewrite ?(left_id_L ∅ (∪)), ?(right_id_L ∅ (∪)), ?(idemp_L (∪)).

(** ** The scenario of the specification *)

(** C1 (as amended).  In the import graph where [A] imports [B] and [C]
    (in either order), [B] imports nothing and contains extensions, and [C]
    imports [B] and contains none, the closure computed for [A] from an
    empty memo table has [min_deps = {B}] and an empty [covered_deps]: [B]
    is listed as a minimal dependency, and [covered_deps] only receives
    what the minimal dependencies themselves list or cover, which is
    nothing here. *)
Theorem C1_scenario_closure pool (A B C : FileId) :
  A ≠ B → A ≠ C → B ≠ C →
  dependency (pool A) = [B; C] ∨ dependency (pool A) = [C; B] →
  dependency (pool B) = [] →
  dependency (pool C) = [B] →
  FileContainsExtensions (pool B) = true →
  FileContainsExtensions (pool C) = false →
  ∀ fuel, 3 ≤ fuel →
  ∃ entry cache,
    CollectMinimalFileDepsContainingExtensionsInternal pool fuel A ∅
      = Some (entry, cache)
    ∧ cache !! A = Some entry
    ∧ min_deps entry = {[B]} ∧ covered_deps entry = ∅.
Proof.
  intros HAB HAC HBC HdA HdB HdC HeB HeC fuel Hfuel.
  destruct fuel as [|[|[|fuel]]]; try lia.
  set (eB := mkEntry true ∅ ∅).
  set (eC := mkEntry false {[B]} ∅).
  assert (HB : ∀ n c, c !! B = None →
            CollectMinimalFileDepsContainingExtensionsInternal pool (S n) B c
              = Some (eB, <[B := eB]> c)).
  { intros n c Hc. rewrite Internal_miss, HdB by done. simpl.
    unfold cache_insert, make_entry. by rewrite Hc, HeB, HdB. }
  assert (HmC : make_entry pool C (visit_dep B eB no_collectors) = eC).
  { unfold make_entry. rewrite HeC, HdC. simpl.
    by rewrite orb_true_r, !(left_id_L ∅ (∪)), !(right_id_L ∅ (∪)). }
  assert (HA : ∀ acc c, c !! A = None →
            min_deps_collector acc = {[B]} → to_prune acc = ∅ →
            covered_deps_collector acc = ∅ →
            ∃ entry cache,
              Some (cache_insert A (make_entry pool A acc) c)
                = Some (entry, cache)
              ∧ cache !! A = Some entry
              ∧ min_deps entry = {[B]} ∧ covered_deps entry = ∅).
  { intros acc c Hc Hmin Hprune Hcov. unfold cache_insert. rewrite Hc.
    eexists _, _. split; [done|]. rewrite lookup_insert_eq.
    split; [done|]. unfold make_entry.
    rewrite Hprune, bool_decide_eq_true_2 by done. by simpl. }
  rewrite Internal_miss by apply lookup_empty.
  destruct HdA as [HdA|HdA]; rewrite HdA.
  - rewrite deps_loop_cons, HB by apply lookup_empty.
    rewrite deps_loop_cons, Internal_miss, HdC by (by rewrite lookup_insert_ne).
    rewrite deps_loop_cons, (Internal_hit _ _ _ _ eB), deps_loop_nil, HmC
      by (by rewrite lookup_insert_eq).
    unfold cache_insert at 1. rewrite lookup_insert_ne, lookup_empty by done.
    rewrite deps_loop_nil. apply HA; [|by tidy_sets..].
    by rewrite !lookup_insert_ne, lookup_empty.
  - rewrite deps_loop_cons, Internal_miss, HdC by apply lookup_empty.
    rewrite deps_loop_cons, HB, deps_loop_nil, HmC by apply lookup_empty.
    unfold cache_insert at 1. rewrite lookup_insert_ne, lookup_empty by done.
    rewrite deps_loop_cons, (Internal_hit _ _ _ _ eB), deps_loop_nil
      by (by rewrite lookup_insert_ne, lookup_insert_eq).
    apply HA; [|by tidy_sets..].
    by rewrite !lookup_insert_ne, lookup_empty.
Qed.

Lemma C1_scenario_closure_witness :
  ∃ entry cache,
    CollectMinimalFileDepsContainingExtensionsInternal
      Scenario.pool 3 Scenario.A ∅ = Some (entry, cache)
    ∧ cache !! Scenario.A = Some entry
    ∧ min_deps entry = {[Scenario.B]} ∧ covered_deps entry = ∅.
Proof.
  apply (C1_scenario_closure Scenario.pool Scenario.A Scenario.B Scenario.C);
    [discriminate | discriminate | discriminate
    | left; reflexivity | reflexivity | reflexivity
    | reflexivity | reflexivity | lia].
Defined.

(** C1 as the specification states it fails: in the scenario the closure of
    [A] is computed, its [min_deps] is [{B}], and [B] is not a member of
    its [covered_deps]. *)
Lemma C1_covered_deps_counterexample :
  ∃ entry cache,
    CollectMinimalFileDepsContainingExtensionsInternal
      Scenario.pool 3 Scenario.A ∅ = Some (entry, cache)
    ∧ min_deps entry = {[Scenario.B]}
    ∧ ¬ ({[Scenario.B]} ⊆ covered_deps entry).
Proof.
  eexists _, _. split; [vm_compute; reflexivity|].
  split; [by vm_compute|].
  intros Hsub.
  assert (Scenario.B ∈ ({[Scenario.B]} : gset FileId)) as Hin
    by (by apply elem_of_singleton).
  apply Hsub in Hin. by vm_compute in Hin.
Qed.

(** ** Running the generator on an acyclic import graph *)

Section Runs.
Variable pool : FileId → FileDescriptor.
Variable iteration_order : gset FileId → list FileId.
Variable rank : FileId → nat.
Hypothesis rank_decreases :
  ∀ file dep, dep ∈ dependency (pool file) → rank dep < rank file.

Lemma generate_files_agrees fuel files cache :
  (∀ file, file ∈ files → rank file < fuel) →
  cache_agrees pool rank cache →
  ∃ cache', generate_files pool iteration_order fuel files cache = Some cache'
            ∧ cache_agrees pool rank cache'.
Proof.
  revert cache. induction files as [|file files IH]; intros cache Hlt Hok.
  - by exists cache.
  - simpl. unfold CollectMinimalFileDepsContainingExtensions.
    destruct (Internal_agrees pool rank rank_decreases fuel file cache)
      as (cache1 & -> & Hok1 & _); [apply Hlt; left|done|].
    apply IH; [|done]. intros f Hf. apply Hlt. by right.
Qed.

Lemma rank_bound (files : list FileId) :
  ∃ bound, ∀ file, file ∈ files → rank file < bound.
Proof.
  induction files as [|file files [bound IH]].
  - exists 0. intros file Hin. by inversion Hin.
  - exists (S (max (rank file) bound)). intros f Hin.
    apply elem_of_cons in Hin as [->|Hin]; [lia|].
    apply IH in Hin. lia.
Qed.

(** Whatever files were generated before, the call for [file] returns the
    entry of [file] and leaves it in the memo table. *)
Lemma closure_after earlier file :
  ∃ bound, ∀ fuel, bound ≤ fuel →
    ∃ cache0 cache,
      generate_files pool iteration_order fuel earlier ∅ = Some cache0
      ∧ CollectMinimalFileDepsContainingExtensionsInternal
          pool fuel file cache0 = Some (entry_of pool rank file, cache)
      ∧ cache !! file = Some (entry_of pool rank file)
      ∧ cache_agrees pool rank cache.
Proof.
  destruct (rank_bound (file :: earlier)) as [bound Hbound].
  exists bound. intros fuel Hfuel.
  destruct (generate_files_agrees fuel earlier ∅) as (cache0 & Hrun & Hok0).
  { intros f Hf. assert (rank f < bound) by (apply Hbound; by right). lia. }
  { apply cache_agrees_empty. }
  destruct (Internal_agrees pool rank rank_decreases fuel file cache0)
    as (cache & Hcall & Hok & Hlook & _); [|done|].
  { assert (rank file < bound) by (apply Hbound; left). lia. }
  by exists cache0, cache.
Qed.

End Runs.

(** C2.  On an acyclic import graph, for every file [F] (and whatever files
    were generated earlier with the same memo table), the call for [F]
    returns, the entry it returns is the one cached for [F], and no member
    of its [min_deps] is reached from a member of that set by following
    cached [min_deps].  All three ways of building the entry are covered:
    pruning, and the fast path taken when the prune set is empty or when
    [F] has exactly one dependency. *)
Theorem C2_min_deps_transitively_reduced pool iteration_order :
  acyclic pool →
  ∀ earlier F,
  ∃ bound, ∀ fuel, bound ≤ fuel →
    ∃ cache0 entry cache,
      generate_files pool iteration_order fuel earlier ∅ = Some cache0
      ∧ CollectMinimalFileDepsContainingExtensionsInternal pool fuel F cache0
          = Some (entry, cache)
      ∧ cache !! F = Some entry
      ∧ transitively_reduced cache entry.
Proof.
  intros [rank Hrank] earlier F.
  destruct (closure_after pool iteration_order rank Hrank earlier F)
    as [bound Hrun].
  exists bound. intros fuel Hfuel.
  destruct (Hrun fuel Hfuel) as (cache0 & cache & Hgen & Hcall & Hlook & Hok).
  exists cache0, (entry_of pool rank F), cache. repeat split; try done.
  by apply entry_of_reduced.
Qed.

(** C10.  The [has_extensions] flag cached for a file is [true] exactly
    when the file declares an extension at its root or in one of its
    messages, however deeply that message is nested. *)
Theorem C10_has_extensions_flag pool iteration_order :
  acyclic pool →
  ∀ earlier F,
  ∃ bound, ∀ fuel, bound ≤ fuel →
    ∃ cache0 entry cache,
      generate_files pool iteration_order fuel earlier ∅ = Some cache0
      ∧ CollectMinimalFileDepsContainingExtensionsInternal pool fuel F cache0
          = Some (entry, cache)
      ∧ cache !! F = Some entry
      ∧ (has_extensions entry = true ↔ declares_extension (pool F)).
Proof.
  intros [rank Hrank] earlier F.
  destruct (closure_after pool iteration_order rank Hrank earlier F)
    as [bound Hrun].
  exists bound. intros fuel Hfuel.
  destruct (Hrun fuel Hfuel) as (cache0 & cache & Hgen & Hcall & Hlook & Hok).
  exists cache0, (entry_of pool rank F), cache. repeat split; try done.
  - rewrite has_extensions_entry_of by done. apply FileContainsExtensions_iff.
  - rewrite has_extensions_entry_of by done. apply FileContainsExtensions_iff.
Qed.

(** ** Sorting by file name *)

Lemma String_compare_as_OT (s1 s2 : string) :
  String.compare s1 s2 = String_as_OT.compare s1 s2.
Proof.
  revert s2. induction s1 as [|c1 s1 IH]; intros [|c2 s2]; simpl;
    [done..|by rewrite IH].
Qed.

Lemma String_ltb_lt (s1 s2 : string) :
  String.ltb s1 s2 = true ↔ String_as_OT.lt s1 s2.
Proof.
  unfold String.ltb, String_as_OT.lt. rewrite String_compare_as_OT.
  destruct (String_as_OT.compare s1 s2); split; congruence.
Qed.

Lemma String_ltb_trans (s1 s2 s3 : string) :
  String.ltb s1 s2 = true → String.ltb s2 s3 = true → String.ltb s1 s3 = true.
Proof.
  rewrite !String_ltb_lt. apply (StrictOrder_Transitive (R := String_as_OT.lt)).
Qed.

Lemma String_ltb_irrefl (s : string) : String.ltb s s = false.
Proof.
  destruct (String.ltb s s) eqn:Hlt; [|done].
  apply String_ltb_lt in Hlt.
  by apply (StrictOrder_Irreflexive (R := String_as_OT.lt)) in Hlt.
Qed.

Lemma String_ltb_total (s1 s2 : string) :
  s1 ≠ s2 → String.ltb s1 s2 = false → String.ltb s2 s1 = true.
Proof.
  intros Hne Hnlt. apply String_ltb_lt.
  destruct (String_as_OT.compare_spec s1 s2) as [Heq|Hlt|Hgt]; [done| |done].
  apply String_ltb_lt in Hlt. congruence.
Qed.

Section ByName.
Variable pool : FileId → FileDescriptor.
Variable files : list FileId.
Hypothesis names_unique : NoDup (map (λ file, name (pool file)) files).

Lemma name_inj a b :
  a ∈ files → b ∈ files → name (pool a) = name (pool b) → a = b.
Proof.
  clear -names_unique. induction files as [|f fs IH]; intros Ha Hb Heq.
  - by inversion Ha.
  - simpl in names_unique. apply NoDup_cons in names_unique as [Hf Hfs].
    apply elem_of_cons in Ha as [->|Ha]; apply elem_of_cons in Hb as [->|Hb];
      try done.
    + exfalso. apply Hf. rewrite Heq. apply list_elem_of_In.
      apply in_map_iff. exists b. by rewrite <- list_elem_of_In.
    + exfalso. apply Hf. rewrite <- Heq. apply list_elem_of_In.
      apply in_map_iff. exists a. by rewrite <- list_elem_of_In.
    + by apply IH.
Qed.

(** Any enumeration of a set of files of the pool sorts to the same
    list, which ascends strictly by name. *)
Lemma sort_by_name (l : list FileId) (s : gset FileId) :
  (∀ x, x ∈ s → x ∈ files) → l ≡ₚ elements s →
  let result := std_sort (FileDescriptorsOrderedByName pool) l in
  StronglySorted (λ a b, FileDescriptorsOrderedByName pool a b = true) result
  ∧ result ≡ₚ elements s
  ∧ result = std_sort (FileDescriptorsOrderedByName pool) (elements s).
Proof.
  intros Hfiles Hperm result.
  assert (∀ l', l' ≡ₚ elements s →
    StronglySorted (λ a b, FileDescriptorsOrderedByName pool a b = true)
      (std_sort (FileDescriptorsOrderedByName pool) l')) as Hsorted.
  { intros l' Hl'. apply std_sort_sorted.
    - intros x y z. apply String_ltb_trans.
    - intros x y Hx Hy Hne. apply String_ltb_total. intros Heq.
      apply Hne, name_inj; [..|done]; apply Hfiles, elem_of_elements;
        by rewrite <- Hl'.
    - rewrite Hl'. apply NoDup_elements. }
  split; [by apply Hsorted|]. split.
  { subst result. by rewrite std_sort_Permutation. }
  apply (StronglySorted_unique_strong
           (λ a b, FileDescriptorsOrderedByName pool a b = true)).
  - intros x1 x2 _ _ H12 H21. exfalso.
    pose proof (String_ltb_trans _ _ _ H12 H21) as Hxx.
    by rewrite String_ltb_irrefl in Hxx.
  - by apply Hsorted.
  - by apply Hsorted.
  - subst result. by rewrite !std_sort_Permutation.
Qed.

End ByName.

Section PoolFiles.
Variable pool : FileId → FileDescriptor.
Variable rank : FileId → nat.
Hypothesis rank_decreases :
  ∀ file dep, dep ∈ dependency (pool file) → rank dep < rank file.
Variable files : list FileId.
Hypothesis files_closed :
  Forall (λ file, Forall (λ dep, dep ∈ files) (dependency (pool file))) files.

Lemma min_deps_in_files file m :
  file ∈ files → m ∈ min_deps (entry_of pool rank file) → m ∈ files.
Proof.
  remember (rank file) as n eqn:Hn. revert file m Hn.
  induction n as [n IH] using lt_wf_ind. intros file m -> Hfile Hm.
  apply min_deps_origin in Hm as (dep & Hdep & Hm); [|done].
  assert (dep ∈ files) as Hdepfile.
  { rewrite Forall_forall in files_closed.
    specialize (files_closed file Hfile). rewrite Forall_forall in files_closed.
    by apply files_closed. }
  destruct (has_extensions (entry_of pool rank dep)); [by subst|].
  eapply (IH (rank dep)); [by apply rank_decreases|done..].
Qed.

End PoolFiles.

(** C9.  The list returned by [CollectMinimalFileDepsContainingExtensions]
    for a file has exactly the members of the [min_deps] cached for that
    file, in strictly ascending order of file name, and it is the same list
    whatever order the hash set enumerates its members in.  The files are
    those of a descriptor pool: closed under imports, acyclic, and with
    pairwise distinct names. *)
Theorem C9_result_sorted_by_name pool iteration_order files :
  acyclic pool →
  (∀ s, iteration_order s ≡ₚ elements s) →
  Forall (λ file, Forall (λ dep, dep ∈ files) (dependency (pool file))) files →
  NoDup (map (λ file, name (pool file)) files) →
  ∀ earlier F, F ∈ files →
  ∃ bound, ∀ fuel, bound ≤ fuel →
    ∃ cache0 result cache entry,
      generate_files pool iteration_order fuel earlier ∅ = Some cache0
      ∧ CollectMinimalFileDepsContainingExtensions
          pool iteration_order fuel F cache0 = Some (result, cache)
      ∧ cache !! F = Some entry
      ∧ result ≡ₚ elements (min_deps entry)
      ∧ StronglySorted
          (λ a b, FileDescriptorsOrderedByName pool a b = true) result
      ∧ result = std_sort (FileDescriptorsOrderedByName pool)
                          (elements (min_deps entry)).
Proof.
  intros [rank Hrank] Hiter Hclosed Hnames earlier F HF.
  destruct (closure_after pool iteration_order rank Hrank earlier F)
    as [bound Hrun].
  exists bound. intros fuel Hfuel.
  destruct (Hrun fuel Hfuel) as (cache0 & cache & Hgen & Hcall & Hlook & Hok).
  destruct (sort_by_name pool files Hnames
              (iteration_order (min_deps (entry_of pool rank F)))
              (min_deps (entry_of pool rank F)))
    as (Hsorted & Hperm & Hcanon); [|by apply Hiter|].
  { intros x Hx. by eapply min_deps_in_files. }
  eexists cache0, _, cache, (entry_of pool rank F).
  split; [done|]. split.
  { unfold CollectMinimalFileDepsContainingExtensions. by rewrite Hcall. }
  by repeat split.
Qed.

(** ** The theorems at concrete import graphs *)

Lemma Scenario_acyclic : acyclic Scenario.pool.
Proof.
  exists Scenario.rank. intros file dep Hdep.
  destruct file as [|[|[|file]]]; simpl in Hdep; list_cases Hdep;
    simpl; lia.
Qed.

Lemma Diamond_acyclic : acyclic Diamond.pool.
Proof.
  exists Diamond.rank. intros file dep Hdep.
  destruct file as [|[|[|[|[|file]]]]]; simpl in Hdep; list_cases Hdep;
    simpl; lia.
Qed.

(** The three ways of building an entry, on the diamond: [mid] and [left]
    take the fast path with an empty prune set, [right] takes it with one
    dependency and a prune set that is not empty, and [top] prunes [base],
    which [mid] already lists. *)
Example Diamond_entries :
  ∃ cache,
    CollectMinimalFileDepsContainingExtensionsInternal
      Diamond.pool 4 Diamond.top ∅
    = Some (mkEntry false {[Diamond.mid]} {[Diamond.base]}, cache)
    ∧ cache !! Diamond.right
      = Some (mkEntry false {[Diamond.mid]} {[Diamond.base]})
    ∧ cache !! Diamond.left = Some (mkEntry false {[Diamond.base]} ∅)
    ∧ cache !! Diamond.mid = Some (mkEntry true {[Diamond.base]} ∅)
    ∧ cache !! Diamond.base = Some (mkEntry true ∅ ∅).
Proof.
  eexists. split; [by vm_compute|]. by vm_compute.
Qed.

Lemma C2_min_deps_transitively_reduced_witness :
  ∃ bound, ∀ fuel, bound ≤ fuel →
    ∃ cache0 entry cache,
      generate_files Diamond.pool elements fuel [Diamond.right] ∅ = Some cache0
      ∧ CollectMinimalFileDepsContainingExtensionsInternal
          Diamond.pool fuel Diamond.top cache0 = Some (entry, cache)
      ∧ cache !! Diamond.top = Some entry
      ∧ transitively_reduced cache entry.
Proof.
  apply (C2_min_deps_transitively_reduced Diamond.pool elements
           Diamond_acyclic [Diamond.right] Diamond.top).
Defined.

Lemma C10_has_extensions_flag_witness :
  ∃ bound, ∀ fuel, bound ≤ fuel →
    ∃ cache0 entry cache,
      generate_files Scenario.pool elements fuel [Scenario.C] ∅ = Some cache0
      ∧ CollectMinimalFileDepsContainingExtensionsInternal
          Scenario.pool fuel Scenario.B cache0 = Some (entry, cache)
      ∧ cache !! Scenario.B = Some entry
      ∧ (has_extensions entry = true ↔ declares_extension (Scenario.pool Scenario.B)).
Proof.
  apply (C10_has_extensions_flag Scenario.pool elements
           Scenario_acyclic [Scenario.C] Scenario.B).
Defined.

Lemma Fan_acyclic : acyclic Fan.pool.
Proof.
  exists Fan.rank. intros file dep Hdep.
  destruct file as [|[|[|[|[|file]]]]]; simpl in Hdep; list_cases Hdep;
    simpl; lia.
Qed.

Lemma C9_result_sorted_by_name_witness :
  ∃ bound, ∀ fuel, bound ≤ fuel →
    ∃ cache0 result cache entry,
      generate_files Fan.pool (λ s, reverse (elements s)) fuel
        [Fan.hub] ∅ = Some cache0
      ∧ CollectMinimalFileDepsContainingExtensions
          Fan.pool (λ s, reverse (elements s)) fuel Fan.root cache0
          = Some (result, cache)
      ∧ cache !! Fan.root = Some entry
      ∧ result ≡ₚ elements (min_deps entry)
      ∧ StronglySorted
          (λ a b, FileDescriptorsOrderedByName Fan.pool a b = true) result
      ∧ result = std_sort (FileDescriptorsOrderedByName Fan.pool)
                          (elements (min_deps entry)).
Proof.
  apply (C9_result_sorted_by_name Fan.pool (λ s, reverse (elements s))
           Fan.files Fan_acyclic).
  - intros s. apply reverse_Permutation.
  - apply (bool_decide_unpack _). by vm_compute.
  - apply (bool_decide_unpack _). by vm_compute.
  - apply (bool_decide_unpack _). by vm_compute.
Defined.

(** The run behind the lemma above: the minimal dependencies of [root] are
    [zeta], [mu] and [alpha]; the reversed enumeration used there visits
    them as [zeta; mu; alpha], descending by name, and the list returned
    is [alpha; mu; zeta], ascending by name; it is the same list for the
    set's own enumeration and for a rotation of it. *)
Example Fan_result :
  reverse (elements (min_deps (closure Fan.pool 3 Fan.root)))
  = [Fan.zeta; Fan.mu; Fan.alpha]
  ∧ option_map fst
      (CollectMinimalFileDepsContainingExtensions Fan.pool elements 3
         Fan.root ∅)
    = Some [Fan.alpha; Fan.mu; Fan.zeta]
  ∧ option_map fst
      (CollectMinimalFileDepsContainingExtensions Fan.pool
         (λ s, reverse (elements s)) 3 Fan.root ∅)
    = Some [Fan.alpha; Fan.mu; Fan.zeta]
  ∧ option_map fst
      (CollectMinimalFileDepsContainingExtensions Fan.pool
         (λ s, rotate 1 (elements s)) 3 Fan.root ∅)
    = Some [Fan.alpha; Fan.mu; Fan.zeta].
Proof. by vm_compute. Qed.

(** ** The memo table under a call *)

Section Memo.
Variable pool : FileId → FileDescriptor.

Local Abbreviation Internal :=
  (CollectMinimalFileDepsContainingExtensionsInternal pool).

Lemma cache_insert_stored file entry cache stored cache' :
  cache_insert file entry cache = (stored, cache') →
  cache ⊆ cache' ∧ cache' !! file = Some stored.
Proof.
  unfold cache_insert. destruct (cache !! file) as [old|] eqn:Hlook.
  - intros [= <- <-]. done.
  - intros [= <- <-]. split; [by apply insert_subseteq|apply lookup_insert_eq].
Qed.

Lemma deps_loop_grows {rec : FileId → gmap FileId MinDepsEntry →
                             option (MinDepsEntry * gmap FileId MinDepsEntry)} :
  (∀ dep cache entry cache',
     rec dep cache = Some (entry, cache') →
     cache ⊆ cache' ∧ cache' !! dep = Some entry) →
  ∀ deps acc cache acc' cache',
    deps_loop rec deps acc cache = Some (acc', cache') →
    cache ⊆ cache' ∧ ∀ dep, dep ∈ deps → is_Some (cache' !! dep).
Proof.
  intros Hrec deps. induction deps as [|d deps IH];
    intros acc cache acc' cache'; simpl.
  - intros [= <- <-]. split; [done|]. intros dep Hin. by inversion Hin.
  - destruct (rec d cache) as [[dep_info cache1]|] eqn:Hd; [|done].
    intros Hloop. apply Hrec in Hd as [Hsub1 Hlook1].
    apply IH in Hloop as [Hsub2 Hdeps]. split; [by etrans|].
    intros dep Hin. apply elem_of_cons in Hin as [->|Hin]; [|by apply Hdeps].
    exists dep_info. by eapply lookup_weaken.
Qed.

Lemma Internal_grows fuel file cache entry cache' :
  Internal fuel file cache = Some (entry, cache') →
  cache ⊆ cache' ∧ cache' !! file = Some entry.
Proof.
  revert file cache entry cache'.
  induction fuel as [|fuel IH]; intros file cache entry cache'; [done|].
  simpl. destruct (cache !! file) as [hit|] eqn:Hlook.
  - intros [= <- <-]. done.
  - destruct (deps_loop _ _ _ _) as [[acc cache1]|] eqn:Hloop; [|done].
    intros [= Hins]. apply (deps_loop_grows IH) in Hloop as [Hsub1 _].
    apply cache_insert_stored in Hins as [Hsub2 Hstored].
    split; [by etrans|done].
Qed.

Lemma Internal_closed fuel file cache entry cache' :
  cache_closed pool cache →
  Internal fuel file cache = Some (entry, cache') →
  cache_closed pool cache'.
Proof.
  revert file cache entry cache'.
  induction fuel as [|fuel IH]; intros file cache entry cache' Hclosed; [done|].
  simpl. destruct (cache !! file) as [hit|] eqn:Hlook.
  - intros [= <- <-]. done.
  - destruct (deps_loop _ _ _ _) as [[acc cache1]|] eqn:Hloop; [|done].
    intros [= Hins].
    assert (cache_closed pool cache1 ∧
            ∀ dep, dep ∈ dependency (pool file) → is_Some (cache1 !! dep))
      as [Hclosed1 Hdeps].
    { clear Hins Hlook. revert Hloop Hclosed.
      generalize (dependency (pool file)) no_collectors cache.
      intros deps. induction deps as [|d deps IHdeps]; intros acc0 c0; simpl.
      - intros [= <- <-] Hc. split; [done|]. intros dep Hin. by inversion Hin.
      - destruct (Internal fuel d c0) as [[dep_info c1]|] eqn:Hd; [|done].
        intros Hloop Hc. pose proof (IH _ _ _ _ Hc Hd) as Hc1.
        apply Internal_grows in Hd as [_ Hlook1].
        pose proof (deps_loop_grows (Internal_grows fuel) _ _ _ _ _ Hloop)
          as [Hsub _].
        destruct (IHdeps _ _ Hloop Hc1) as [Hc2 Hdeps]. split; [done|].
        intros dep Hin. apply elem_of_cons in Hin as [->|Hin];
          [|by apply Hdeps].
        exists dep_info. by eapply lookup_weaken. }
    unfold cache_insert in Hins.
    destruct (cache1 !! file) as [old|] eqn:Hlook1.
    + by injection Hins as <- <-.
    + injection Hins as <- <-. intros g eg dep Hg Hdep.
      assert (is_Some (cache1 !! dep)) as [edep Hedep].
      { apply lookup_insert_Some in Hg as [[<- _]|[_ Hg]];
          [by apply Hdeps|by eapply Hclosed1]. }
      destruct (decide (file = dep)) as [->|Hne].
      * rewrite lookup_insert_eq. by eexists.
      * rewrite lookup_insert_ne by done. by eexists.
Qed.

End Memo.

(** X1.  A call that returned leaves its answer in the memo table: every
    later call for the same file on that table, with any fuel, is a hit
    that returns the same entry and the table unchanged. *)
Theorem X1_second_call_is_a_hit pool fuel file cache entry cache' :
  CollectMinimalFileDepsContainingExtensionsInternal pool fuel file cache
    = Some (entry, cache') →
  ∀ fuel',
    CollectMinimalFileDepsContainingExtensionsInternal
      pool (S fuel') file cache' = Some (entry, cache').
Proof.
  intros Hcall fuel'. apply Internal_grows in Hcall as [_ Hlook].
  by apply Internal_hit.
Qed.

(** X2.  A call never changes or drops an entry that is already in the
    memo table, on any import graph. *)
Theorem X2_entries_are_kept pool fuel file cache entry cache' :
  CollectMinimalFileDepsContainingExtensionsInternal pool fuel file cache
    = Some (entry, cache') →
  ∀ other old, cache !! other = Some old → cache' !! other = Some old.
Proof.
  intros Hcall other old Hold. apply Internal_grows in Hcall as [Hsub _].
  by eapply lookup_weaken.
Qed.

(** ** What the entries list and cover *)

Section Coverage.
Variable pool : FileId → FileDescriptor.
Variable rank : FileId → nat.
Hypothesis rank_decreases :
  ∀ file dep, dep ∈ dependency (pool file) → rank dep < rank file.

Local Abbreviation entry_of := (ObjC.entry_of pool rank).
Local Abbreviation collected := (ObjC.collected pool rank).
Local Abbreviation cache_agrees := (ObjC.cache_agrees pool rank).

Lemma covered_origin file x :
  x ∈ covered_deps (entry_of file) →
  ∃ dep, dep ∈ dependency (pool file) ∧
    (x ∈ covered_deps (entry_of dep) ∨
     (has_extensions (entry_of dep) = true ∧ x ∈ min_deps (entry_of dep))).
Proof.
  rewrite covered_entry_of by done. unfold ObjC.collected.
  intros Hx. apply collect_covered in Hx as [Hx|Hx]; [|done].
  by apply not_elem_of_empty in Hx.
Qed.

Lemma imports_trans file dep x :
  imports pool file dep → imports pool dep x → imports pool file x.
Proof.
  induction 1 as [file dep Hdep|file dep y Hdep _ IH]; intros Hx.
  - by eapply imports_through.
  - eapply imports_through; [done|]. by apply IH.
Qed.

(** Members of [min_deps] and of [covered_deps] are imports of the file
    that contain extensions. *)
Lemma members_import_extensions file x :
  x ∈ min_deps (entry_of file) ∨ x ∈ covered_deps (entry_of file) →
  imports pool file x ∧ FileContainsExtensions (pool x) = true.
Proof.
  remember (rank file) as n eqn:Hn. revert file x Hn.
  induction n as [n IH] using lt_wf_ind. intros file x -> Hx.
  assert (∀ dep y, dep ∈ dependency (pool file) →
            y ∈ min_deps (entry_of dep) ∨ y ∈ covered_deps (entry_of dep) →
            imports pool file y ∧ FileContainsExtensions (pool y) = true)
    as Hdeps.
  { intros dep y Hdep Hy.
    destruct (IH (rank dep) (rank_decreases _ _ Hdep) dep y eq_refl Hy)
      as [Himp Hext].
    split; [by eapply imports_through|done]. }
  destruct Hx as [Hx|Hx].
  - apply min_deps_origin in Hx as (dep & Hdep & Hx); [|done].
    destruct (has_extensions (entry_of dep)) eqn:Hext.
    + subst x. rewrite has_extensions_entry_of in Hext by done.
      split; [by constructor|done].
    + apply (Hdeps dep); [done|by left].
  - apply covered_origin in Hx as (dep & Hdep & [Hx|[_ Hx]]).
    + apply (Hdeps dep); [done|by right].
    + apply (Hdeps dep); [done|by left].
Qed.

Lemma min_collector_rank file q :
  q ∈ min_deps_collector (collected file) → rank q < rank file.
Proof.
  unfold ObjC.collected. intros Hq.
  apply collect_min in Hq as [Hq|(dep & Hdep & Hq)];
    [by apply not_elem_of_empty in Hq|].
  pose proof (rank_decreases _ _ Hdep).
  destruct (has_extensions (entry_of dep)); [by subst|].
  apply min_deps_rank in Hq; [lia|done].
Qed.

(** A collected file is kept in [min_deps] unless it is in the prune
    set. *)
Lemma min_collector_kept_or_pruned file q :
  q ∈ min_deps_collector (collected file) →
  q ∈ min_deps (entry_of file) ∨ q ∈ to_prune (collected file).
Proof.
  intros Hq. rewrite entry_of_unfold by done. unfold make_entry.
  destruct (_ || _); simpl; [by left|].
  destruct (decide (q ∈ to_prune (collected file))) as [Hin|Hnot];
    [by right|left].
  by apply elem_of_filter.
Qed.

(** No file is both listed and covered. *)
Lemma min_deps_not_covered file x :
  x ∈ min_deps (entry_of file) → x ∈ covered_deps (entry_of file) → False.
Proof.
  remember (rank file) as n eqn:Hn. revert file x Hn.
  induction n as [n IH] using lt_wf_ind. intros file x ->.
  rewrite covered_entry_of, <- collected_prune by done.
  rewrite entry_of_unfold by done. unfold make_entry.
  destruct (bool_decide (to_prune (collected file) = ∅)) eqn:Hempty; simpl.
  { apply bool_decide_eq_true in Hempty. rewrite Hempty.
    intros _ Hx. by apply not_elem_of_empty in Hx. }
  destruct (length (dependency (pool file)) =? 1) eqn:Hone; simpl.
  - apply Nat.eqb_eq in Hone.
    destruct (dependency (pool file)) as [|dep [|? ?]] eqn:Hdeps;
      try discriminate.
    unfold ObjC.collected. rewrite Hdeps. simpl. unfold visit_dep.
    assert (rank dep < rank file) as Hlt.
    { apply rank_decreases. rewrite Hdeps. left. }
    destruct (has_extensions (entry_of dep)); simpl.
    + rewrite (right_id_L ∅ (∪)), !(left_id_L ∅ (∪)).
      intros Hx%elem_of_singleton Hcov. subst x.
      assert (imports pool dep dep) as Hself.
      { apply (members_import_extensions dep dep).
        apply elem_of_union in Hcov as [Hcov|Hcov]; [by right|by left]. }
      clear -Hself rank_decreases.
      assert (∀ a b, imports pool a b → rank b < rank a) as Himp.
      { induction 1 as [a b Hb|a b c Hb _ IH].
        - by apply rank_decreases.
        - apply rank_decreases in Hb. lia. }
      apply Himp in Hself. lia.
    + rewrite !(left_id_L ∅ (∪)). intros Hx Hcov.
      by apply (IH (rank dep) Hlt dep x eq_refl).
  - intros Hx%elem_of_filter Hcov. by destruct Hx.
Qed.

Section Reached.
Variable cache : gmap FileId MinDepsEntry.
Hypothesis agrees : cache_agrees cache.
Hypothesis closed : cache_closed pool cache.

Lemma min_chain_trans a b c :
  min_chain cache a b → min_chain cache b c → min_chain cache a c.
Proof.
  induction 1 as [a entry b Hlook Hb|a entry y b Hlook Hy _ IH]; intros Hbc.
  - by eapply min_chain_more.
  - eapply min_chain_more; [done..|]. by apply IH.
Qed.

Lemma dependency_cached file dep :
  is_Some (cache !! file) → dep ∈ dependency (pool file) →
  cache !! dep = Some (entry_of dep).
Proof.
  intros [entry Hfile] Hdep.
  destruct (closed file entry dep Hfile Hdep) as [edep Hedep].
  by rewrite Hedep, (agrees _ _ Hedep).
Qed.

(** What the loop puts in the covered set is on the chain of something it
    puts in the collected set, once this holds of the dependencies. *)
Lemma covered_collector_reached file x :
  is_Some (cache !! file) →
  (∀ dep y, dep ∈ dependency (pool file) →
     y ∈ covered_deps (entry_of dep) →
     ∃ m, m ∈ min_deps (entry_of dep) ∧ min_chain cache m y) →
  x ∈ covered_deps_collector (collected file) →
  ∃ q, q ∈ min_deps_collector (collected file) ∧ min_chain cache q x.
Proof.
  intros Hfile Hdeps Hx. unfold ObjC.collected in *.
  apply collect_covered in Hx as [Hx|(dep & Hdep & Hx)];
    [by apply not_elem_of_empty in Hx|].
  pose proof (dependency_cached file dep Hfile Hdep) as Hcached.
  destruct (has_extensions (entry_of dep)) eqn:Hext.
  - exists dep. split.
    { apply collect_min. right. exists dep. by rewrite Hext. }
    destruct Hx as [Hx|[_ Hx]].
    + destruct (Hdeps dep x Hdep Hx) as (m & Hm & Hchain).
      by eapply min_chain_more.
    + by eapply min_chain_one.
  - destruct Hx as [Hx|[? _]]; [|done].
    destruct (Hdeps dep x Hdep Hx) as (m & Hm & Hchain).
    exists m. split; [|done].
    apply collect_min. right. exists dep. by rewrite Hext.
Qed.

(** A collected file is listed, or on the chain of a listed file. *)
Lemma min_collector_reached file :
  is_Some (cache !! file) →
  (∀ dep y, dep ∈ dependency (pool file) →
     y ∈ covered_deps (entry_of dep) →
     ∃ m, m ∈ min_deps (entry_of dep) ∧ min_chain cache m y) →
  ∀ q, q ∈ min_deps_collector (collected file) →
    q ∈ min_deps (entry_of file) ∨
    ∃ m, m ∈ min_deps (entry_of file) ∧ min_chain cache m q.
Proof.
  intros Hfile Hdeps q.
  remember (rank file - rank q) as k eqn:Hk. revert q Hk.
  induction k as [k IH] using lt_wf_ind. intros q -> Hq.
  destruct (min_collector_kept_or_pruned file q Hq) as [Hkept|Hpruned];
    [by left|right].
  rewrite collected_prune in Hpruned.
  destruct (covered_collector_reached file q Hfile Hdeps Hpruned)
    as (q' & Hq' & Hchain).
  pose proof (min_chain_rank pool rank rank_decreases cache agrees _ _ Hchain).
  pose proof (min_collector_rank file q' Hq').
  pose proof (min_collector_rank file q Hq).
  destruct (IH (rank file - rank q') ltac:(lia) q' eq_refl Hq')
    as [Hlisted|(m & Hm & Hmq')].
  - by exists q'.
  - exists m. split; [done|]. by eapply min_chain_trans.
Qed.

(** What an entry covers is on the chain of something it lists. *)
Lemma covered_reached file x :
  is_Some (cache !! file) →
  x ∈ covered_deps (entry_of file) →
  ∃ m, m ∈ min_deps (entry_of file) ∧ min_chain cache m x.
Proof.
  remember (rank file) as n eqn:Hn. revert file x Hn.
  induction n as [n IH] using lt_wf_ind. intros file x -> Hfile Hx.
  assert (∀ dep y, dep ∈ dependency (pool file) →
            y ∈ covered_deps (entry_of dep) →
            ∃ m, m ∈ min_deps (entry_of dep) ∧ min_chain cache m y) as Hdeps.
  { intros dep y Hdep Hy.
    apply (IH (rank dep) (rank_decreases _ _ Hdep) dep y eq_refl); [|done].
    rewrite (dependency_cached file dep Hfile Hdep). by eexists. }
  rewrite covered_entry_of in Hx by done.
  destruct (covered_collector_reached file x Hfile Hdeps Hx)
    as (q & Hq & Hchain).
  destruct (min_collector_reached file Hfile Hdeps q Hq)
    as [Hlisted|(m & Hm & Hmq)].
  - by exists q.
  - exists m. split; [done|]. by eapply min_chain_trans.
Qed.

(** Every import that contains extensions is listed or covered. *)
Lemma imports_listed_or_covered file x :
  is_Some (cache !! file) →
  imports pool file x → FileContainsExtensions (pool x) = true →
  x ∈ min_deps (entry_of file) ∨ x ∈ covered_deps (entry_of file).
Proof.
  intros Hfile Himp Hext. revert Hfile.
  induction Himp as [file dep Hdep|file dep x Hdep Himp IH]; intros Hfile.
  - assert (dep ∈ min_deps_collector (collected file)) as Hq.
    { unfold ObjC.collected. apply collect_min. right. exists dep.
      split; [done|]. by rewrite has_extensions_entry_of, Hext. }
    destruct (min_collector_kept_or_pruned file dep Hq) as [?|Hpruned];
      [by left|right].
    by rewrite covered_entry_of, <- collected_prune.
  - assert (is_Some (cache !! dep)) as Hdepc
      by (rewrite (dependency_cached file dep Hfile Hdep); by eexists).
    destruct (has_extensions (entry_of dep)) eqn:Hdext.
    + right. apply (covered_from_dep pool rank rank_decreases file dep);
        [done|]. destruct (IH Hext Hdepc); [by right|by left].
    + destruct (IH Hext Hdepc) as [Hmin|Hcov].
      * assert (x ∈ min_deps_collector (collected file)) as Hq.
        { unfold ObjC.collected. apply collect_min. right. exists dep.
          by rewrite Hdext. }
        destruct (min_collector_kept_or_pruned file x Hq) as [?|Hpruned];
          [by left|right].
        by rewrite covered_entry_of, <- collected_prune.
      * right. apply (covered_from_dep pool rank rank_decreases file dep);
          [done|by left].
Qed.

End Reached.

End Coverage.

(** ** Runs that keep the memo table closed *)

Section ClosedRuns.
Variable pool : FileId → FileDescriptor.
Variable iteration_order : gset FileId → list FileId.
Variable rank : FileId → nat.
Hypothesis rank_decreases :
  ∀ file dep, dep ∈ dependency (pool file) → rank dep < rank file.

Lemma generate_files_closed fuel files cache cache' :
  cache_closed pool cache →
  generate_files pool iteration_order fuel files cache = Some cache' →
  cache_closed pool cache'.
Proof.
  revert cache. induction files as [|file files IH]; intros cache Hclosed; simpl.
  - by intros [= <-].
  - unfold CollectMinimalFileDepsContainingExtensions.
    destruct (CollectMinimalFileDepsContainingExtensionsInternal _ _ _ _)
      as [[entry cache1]|] eqn:Hcall; [|done].
    apply IH. by eapply Internal_closed.
Qed.

Lemma cache_closed_empty : cache_closed pool ∅.
Proof. intros file entry dep Hlook. by rewrite lookup_empty in Hlook. Qed.

(** The call for [file], after any earlier calls: it returns the entry of
    the file, which is also the recursion without memo table unfolded
    [fuel] levels, and the table it leaves agrees and is closed. *)
Lemma closure_run earlier file :
  ∃ bound, ∀ fuel, bound ≤ fuel →
    ∃ cache0 cache,
      generate_files pool iteration_order fuel earlier ∅ = Some cache0
      ∧ CollectMinimalFileDepsContainingExtensionsInternal
          pool fuel file cache0 = Some (entry_of pool rank file, cache)
      ∧ cache !! file = Some (entry_of pool rank file)
      ∧ cache_agrees pool rank cache
      ∧ cache_closed pool cache
      ∧ entry_of pool rank file = closure pool fuel file.
Proof.
  destruct (closure_after pool iteration_order rank rank_decreases earlier file)
    as [bound Hrun].
  exists (max bound (S (rank file))). intros fuel Hfuel.
  destruct (Hrun fuel ltac:(lia)) as (cache0 & cache & Hgen & Hcall & Hlook & Hok).
  exists cache0, cache. repeat split; try done.
  - eapply Internal_closed; [|exact Hcall].
    eapply generate_files_closed; [|exact Hgen]. apply cache_closed_empty.
  - unfold entry_of. apply (closure_fuel pool rank rank_decreases); lia.
Qed.

End ClosedRuns.

(** X3.  The memo table is transparent: on an acyclic import graph, and
    whatever files were generated before on the same table, the call for a
    file returns what the recursion computes without any table.  In
    particular the entry of a file does not depend on the order in which
    the files are generated. *)
Theorem X3_memo_is_transparent pool iteration_order :
  acyclic pool →
  ∀ earlier F,
  ∃ bound, ∀ fuel, bound ≤ fuel →
    ∃ cache0 cache,
      generate_files pool iteration_order fuel earlier ∅ = Some cache0
      ∧ CollectMinimalFileDepsContainingExtensionsInternal pool fuel F cache0
          = Some (closure pool fuel F, cache).
Proof.
  intros [rank Hrank] earlier F.
  destruct (closure_run pool iteration_order rank Hrank earlier F)
    as [bound Hrun].
  exists bound. intros fuel Hfuel.
  destruct (Hrun fuel Hfuel)
    as (cache0 & cache & Hgen & Hcall & _ & _ & _ & Heq).
  exists cache0, cache. by rewrite <- Heq.
Qed.

(** X4.  Every member of the [min_deps] and of the [covered_deps] cached
    for a file is a direct or indirect import of that file, and is a file
    that declares extensions. *)
Theorem X4_members_are_imports_with_extensions pool iteration_order :
  acyclic pool →
  ∀ earlier F,
  ∃ bound, ∀ fuel, bound ≤ fuel →
    ∃ cache0 entry cache,
      generate_files pool iteration_order fuel earlier ∅ = Some cache0
      ∧ CollectMinimalFileDepsContainingExtensionsInternal pool fuel F cache0
          = Some (entry, cache)
      ∧ cache !! F = Some entry
      ∧ ∀ x, x ∈ min_deps entry ∨ x ∈ covered_deps entry →
             imports pool F x ∧ declares_extension (pool x).
Proof.
  intros [rank Hrank] earlier F.
  destruct (closure_run pool iteration_order rank Hrank earlier F)
    as [bound Hrun].
  exists bound. intros fuel Hfuel.
  destruct (Hrun fuel Hfuel)
    as (cache0 & cache & Hgen & Hcall & Hlook & _ & _ & _).
  exists cache0, (entry_of pool rank F), cache. repeat split; try done.
  - by apply (members_import_extensions pool rank Hrank F x).
  - apply FileContainsExtensions_iff.
    by apply (members_import_extensions pool rank Hrank F x).
Qed.

(** X5.  Nothing is lost: every direct or indirect import of a file that
    declares extensions is a member of the [min_deps] cached for the file,
    or is reached from a member by following cached [min_deps]. *)
Theorem X5_every_import_with_extensions_is_reached pool iteration_order :
  acyclic pool →
  ∀ earlier F,
  ∃ bound, ∀ fuel, bound ≤ fuel →
    ∃ cache0 entry cache,
      generate_files pool iteration_order fuel earlier ∅ = Some cache0
      ∧ CollectMinimalFileDepsContainingExtensionsInternal pool fuel F cache0
          = Some (entry, cache)
      ∧ cache !! F = Some entry
      ∧ ∀ x, imports pool F x → declares_extension (pool x) →
             x ∈ min_deps entry
             ∨ ∃ m, m ∈ min_deps entry ∧ min_chain cache m x.
Proof.
  intros [rank Hrank] earlier F.
  destruct (closure_run pool iteration_order rank Hrank earlier F)
    as [bound Hrun].
  exists bound. intros fuel Hfuel.
  destruct (Hrun fuel Hfuel)
    as (cache0 & cache & Hgen & Hcall & Hlook & Hok & Hclosed & _).
  exists cache0, (entry_of pool rank F), cache. repeat split; try done.
  intros x Himp Hext%FileContainsExtensions_iff.
  destruct (imports_listed_or_covered pool rank Hrank cache Hok Hclosed F x)
    as [Hmin|Hcov]; [by eexists|done..|by left|right].
  apply (covered_reached pool rank Hrank cache Hok Hclosed); [by eexists|done].
Qed.

(** X6.  No file is both in the [min_deps] and in the [covered_deps]
    cached for a file, also when the pruning was skipped. *)
Theorem X6_min_deps_and_covered_deps_are_disjoint pool iteration_order :
  acyclic pool →
  ∀ earlier F,
  ∃ bound, ∀ fuel, bound ≤ fuel →
    ∃ cache0 entry cache,
      generate_files pool iteration_order fuel earlier ∅ = Some cache0
      ∧ CollectMinimalFileDepsContainingExtensionsInternal pool fuel F cache0
          = Some (entry, cache)
      ∧ cache !! F = Some entry
      ∧ min_deps entry ∩ covered_deps entry = ∅.
Proof.
  intros [rank Hrank] earlier F.
  destruct (closure_run pool iteration_order rank Hrank earlier F)
    as [bound Hrun].
  exists bound. intros fuel Hfuel.
  destruct (Hrun fuel Hfuel)
    as (cache0 & cache & Hgen & Hcall & Hlook & _ & _ & _).
  exists cache0, (entry_of pool rank F), cache. repeat split; try done.
  apply set_eq. intros x. split; [|intros Hx; by apply not_elem_of_empty in Hx].
  intros [Hmin Hcov]%elem_of_intersection. exfalso.
  by apply (min_deps_not_covered pool rank Hrank F x).
Qed.

(** X7.  Everything a dependency covers, the file covers too, and so does
    it cover the [min_deps] of every dependency that has extensions. *)
Theorem X7_covered_deps_grow_along_imports pool iteration_order :
  acyclic pool →
  ∀ earlier F,
  ∃ bound, ∀ fuel, bound ≤ fuel →
    ∃ cache0 entry cache,
      generate_files pool iteration_order fuel earlier ∅ = Some cache0
      ∧ CollectMinimalFileDepsContainingExtensionsInternal pool fuel F cache0
          = Some (entry, cache)
      ∧ cache !! F = Some entry
      ∧ ∀ dep, dep ∈ dependency (pool F) →
          ∃ dep_info,
            cache !! dep = Some dep_info
            ∧ covered_deps dep_info ⊆ covered_deps entry
            ∧ (has_extensions dep_info = true →
               min_deps dep_info ⊆ covered_deps entry).
Proof.
  intros [rank Hrank] earlier F.
  destruct (closure_run pool iteration_order rank Hrank earlier F)
    as [bound Hrun].
  exists bound. intros fuel Hfuel.
  destruct (Hrun fuel Hfuel)
    as (cache0 & cache & Hgen & Hcall & Hlook & Hok & Hclosed & _).
  exists cache0, (entry_of pool rank F), cache. repeat split; try done.
  intros dep Hdep. exists (entry_of pool rank dep). split; [|split].
  - apply (dependency_cached pool rank cache Hok Hclosed F); [by eexists|done].
  - intros x Hx. apply (covered_from_dep pool rank Hrank F dep); [done|by left].
  - intros Hext x Hx.
    apply (covered_from_dep pool rank Hrank F dep); [done|by right].
Qed.

(** ** The generated source *)

Lemma IsDirectDependency_iff pool dep file :
  IsDirectDependency pool dep file = true ↔ dep ∈ dependency (pool file).
Proof.
  unfold IsDirectDependency. rewrite existsb_exists. split.
  - intros (d & Hin & ->%Nat.eqb_eq). by apply list_elem_of_In.
  - intros Hin. exists dep. split; [by apply list_elem_of_In|].
    by apply Nat.eqb_eq.
Qed.

Lemma registry_block_begin pool file deps :
  RegistryBegin ∈ registry_block pool file deps ↔
  FileContainsExtensions (pool file) = true ∨ deps ≠ [].
Proof.
  unfold registry_block. rewrite list_elem_of_In.
  destruct (FileContainsExtensions (pool file)), deps as [|d deps]; simpl;
    try (split; [intros _; (by left) || (by right)|intros _; by left]).
  destruct (0 <? length (dependency (pool file))); simpl;
    split; intros [H|H]; done.
Qed.

Lemma registry_block_add pool file deps dep :
  AddExtensions dep ∈ registry_block pool file deps ↔ dep ∈ deps.
Proof.
  unfold registry_block. rewrite !list_elem_of_In.
  assert (In (AddExtensions dep) (map AddExtensions deps ++ [RegistryEnd])
          ↔ In dep deps) as Hmap.
  { rewrite in_app_iff, in_map_iff. simpl. split.
    - intros [(d & [= ->] & Hin)|[Heq|[]]]; [done|discriminate Heq].
    - intros Hin. left. by exists dep. }
  destruct (FileContainsExtensions (pool file)), deps as [|d deps];
    cbn [orb negb app].
  - simpl. split; [|done]. intros [H|[H|[H|[H|[]]]]]; discriminate H.
  - rewrite <- Hmap. cbn [In]. split.
    + intros [H|[H|[H|H]]]; try discriminate H. exact H.
    + intros H. do 3 right. exact H.
  - split; [|done].
    destruct (0 <? length (dependency (pool file))); simpl;
      intros [H|[]]; discriminate H.
  - rewrite <- Hmap. cbn [In]. split.
    + intros [H|[H|H]]; try discriminate H. exact H.
    + intros H. do 2 right. exact H.
Qed.

Lemma registry_block_no_imports pool file deps :
  NoRegistryNoImports ∈ registry_block pool file deps →
  dependency (pool file) = [].
Proof.
  unfold registry_block. rewrite list_elem_of_In.
  destruct (FileContainsExtensions (pool file) || _).
  - rewrite !in_app_iff. intros [H|[H|[H|H]]].
    + destruct H as [H|[]]. discriminate H.
    + destruct (FileContainsExtensions (pool file)); [|done].
      destruct H as [H|[]]. discriminate H.
    + destruct deps as [|d deps].
      * destruct H as [H|[]]. discriminate H.
      * destruct H as [H|H]; [discriminate H|].
        apply in_map_iff in H as (? & H & _). discriminate H.
    + destruct H as [H|[]]. discriminate H.
  - destruct (dependency (pool file)); [done|]. simpl.
    intros [H|[]]. discriminate H.
Qed.

(** X8.  The generated source overrides [+extensionRegistry] exactly when
    the file or one of its direct or indirect imports declares extensions;
    the registries it merges in are those of the [min_deps] cached for the
    file; and the comment that the file has no imports is only printed for
    a file without dependencies. *)
Theorem X8_registry_is_generated_when_needed pool
    headers_use_forward_declarations_option is_bundled_proto_
    public_dependency iteration_order :
  acyclic pool →
  (∀ s, iteration_order s ≡ₚ elements s) →
  ∀ earlier F,
  ∃ bound, ∀ fuel, bound ≤ fuel →
    ∃ cache0 source cache entry,
      generate_files pool iteration_order fuel earlier ∅ = Some cache0
      ∧ GenerateSource pool headers_use_forward_declarations_option
          is_bundled_proto_ public_dependency iteration_order fuel F cache0
        = Some (source, cache)
      ∧ cache !! F = Some entry
      ∧ (RegistryBegin ∈ registry source ↔
         declares_extension (pool F)
         ∨ ∃ x, imports pool F x ∧ declares_extension (pool x))
      ∧ (∀ dep, AddExtensions dep ∈ registry source ↔ dep ∈ min_deps entry)
      ∧ (NoRegistryNoImports ∈ registry source → dependency (pool F) = []).
Proof.
  intros [rank Hrank] Hiter earlier F.
  destruct (closure_run pool iteration_order rank Hrank earlier F)
    as [bound Hrun].
  exists bound. intros fuel Hfuel.
  destruct (Hrun fuel Hfuel)
    as (cache0 & cache & Hgen & Hcall & Hlook & Hok & Hclosed & _).
  set (entry := entry_of pool rank F) in *.
  set (deps := std_sort (FileDescriptorsOrderedByName pool)
                 (iteration_order (min_deps entry))).
  assert (∀ x, x ∈ deps ↔ x ∈ min_deps entry) as Hdeps.
  { intros x. subst deps.
    by rewrite std_sort_Permutation, Hiter, elem_of_elements. }
  eexists cache0, _, cache, entry. split; [done|]. split.
  { unfold GenerateSource, CollectMinimalFileDepsContainingExtensions.
    by rewrite Hcall. }
  split; [done|]. simpl. fold deps. split; [|split].
  - rewrite registry_block_begin, FileContainsExtensions_iff. split.
    + intros [Hown|Hsome]; [by left|right].
      destruct deps as [|m deps'] eqn:Heq; [done|].
      assert (m ∈ min_deps entry) as Hm by (apply Hdeps; left).
      exists m. split.
      * by apply (members_import_extensions pool rank Hrank F m); left.
      * apply FileContainsExtensions_iff.
        by apply (members_import_extensions pool rank Hrank F m); left.
    + intros [Hown|(x & Himp & Hext%FileContainsExtensions_iff)];
        [by left|right].
      assert (∃ m, m ∈ min_deps entry) as [m Hm].
      { destruct (imports_listed_or_covered pool rank Hrank cache Hok Hclosed
                    F x) as [Hmin|Hcov]; [by eexists|done..|by exists x|].
        destruct (covered_reached pool rank Hrank cache Hok Hclosed F x)
          as (m & Hm & _); [by eexists|done|by exists m]. }
      apply Hdeps in Hm. intros Hnil. rewrite Hnil in Hm. by inversion Hm.
  - intros dep. by rewrite registry_block_add, Hdeps.
  - apply registry_block_no_imports.
Qed.

(** X9.  Every file whose registry the generated source merges in is a
    direct dependency of the file or is imported by the source, and the
    source imports nothing but the file's own header and headers of its
    direct or indirect imports. *)
Theorem X9_merged_registries_are_imported pool
    headers_use_forward_declarations_option is_bundled_proto_
    public_dependency iteration_order :
  acyclic pool →
  (∀ s, iteration_order s ≡ₚ elements s) →
  ∀ earlier F,
  ∃ bound, ∀ fuel, bound ≤ fuel →
    ∃ cache0 source cache,
      generate_files pool iteration_order fuel earlier ∅ = Some cache0
      ∧ GenerateSource pool headers_use_forward_declarations_option
          is_bundled_proto_ public_dependency iteration_order fuel F cache0
        = Some (source, cache)
      ∧ (∀ dep, AddExtensions dep ∈ registry source →
           dep ∈ dependency (pool F) ∨ dep ∈ imported source)
      ∧ (∀ x, x ∈ imported source → x = F ∨ imports pool F x).
Proof.
  intros [rank Hrank] Hiter earlier F.
  destruct (closure_run pool iteration_order rank Hrank earlier F)
    as [bound Hrun].
  exists bound. intros fuel Hfuel.
  destruct (Hrun fuel Hfuel)
    as (cache0 & cache & Hgen & Hcall & Hlook & Hok & Hclosed & _).
  set (entry := entry_of pool rank F) in *.
  set (deps := std_sort (FileDescriptorsOrderedByName pool)
                 (iteration_order (min_deps entry))).
  assert (∀ x, x ∈ deps ↔ x ∈ min_deps entry) as Hdeps.
  { intros x. subst deps.
    by rewrite std_sort_Permutation, Hiter, elem_of_elements. }
  eexists cache0, _, cache. split; [done|]. split.
  { unfold GenerateSource, CollectMinimalFileDepsContainingExtensions.
    by rewrite Hcall. }
  simpl. fold deps. split.
  - intros dep Hdep%registry_block_add.
    destruct (IsDirectDependency pool dep F) eqn:Hdirect.
    + left. by apply IsDirectDependency_iff.
    + right. right. apply elem_of_app. right.
      apply list_elem_of_In, filter_In. split; [by apply list_elem_of_In|].
      by rewrite Hdirect.
  - intros x Hx. apply elem_of_cons in Hx as [->|Hx]; [by left|right].
    apply elem_of_app in Hx as [Hx|Hx].
    + destruct (_ && _); [|by inversion Hx].
      apply list_elem_of_In, filter_In in Hx as [Hx _].
      constructor. by apply list_elem_of_In.
    + apply list_elem_of_In, filter_In in Hx as [Hx _].
      apply list_elem_of_In, Hdeps in Hx.
      by apply (members_import_extensions pool rank Hrank F x); left.
Qed.

(** ** The further properties at concrete import graphs *)

Lemma X1_second_call_is_a_hit_witness :
  CollectMinimalFileDepsContainingExtensionsInternal Scenario.pool 1
    Scenario.B {[Scenario.B := mkEntry true ∅ ∅]}
  = Some (mkEntry true ∅ ∅, {[Scenario.B := mkEntry true ∅ ∅]}).
Proof.
  apply (X1_second_call_is_a_hit Scenario.pool 1 Scenario.B ∅
           (mkEntry true ∅ ∅) {[Scenario.B := mkEntry true ∅ ∅]}).
  by vm_compute.
Defined.

Lemma X2_entries_are_kept_witness :
  (<[Scenario.C := mkEntry false {[Scenario.B]} ∅]>
     {[Scenario.B := mkEntry true ∅ ∅]} : gmap FileId MinDepsEntry)
    !! Scenario.B
  = Some (mkEntry true ∅ ∅).
Proof.
  apply (X2_entries_are_kept Scenario.pool 2 Scenario.C
           {[Scenario.B := mkEntry true ∅ ∅]}
           (mkEntry false {[Scenario.B]} ∅)
           (<[Scenario.C := mkEntry false {[Scenario.B]} ∅]>
              {[Scenario.B := mkEntry true ∅ ∅]})).
  - by vm_compute.
  - by vm_compute.
Defined.

Lemma X3_memo_is_transparent_witness :
  ∃ bound, ∀ fuel, bound ≤ fuel →
    ∃ cache0 cache,
      generate_files Diamond.pool elements fuel [Diamond.mid; Diamond.left] ∅
        = Some cache0
      ∧ CollectMinimalFileDepsContainingExtensionsInternal
          Diamond.pool fuel Diamond.top cache0
        = Some (closure Diamond.pool fuel Diamond.top, cache).
Proof.
  apply (X3_memo_is_transparent Diamond.pool elements Diamond_acyclic
           [Diamond.mid; Diamond.left] Diamond.top).
Defined.

Lemma X4_members_are_imports_with_extensions_witness :
  ∃ bound, ∀ fuel, bound ≤ fuel →
    ∃ cache0 entry cache,
      generate_files Diamond.pool elements fuel [] ∅ = Some cache0
      ∧ CollectMinimalFileDepsContainingExtensionsInternal
          Diamond.pool fuel Diamond.top cache0 = Some (entry, cache)
      ∧ cache !! Diamond.top = Some entry
      ∧ ∀ x, x ∈ min_deps entry ∨ x ∈ covered_deps entry →
             imports Diamond.pool Diamond.top x
             ∧ declares_extension (Diamond.pool x).
Proof.
  apply (X4_members_are_imports_with_extensions Diamond.pool elements
           Diamond_acyclic [] Diamond.top).
Defined.

Lemma X5_every_import_with_extensions_is_reached_witness :
  ∃ bound, ∀ fuel, bound ≤ fuel →
    ∃ cache0 entry cache,
      generate_files Diamond.pool elements fuel [] ∅ = Some cache0
      ∧ CollectMinimalFileDepsContainingExtensionsInternal
          Diamond.pool fuel Diamond.top cache0 = Some (entry, cache)
      ∧ cache !! Diamond.top = Some entry
      ∧ ∀ x, imports Diamond.pool Diamond.top x →
             declares_extension (Diamond.pool x) →
             x ∈ min_deps entry
             ∨ ∃ m, m ∈ min_deps entry ∧ min_chain cache m x.
Proof.
  apply (X5_every_import_with_extensions_is_reached Diamond.pool elements
           Diamond_acyclic [] Diamond.top).
Defined.

Lemma X6_min_deps_and_covered_deps_are_disjoint_witness :
  ∃ bound, ∀ fuel, bound ≤ fuel →
    ∃ cache0 entry cache,
      generate_files Diamond.pool elements fuel [] ∅ = Some cache0
      ∧ CollectMinimalFileDepsContainingExtensionsInternal
          Diamond.pool fuel Diamond.right cache0 = Some (entry, cache)
      ∧ cache !! Diamond.right = Some entry
      ∧ min_deps entry ∩ covered_deps entry = ∅.
Proof.
  apply (X6_min_deps_and_covered_deps_are_disjoint Diamond.pool elements
           Diamond_acyclic [] Diamond.right).
Defined.

Lemma X7_covered_deps_grow_along_imports_witness :
  ∃ bound, ∀ fuel, bound ≤ fuel →
    ∃ cache0 entry cache,
      generate_files Diamond.pool elements fuel [] ∅ = Some cache0
      ∧ CollectMinimalFileDepsContainingExtensionsInternal
          Diamond.pool fuel Diamond.top cache0 = Some (entry, cache)
      ∧ cache !! Diamond.top = Some entry
      ∧ ∀ dep, dep ∈ dependency (Diamond.pool Diamond.top) →
          ∃ dep_info,
            cache !! dep = Some dep_info
            ∧ covered_deps dep_info ⊆ covered_deps entry
            ∧ (has_extensions dep_info = true →
               min_deps dep_info ⊆ covered_deps entry).
Proof.
  apply (X7_covered_deps_grow_along_imports Diamond.pool elements
           Diamond_acyclic [] Diamond.top).
Defined.

Lemma X8_registry_is_generated_when_needed_witness :
  ∃ bound, ∀ fuel, bound ≤ fuel →
    ∃ cache0 source cache entry,
      generate_files Diamond.pool elements fuel [] ∅ = Some cache0
      ∧ GenerateSource Diamond.pool true (λ _, false) (λ _, []) elements
          fuel Diamond.left cache0
        = Some (source, cache)
      ∧ cache !! Diamond.left = Some entry
      ∧ (RegistryBegin ∈ registry source ↔
         declares_extension (Diamond.pool Diamond.left)
         ∨ ∃ x, imports Diamond.pool Diamond.left x
                ∧ declares_extension (Diamond.pool x))
      ∧ (∀ dep, AddExtensions dep ∈ registry source ↔ dep ∈ min_deps entry)
      ∧ (NoRegistryNoImports ∈ registry source →
         dependency (Diamond.pool Diamond.left) = []).
Proof.
  apply (X8_registry_is_generated_when_needed Diamond.pool true (λ _, false)
           (λ _, []) elements Diamond_acyclic).
  intros s. reflexivity.
Defined.

Lemma X9_merged_registries_are_imported_witness :
  ∃ bound, ∀ fuel, bound ≤ fuel →
    ∃ cache0 source cache,
      generate_files Diamond.pool elements fuel [] ∅ = Some cache0
      ∧ GenerateSource Diamond.pool true (λ _, false) (λ _, []) elements
          fuel Diamond.top cache0
        = Some (source, cache)
      ∧ (∀ dep, AddExtensions dep ∈ registry source →
           dep ∈ dependency (Diamond.pool Diamond.top)
           ∨ dep ∈ imported source)
      ∧ (∀ x, x ∈ imported source →
           x = Diamond.top ∨ imports Diamond.pool Diamond.top x).
Proof.
  apply (X9_merged_registries_are_imported Diamond.pool true (λ _, false)
           (λ _, []) elements Diamond_acyclic).
  intros s. reflexivity.
Defined.

(** The source generated for [top] of the diamond: it imports its own
    header, its two dependencies and [mid], which it reaches only through
    [right], and merges the registry of [mid]. *)
Example Diamond_source :
  ∃ cache,
    GenerateSource Diamond.pool true (λ _, false) (λ _, []) elements
      4 Diamond.top ∅
    = Some (mkSource [Diamond.top; Diamond.left; Diamond.right; Diamond.mid]
                     [RegistryBegin; MergeImports; AddExtensions Diamond.mid;
                      RegistryEnd],
            cache).
Proof. eexists. by vm_compute. Qed.

End ObjCProofs.

(* ===================================================================== *)
(** * Properties of the generated builder                                 *)
(* ===================================================================== *)

Module JavaProofs.
Import Java.

Local Open Scope Z_scope.

(** ** Bit-field words *)

Lemma wrap_int32_small z : - 2 ^ 31 <= z < 2 ^ 31 → wrap_int32 z = z.
Proof.
  intros Hz. unfold wrap_int32.
  rewrite Z.mod_small by lia. lia.
Qed.

Lemma ceil_div_32 total :
  0 <= total → Z.quot (total + 31) 32 = ceil_div total 32.
Proof.
  intros Htotal. unfold ceil_div.
  rewrite Z.quot_div_nonneg by lia.
  pose proof (Z.div_mod (total + 31) 32) as H1.
  pose proof (Z.mod_pos_bound (total + 31) 32) as H2.
  pose proof (Z.div_mod (- total) 32) as H3.
  pose proof (Z.mod_pos_bound (- total) 32) as H4.
  lia.
Qed.

(** [ceil_div total 32] is the least number of 32-bit words that hold
    [total] bits. *)
Lemma ceil_div_32_least total :
  32 * (ceil_div total 32 - 1) < total <= 32 * ceil_div total 32.
Proof.
  unfold ceil_div.
  pose proof (Z.div_mod (- total) 32) as H3.
  pose proof (Z.mod_pos_bound (- total) 32) as H4.
  lia.
Qed.

Section BitCount.
Variable bits : FieldDescriptor → Z.

Lemma total_bits_bounds fields :
  (∀ f, f ∈ fields → 0 <= bits f <= 1) →
  0 <= foldr (λ f total, bits f + total) 0 fields
    <= Z.of_nat (length fields).
Proof.
  induction fields as [|f fields IH]; intros Hbits; simpl; [lia|].
  assert (0 <= bits f <= 1) by (apply Hbits; left).
  assert (∀ g, g ∈ fields → 0 <= bits g <= 1) as Hrest
    by (intros g Hg; apply Hbits; by right).
  specialize (IH Hrest). lia.
Qed.

Lemma fold_int_add fields acc :
  (∀ f, f ∈ fields → 0 <= bits f <= 1) →
  0 <= acc → acc + Z.of_nat (length fields) < 2 ^ 31 →
  fold_left (λ total f, int_add total (bits f)) fields acc
  = acc + foldr (λ f total, bits f + total) 0 fields.
Proof.
  revert acc. induction fields as [|f fields IH]; intros acc Hbits Hacc Hlen;
    simpl; [lia|].
  assert (0 <= bits f <= 1) by (apply Hbits; left).
  simpl length in Hlen. unfold int_add at 2.
  rewrite wrap_int32_small by lia.
  rewrite IH; [lia| |lia|lia].
  intros g Hg. apply Hbits. by right.
Qed.

End BitCount.

Lemma fold_pair_split (b m : FieldDescriptor → Z) fields accb accm :
  fold_left (λ '(tb, tm) f, (int_add tb (b f), int_add tm (m f)))
            fields (accb, accm)
  = (fold_left (λ total f, int_add total (b f)) fields accb,
     fold_left (λ total f, int_add total (m f)) fields accm).
Proof.
  revert accb accm. induction fields as [|f fields IH]; intros accb accm;
    simpl; [done|]. apply IH.
Qed.

Lemma word_count (bits : FieldDescriptor → Z) fields :
  (∀ f, f ∈ fields → 0 <= bits f <= 1) →
  Z.of_nat (length fields) + 31 < 2 ^ 31 →
  int_div
    (int_add (fold_left (λ total f, int_add total (bits f)) fields 0) 31) 32
  = ceil_div (foldr (λ f total, bits f + total) 0 fields) 32.
Proof.
  intros Hbits Hlen.
  pose proof (total_bits_bounds bits fields Hbits) as Hbound.
  rewrite fold_int_add by (done || lia). rewrite Z.add_0_l.
  unfold int_add, int_div. rewrite (wrap_int32_small (_ + 31)) by lia.
  rewrite ceil_div_32 by lia.
  pose proof (ceil_div_32_least (foldr (λ f total, bits f + total) 0 fields)).
  apply wrap_int32_small. lia.
Qed.

(** C7.  The number of bit-field words of the builder and the number of
    bit-field words of the message are each the ceiling of that side's own
    total of presence bits divided by 32 (the least number of 32-bit
    words that hold them), and the words are named [0, 1, ...] in order: in
    the members that [Generate] declares and in the [from_]/[to_] locals of
    [buildPartial()].  Every field generator
    asks for 0 or 1 bit on each side, and the fields are few enough for
    the sums to fit an [int]. *)
Theorem C7_bit_field_words field_generators_ HasGeneratedMethods
    oneofs_iteration (descriptor : Descriptor) :
  (∀ f, f ∈ field descriptor →
        0 <= GetNumBitsForBuilder (field_generators_ f) <= 1
        ∧ 0 <= GetNumBitsForMessage (field_generators_ f) <= 1) →
  Z.of_nat (length (field descriptor)) + 31 < 2 ^ 31 →
  let builder_words :=
    ceil_div (total_bits (λ f, GetNumBitsForBuilder (field_generators_ f))
                         descriptor) 32 in
  let message_words :=
    ceil_div (total_bits (λ f, GetNumBitsForMessage (field_generators_ f))
                         descriptor) 32 in
  let words (n : Z) := map Z.of_nat (seq 0 (Z.to_nat n)) in
  Generate_bit_fields field_generators_ descriptor
    = map PrivateIntBitField (words builder_words)
  ∧ buildPartial (GenerateCommonBuilderMethods field_generators_
                    HasGeneratedMethods oneofs_iteration descriptor)
    = map FromBitField (words builder_words)
      ++ map ToBitField (words message_words)
      ++ map FieldBuilding (field descriptor)
      ++ map ResultBitField (words message_words)
      ++ map ResultOneofCase (oneofs_iteration (oneofs_ descriptor))
      ++ [OnBuilt; ReturnResult]
  ∧ 32 * (builder_words - 1)
      < total_bits (λ f, GetNumBitsForBuilder (field_generators_ f)) descriptor
      <= 32 * builder_words
  ∧ 32 * (message_words - 1)
      < total_bits (λ f, GetNumBitsForMessage (field_generators_ f)) descriptor
      <= 32 * message_words.
Proof.
  intros Hbits Hlen builder_words message_words words.
  assert (∀ f, f ∈ field descriptor →
               0 <= GetNumBitsForBuilder (field_generators_ f) <= 1) as Hb
    by (intros f Hf; by apply Hbits).
  assert (∀ f, f ∈ field descriptor →
               0 <= GetNumBitsForMessage (field_generators_ f) <= 1) as Hm
    by (intros f Hf; by apply Hbits).
  split; [|split; [|split]].
  - unfold Generate_bit_fields.
    by rewrite (word_count (λ f, GetNumBitsForBuilder (field_generators_ f))).
  - unfold GenerateCommonBuilderMethods, buildPartial_body. simpl.
    rewrite (fold_pair_split
               (λ f, GetNumBitsForBuilder (field_generators_ f))
               (λ f, GetNumBitsForMessage (field_generators_ f))).
    rewrite (word_count (λ f, GetNumBitsForBuilder (field_generators_ f)))
      by done.
    by rewrite (word_count (λ f, GetNumBitsForMessage (field_generators_ f))).
  - apply ceil_div_32_least.
  - apply ceil_div_32_least.
Qed.

(** ** The dispatch table *)

Lemma entries_of_app f l1 l2 :
  entries_of f (l1 ++ l2) = entries_of f l1 ++ entries_of f l2.
Proof. apply List.filter_app. Qed.

Lemma entries_of_flat_map (g : FieldDescriptor → list SwitchCase) f fields :
  NoDup (map number fields) → f ∈ fields →
  (∀ x, number x ≠ number f → entries_of f (g x) = []) →
  entries_of f (flat_map g fields) = entries_of f (g f).
Proof.
  intros Hnodup Hin Hother.
  induction fields as [|h fields IH]; [by inversion Hin|].
  simpl in Hnodup. apply NoDup_cons in Hnodup as [Hh Hnodup].
  simpl. rewrite entries_of_app.
  apply elem_of_cons in Hin as [->|Hin].
  - assert (entries_of h (flat_map g fields) = []) as ->;
      [|by rewrite app_nil_r].
    clear IH Hnodup. induction fields as [|k fields IH]; [done|].
    simpl. rewrite entries_of_app, Hother, IH; [done| |].
    + intros Hin. apply Hh. by right.
    + intros Heq. apply Hh. rewrite <- Heq. left.
  - rewrite Hother, IH; [done..|].
    intros Heq. apply Hh. rewrite Heq. apply list_elem_of_In, in_map.
    by apply list_elem_of_In.
Qed.

(** C3.  For a packable field of a message (with field numbers that are
    pairwise distinct, as in every descriptor), the dispatch table has
    exactly two entries: first the case whose tag is made from the wire
    type of the field's own type and which runs the parsing code of the
    field, then the case whose tag is made from the length-delimited wire
    type and which runs the parsing code for the packed form.  Nothing is
    assumed of [options_packed f]: the entries are the same whether the
    field is declared packed or not. *)
Theorem C3_packable_field_has_two_entries MakeTag WireTypeForFieldType
    (descriptor : Descriptor) (f : FieldDescriptor) :
  NoDup (map number (field descriptor)) →
  f ∈ field descriptor →
  is_packable f = true →
  entries_of f
    (GenerateBuilderFieldParsingCases MakeTag WireTypeForFieldType descriptor)
  = [ mkCase
        (Some (static_cast_int32
                 (MakeTag (number f) (WireTypeForFieldType (type f)))))
        [FieldParsing GenerateBuilderParsingCode f];
      mkCase
        (Some (static_cast_int32
                 (MakeTag (number f) WIRETYPE_LENGTH_DELIMITED)))
        [FieldParsing GenerateBuilderParsingCodeFromPacked f] ]
  ∧ entries_of f
      (GenerateBuilderParsingMethods MakeTag WireTypeForFieldType descriptor)
    = entries_of f
        (GenerateBuilderFieldParsingCases MakeTag WireTypeForFieldType
           descriptor).
Proof.
  intros Hnodup Hin Hpack.
  assert (SortFieldsByNumber descriptor ≡ₚ field descriptor) as Hperm
    by apply std_sort_Permutation.
  split.
  - unfold GenerateBuilderFieldParsingCases.
    rewrite (entries_of_flat_map _ f).
    + rewrite Hpack. unfold entries_of. simpl. by rewrite Z.eqb_refl.
    + by rewrite (Permutation_map number Hperm).
    + by rewrite Hperm.
    + intros x Hne. apply Z.eqb_neq in Hne. unfold entries_of. simpl.
      rewrite Hne. destruct (is_packable x); simpl; [|done]. by rewrite Hne.
  - unfold GenerateBuilderParsingMethods, entries_of.
    rewrite !List.filter_app. simpl. by rewrite app_nil_r.
Qed.

(** ** The parsing loop *)

Section ParsingLoop.
Variable MakeTag : Z → WireType → Z.
Variable WireTypeForFieldType : FieldType → WireType.
Variables Input Builder : Type.
Variable readTag : Input → option (Z * Input).
Variable run_field_parsing :
  FieldGeneratorCall → FieldDescriptor → Input → Builder →
  option (Input * Builder).
Variable parseUnknownField :
  Z → Input → Builder → option (bool * (Input * Builder)).
Variable onChanged : Builder → Builder.

Lemma select_case_zero (descriptor : Descriptor) :
  select_case 0
    (GenerateBuilderParsingMethods MakeTag WireTypeForFieldType descriptor)
  = Some (mkCase (Some 0) [SetDone]).
Proof. reflexivity. Qed.

Lemma find_label_none tag (cases : list SwitchCase) :
  (∀ c, c ∈ cases → case_label c ≠ Some tag) →
  find (λ c, bool_decide (case_label c = Some tag)) cases = None.
Proof.
  induction cases as [|c cases IH]; intros Hnone; [done|]. simpl.
  rewrite bool_decide_eq_false_2 by (apply Hnone; left).
  apply IH. intros c' Hc'. apply Hnone. by right.
Qed.

Lemma find_app_none {A} (P : A → bool) (l1 l2 : list A) :
  find P l1 = None → find P (l1 ++ l2) = find P l2.
Proof.
  induction l1 as [|x l1 IH]; [done|]. simpl.
  destruct (P x); [done|]. exact IH.
Qed.

Lemma find_default_field_cases (descriptor : Descriptor) :
  find (λ c, bool_decide (case_label c = None))
       (GenerateBuilderFieldParsingCases MakeTag WireTypeForFieldType
          descriptor) = None.
Proof.
  unfold GenerateBuilderFieldParsingCases.
  induction (SortFieldsByNumber descriptor) as [|f fields IH]; [done|].
  simpl. destruct (is_packable f); simpl; exact IH.
Qed.

Lemma select_case_unknown (descriptor : Descriptor) tag :
  tag ≠ 0 →
  (∀ c, c ∈ GenerateBuilderFieldParsingCases MakeTag WireTypeForFieldType
               descriptor → case_label c ≠ Some tag) →
  select_case tag
    (GenerateBuilderParsingMethods MakeTag WireTypeForFieldType descriptor)
  = Some (mkCase None [ParseUnknownFieldOrDone]).
Proof.
  intros Hnonzero Hnone. unfold select_case, GenerateBuilderParsingMethods.
  assert (find (λ c, bool_decide (case_label c = Some tag))
            ([mkCase (Some 0) [SetDone]]
             ++ GenerateBuilderFieldParsingCases MakeTag WireTypeForFieldType
                  descriptor
             ++ [mkCase None [ParseUnknownFieldOrDone]]) = None) as ->.
  { apply find_label_none. intros c Hc.
    apply elem_of_app in Hc as [Hc|Hc].
    - apply list_elem_of_singleton in Hc as ->. simpl. congruence.
    - apply elem_of_app in Hc as [Hc|Hc]; [by apply Hnone|].
      apply list_elem_of_singleton in Hc as ->. done. }
  simpl. by rewrite find_app_none by apply find_default_field_cases.
Qed.

End ParsingLoop.

(** C4.  In the parsing method generated for a message, when the tag read
    is 0 the loop ends and the method returns [this]; when the tag is not
    0 and no case of the dispatch table is labelled with it, the tag is
    handed to [parseUnknownField], and the method returns [this] when the
    handler answers [false] (an end-group tag) and goes on with the loop
    when it answers [true]; only an exception thrown by the handler makes
    the method throw. *)
Theorem C4_decode_loop_policy MakeTag WireTypeForFieldType
    (Input Builder : Type) readTag run_field_parsing parseUnknownField
    (onChanged : Builder → Builder)
    (descriptor : Descriptor) (fuel : nat) (input0 : Input) (this : Builder)
    (tag : Z) (input1 : Input) :
  readTag input0 = Some (tag, input1) →
  (tag ≠ 0 →
   ∀ c, c ∈ GenerateBuilderFieldParsingCases MakeTag WireTypeForFieldType
              descriptor → case_label c ≠ Some tag) →
  run_parsing_method Input Builder readTag run_field_parsing
    parseUnknownField onChanged
    (GenerateBuilderParsingMethods MakeTag WireTypeForFieldType descriptor)
    false (S fuel) input0 this
  = if tag =? 0 then Returned Input Builder input1 (onChanged this)
    else
      match parseUnknownField tag input1 this with
      | None => Threw Input Builder
      | Some (go_on, (input2, this')) =>
          if go_on then
            run_parsing_method Input Builder readTag run_field_parsing
              parseUnknownField onChanged
              (GenerateBuilderParsingMethods MakeTag WireTypeForFieldType
                 descriptor)
              false fuel input2 this'
          else Returned Input Builder input2 (onChanged this')
      end.
Proof.
  intros Hread Hnone. unfold run_parsing_method.
  cbn [run_loop done input builder]. rewrite Hread.
  destruct (tag =? 0) eqn:Htag.
  - apply Z.eqb_eq in Htag as ->. rewrite select_case_zero.
    cbn [case_body exec_parse_stmts exec_parse_stmt input builder].
    by destruct fuel.
  - apply Z.eqb_neq in Htag. rewrite select_case_unknown by auto.
    cbn [case_body exec_parse_stmts exec_parse_stmt input builder done].
    destruct (parseUnknownField tag input1 this)
      as [[[] [input2 this']]|]; [done| |done].
    by destruct fuel.
Qed.

(** ** Merging *)

(** C5.  In the [mergeFrom($classname$ other)] generated for a message,
    the first statement returns [this] when [other] is the default
    instance of the type: the builder is unchanged, whatever the merging
    code of the fields, of the extensions and of the unknown fields does,
    and no statement other than that guard is executed.  The method exists
    when the generator emits the generated methods of the message. *)
Theorem C5_merge_default_is_noop field_generators_ HasGeneratedMethods
    oneofs_iteration (Builder Message : Type) is_default_instance
    run_field_merging oneof_case mergeExtensionFields mergeUnknownFields
    (onChanged : Builder → Builder)
    (descriptor : Descriptor) (body : list MergeStmt)
    (this : Builder) (other : Message) :
  mergeFrom (GenerateCommonBuilderMethods field_generators_
               HasGeneratedMethods oneofs_iteration descriptor) = Some body →
  is_default_instance other = true →
  run_mergeFrom Builder Message is_default_instance run_field_merging
    oneof_case mergeExtensionFields mergeUnknownFields onChanged
    body this other
  = (this, [ReturnThisIfDefaultInstance]).
Proof.
  unfold GenerateCommonBuilderMethods. simpl.
  destruct (HasGeneratedMethods descriptor); [|done].
  intros [= <-] Hdefault. unfold mergeFrom_body. simpl.
  by rewrite Hdefault.
Qed.

Lemma merge_actions_app l1 l2 :
  merge_actions (l1 ++ l2) = merge_actions l1 ++ merge_actions l2.
Proof. apply List.filter_app. Qed.

Lemma merge_actions_fields (fields : list FieldDescriptor) :
  merge_actions
    (flat_map (λ f, if IsRealOneof f then [] else [FieldMerging f]) fields)
  = map FieldMerging (List.filter (λ f, negb (IsRealOneof f)) fields).
Proof.
  induction fields as [|f fields IH]; [done|]. simpl.
  rewrite merge_actions_app, IH. by destruct (IsRealOneof f).
Qed.

Lemma merge_actions_oneofs (descriptor : Descriptor) (oneofs : list OneofId) :
  merge_actions
    (map (λ oneof, OneofSwitch oneof (oneof_fields descriptor oneof)) oneofs)
  = map (λ oneof, OneofSwitch oneof (oneof_fields descriptor oneof)) oneofs.
Proof.
  induction oneofs as [|oneof oneofs IH]; [done|].
  unfold merge_actions in *. simpl. by rewrite IH.
Qed.

Lemma elem_of_oneofs_ (descriptor : Descriptor) (oneof : OneofId) :
  oneof ∈ oneofs_ descriptor ↔
  ∃ f, f ∈ field descriptor ∧ real_containing_oneof f = Some oneof.
Proof.
  unfold oneofs_. rewrite elem_of_list_to_set, list_elem_of_omap. done.
Qed.

Section MergeRun.
Variables Builder Message : Type.
Variable is_default_instance : Message → bool.
Variable run_field_merging : FieldDescriptor → Builder → Message → Builder.
Variable oneof_case : OneofId → Message → option Z.
Variable mergeExtensionFields : Builder → Message → Builder.
Variable mergeUnknownFields : Builder → Message → Builder.
Variable onChanged : Builder → Builder.

Local Abbreviation exec :=
  (exec_merge_stmt Builder Message run_field_merging oneof_case
     mergeExtensionFields mergeUnknownFields onChanged).
Local Abbreviation run :=
  (run_mergeFrom Builder Message is_default_instance run_field_merging
     oneof_case mergeExtensionFields mergeUnknownFields onChanged).

Lemma run_merge_actions (actions rest : list MergeStmt) this other :
  Forall (λ stmt, is_merge_action stmt = true) actions →
  run (actions ++ rest) this other
  = (let '(this', log) :=
       run rest (fold_left (λ b stmt, exec stmt b other) actions this) other in
     (this', actions ++ log)).
Proof.
  intros Hactions. revert this.
  induction Hactions as [|stmt actions Hstmt _ IH]; intros this; simpl.
  - by destruct (run rest this other).
  - destruct stmt; try discriminate Hstmt; rewrite IH;
      by destruct (run rest _ other).
Qed.

Lemma merge_actions_all (actions : list MergeStmt) :
  Forall (λ stmt, is_merge_action stmt = true) actions →
  merge_actions actions = actions.
Proof.
  induction 1 as [|stmt actions Hstmt _ IH]; [done|].
  unfold merge_actions in *. simpl. by rewrite Hstmt, IH.
Qed.

End MergeRun.

Lemma mergeFrom_body_actions oneofs_iteration (descriptor : Descriptor) :
  ∃ actions,
    Forall (λ stmt, is_merge_action stmt = true) actions
    ∧ mergeFrom_body oneofs_iteration descriptor
      = ReturnThisIfDefaultInstance :: actions ++ [OnChanged; ReturnThis].
Proof.
  exists (flat_map (λ f, if IsRealOneof f then [] else [FieldMerging f])
            (field descriptor)
          ++ map (λ oneof, OneofSwitch oneof (oneof_fields descriptor oneof))
               (oneofs_iteration (oneofs_ descriptor))
          ++ (if (0 <? extension_range_count descriptor)%nat
              then [MergeExtensionFields] else [])
          ++ [MergeUnknownFields]).
  split.
  - rewrite !Forall_app. split; [|split; [|split]].
    + induction (field descriptor) as [|f fields IH]; simpl; [constructor|].
      destruct (IsRealOneof f); simpl; [done|]. by constructor.
    + induction (oneofs_iteration (oneofs_ descriptor)) as [|o os IH]; simpl;
        by constructor.
    + destruct (0 <? extension_range_count descriptor)%nat; repeat constructor.
    + repeat constructor.
  - unfold mergeFrom_body. simpl. by rewrite <- !app_assoc.
Qed.

Lemma flat_map_field_merging (fields : list FieldDescriptor) :
  flat_map (λ f, if IsRealOneof f then [] else [FieldMerging f]) fields
  = map FieldMerging (List.filter (λ f, negb (IsRealOneof f)) fields).
Proof.
  induction fields as [|f fields IH]; [done|]. simpl.
  rewrite IH. by destruct (IsRealOneof f).
Qed.

Lemma run_mergeFrom_body oneofs_iteration (descriptor : Descriptor)
    (Builder Message : Type) is_default_instance run_field_merging oneof_case
    mergeExtensionFields mergeUnknownFields (onChanged : Builder → Builder)
    (this : Builder) (other : Message) :
  is_default_instance other = false →
  run_mergeFrom Builder Message is_default_instance run_field_merging
    oneof_case mergeExtensionFields mergeUnknownFields onChanged
    (mergeFrom_body oneofs_iteration descriptor) this other
  = (onChanged
       (fold_left
          (λ b stmt,
             exec_merge_stmt Builder Message run_field_merging oneof_case
               mergeExtensionFields mergeUnknownFields onChanged stmt b other)
          (merge_actions (mergeFrom_body oneofs_iteration descriptor)) this),
     mergeFrom_body oneofs_iteration descriptor).
Proof.
  intros Hdefault.
  destruct (mergeFrom_body_actions oneofs_iteration descriptor)
    as (actions & Hactions & ->).
  change (ReturnThisIfDefaultInstance :: actions ++ [OnChanged; ReturnThis])
    with ([ReturnThisIfDefaultInstance] ++ actions ++ [OnChanged; ReturnThis])
    at 2.
  rewrite !merge_actions_app, (merge_actions_all actions) by done.
  change (merge_actions [ReturnThisIfDefaultInstance]) with (@nil MergeStmt).
  change (merge_actions [OnChanged; ReturnThis]) with (@nil MergeStmt).
  rewrite app_nil_l, app_nil_r.
  cbn [run_mergeFrom]. rewrite Hdefault.
  rewrite run_merge_actions by done. done.
Qed.

(** C6.  The generated [mergeFrom($classname$ other)] is, statement by
    statement: the guard on the default instance; the merging code of
    every field that is not in a real oneof, in declaration order; one
    [switch] for every oneof that has a field in the message, each exactly
    once, over the members of that oneof; the call of
    [mergeExtensionFields] when the message has extension ranges; the call
    of [mergeUnknownFields]; [onChanged()]; and [return this].  Its merge
    actions are therefore the field merges, the oneof switches, the
    extension merge and last the unknown-field merge, and they are
    performed: whenever [other] is not the default instance, running the
    method executes every statement of the body once, in this order, and
    returns the builder that the merge actions, run in this order and
    followed by [onChanged()], leave. *)
Theorem C6_merge_order field_generators_ HasGeneratedMethods
    oneofs_iteration (descriptor : Descriptor) (body : list MergeStmt) :
  (∀ s, oneofs_iteration s ≡ₚ elements s) →
  mergeFrom (GenerateCommonBuilderMethods field_generators_
               HasGeneratedMethods oneofs_iteration descriptor) = Some body →
  ∃ oneofs : list OneofId,
    NoDup oneofs
    ∧ (∀ oneof, oneof ∈ oneofs ↔
         ∃ f, f ∈ field descriptor ∧ real_containing_oneof f = Some oneof)
    ∧ body
      = [ReturnThisIfDefaultInstance]
        ++ map FieldMerging
             (List.filter (λ f, negb (IsRealOneof f)) (field descriptor))
        ++ map (λ oneof, OneofSwitch oneof (oneof_fields descriptor oneof))
               oneofs
        ++ (if (0 <? extension_range_count descriptor)%nat
            then [MergeExtensionFields] else [])
        ++ [MergeUnknownFields; OnChanged; ReturnThis]
    ∧ merge_actions body
      = map FieldMerging
            (List.filter (λ f, negb (IsRealOneof f)) (field descriptor))
        ++ map (λ oneof, OneofSwitch oneof (oneof_fields descriptor oneof))
               oneofs
        ++ (if (0 <? extension_range_count descriptor)%nat
            then [MergeExtensionFields] else [])
        ++ [MergeUnknownFields]
    ∧ ∀ (Builder Message : Type) is_default_instance run_field_merging
        oneof_case mergeExtensionFields mergeUnknownFields
        (onChanged : Builder → Builder) (this : Builder) (other : Message),
        is_default_instance other = false →
        run_mergeFrom Builder Message is_default_instance run_field_merging
          oneof_case mergeExtensionFields mergeUnknownFields onChanged
          body this other
        = (onChanged
             (fold_left
                (λ b stmt,
                   exec_merge_stmt Builder Message run_field_merging
                     oneof_case mergeExtensionFields mergeUnknownFields
                     onChanged stmt b other)
                (merge_actions body) this),
           body).
Proof.
  intros Hiter. unfold GenerateCommonBuilderMethods. simpl.
  destruct (HasGeneratedMethods descriptor); [|done].
  intros [= <-]. exists (oneofs_iteration (oneofs_ descriptor)).
  split; [|split; [|split; [|split]]].
  - rewrite Hiter. apply NoDup_elements.
  - intros oneof. rewrite Hiter, elem_of_elements. apply elem_of_oneofs_.
  - unfold mergeFrom_body. by rewrite flat_map_field_merging.
  - unfold mergeFrom_body.
    rewrite !merge_actions_app, merge_actions_fields, merge_actions_oneofs.
    by destruct (0 <? extension_range_count descriptor)%nat.
  - intros Builder Message is_default_instance run_field_merging oneof_case
      mergeExtensionFields mergeUnknownFields onChanged this other Hdefault.
    by apply run_mergeFrom_body.
Qed.

(** ** The checks of [isInitialized()] *)

Section IsInitialized.
Variable GetJavaType : FieldDescriptor → JavaType.
Variable HasRequiredFields : DescriptorId → bool.
Variable IsMapEntry : DescriptorId → bool.
Variable map_value_type : DescriptorId → FieldType.

Local Abbreviation embedded_check :=
  (embedded_message_check GetJavaType HasRequiredFields IsMapEntry
     map_value_type).
Local Abbreviation embedded_checks :=
  (embedded_message_checks GetJavaType HasRequiredFields IsMapEntry
     map_value_type).

Lemma embedded_check_target f checks check g :
  embedded_check f = Some checks → check ∈ checks →
  recursion_target check = Some g →
  g = f ∧ GetJavaType f = JAVATYPE_MESSAGE
  ∧ HasRequiredFields (message_type f) = true.
Proof.
  unfold embedded_message_check.
  destruct (GetJavaType f) eqn:Hjava;
    try (intros [= <-] Hin; by inversion Hin).
  destruct (HasRequiredFields (message_type f)) eqn:Hreq;
    [|intros [= <-] Hin; by inversion Hin].
  destruct (label f).
  - intros [= <-] Hin%list_elem_of_singleton. subst check.
    intros [= <-]. done.
  - intros [= <-] Hin%list_elem_of_singleton. subst check.
    intros [= <-]. done.
  - destruct (IsMapEntry (message_type f)).
    + destruct (MapValueImmutableClassdName map_value_type (message_type f));
        [|done].
      intros [= <-] Hin%list_elem_of_singleton. subst check.
      intros [= <-]. done.
    + intros [= <-] Hin%list_elem_of_singleton. subst check.
      intros [= <-]. done.
Qed.

Lemma embedded_checks_target fields checks check g :
  embedded_checks fields = Some checks → check ∈ checks →
  recursion_target check = Some g →
  g ∈ fields ∧ GetJavaType g = JAVATYPE_MESSAGE
  ∧ HasRequiredFields (message_type g) = true.
Proof.
  revert checks. induction fields as [|f fields IH]; intros checks; simpl.
  - intros [= <-] Hin. by inversion Hin.
  - destruct (embedded_check f) as [first|] eqn:Hfirst; [|done].
    destruct (embedded_checks fields) as [more|] eqn:Hmore; [|done].
    intros [= <-] Hin Htarget. apply elem_of_app in Hin as [Hin|Hin].
    + destruct (embedded_check_target f first check g Hfirst Hin Htarget)
        as (-> & ? & ?).
      split; [left|done].
    + destruct (IH more eq_refl Hin Htarget) as (? & ? & ?).
      split; [by right|done].
Qed.

Lemma embedded_checks_none fields :
  (∀ f, f ∈ fields → GetJavaType f = JAVATYPE_MESSAGE →
        HasRequiredFields (message_type f) = false) →
  embedded_checks fields = Some [].
Proof.
  induction fields as [|f fields IH]; intros Hpruned; [done|]. simpl.
  unfold embedded_message_check.
  rewrite IH by (intros g Hg; apply Hpruned; by right).
  destruct (GetJavaType f) eqn:Hjava; try done.
  rewrite (Hpruned f); [done|left|done].
Qed.

End IsInitialized.

(** C8 (as amended).  Every check of the generated [isInitialized()] that
    recurses into a field recurses into a message field whose type the
    analysis reports as possibly having required fields: fields whose
    type is reported not to need the check are left out.  And when no
    message reachable from the message has a required field or an
    extension range, no check at all is generated (the analysis being
    sound: it answers [true] only for a type from which a required field
    or an extension range is reachable). *)
Theorem C8_validation_tree_pruned (pool : DescriptorId → Descriptor)
    GetJavaType HasRequiredFields IsMapEntry map_value_type
    (message : DescriptorId) :
  (∀ tree check f,
     GenerateIsInitialized GetJavaType HasRequiredFields IsMapEntry
       map_value_type (pool message) = Some tree →
     check ∈ tree → recursion_target check = Some f →
     f ∈ field (pool message) ∧ GetJavaType f = JAVATYPE_MESSAGE
     ∧ HasRequiredFields (message_type f) = true)
  ∧ (analysis_sound pool GetJavaType HasRequiredFields →
     no_required_fields pool GetJavaType message →
     no_extension_ranges pool GetJavaType message →
     GenerateIsInitialized GetJavaType HasRequiredFields IsMapEntry
       map_value_type (pool message) = Some []).
Proof.
  split.
  - intros tree check f. unfold GenerateIsInitialized.
    destruct (embedded_message_checks _ _ _ _ _) as [embedded|] eqn:Hemb;
      [|done].
    intros [= <-] Hin Htarget.
    apply elem_of_app in Hin as [Hin|Hin].
    { exfalso. apply list_elem_of_In, in_flat_map in Hin as (g & _ & Hin).
      destruct (is_required g); [|done].
      destruct Hin as [<-|[]]. done. }
    apply elem_of_app in Hin as [Hin|Hin].
    { by eapply embedded_checks_target. }
    exfalso. destruct (0 <? extension_range_count (pool message))%nat;
      [|by inversion Hin].
    apply list_elem_of_singleton in Hin as ->. done.
  - intros Hsound Hnoreq Hnoext. unfold GenerateIsInitialized.
    rewrite embedded_checks_none.
    + assert (flat_map (λ f, if is_required f then [CheckHas f] else [])
                (field (pool message)) = []) as ->.
      { assert (∀ f, f ∈ field (pool message) → is_required f = false) as Hreq
          by (intros f Hf; by apply (Hnoreq message f); [constructor|]).
        induction (field (pool message)) as [|f fields IH]; [done|]. simpl.
        rewrite (Hreq f) by left. apply IH. intros g Hg. apply Hreq.
        by right. }
      rewrite (Hnoext message) by constructor. done.
    + intros f Hf Hjava.
      destruct (HasRequiredFields (message_type f)) eqn:Hreq; [|done].
      exfalso. apply Hsound in Hreq as (m & Hreach & Hbad).
      assert (reachable pool GetJavaType message m) as Hm.
      { clear Hbad. induction Hreach as [|via g Hvia IH Hg Hgj].
        - by apply (reachable_field _ _ _ message f); [constructor|..].
        - by apply (reachable_field _ _ _ via g). }
      destruct Hbad as [Hext|(g & Hg & Hgreq)].
      * rewrite (Hnoext m Hm) in Hext. lia.
      * rewrite (Hnoreq m g Hm Hg) in Hgreq. done.
Qed.

(** ** The theorems at concrete messages *)

Lemma C3_packable_field_has_two_entries_witness :
  entries_of Example.tags_field
    (GenerateBuilderFieldParsingCases Example.MakeTag
       Example.WireTypeForFieldType (Example.pool Example.Parent))
  = [ mkCase
        (Some (static_cast_int32
                 (Example.MakeTag (number Example.tags_field)
                    (Example.WireTypeForFieldType (type Example.tags_field)))))
        [FieldParsing GenerateBuilderParsingCode Example.tags_field];
      mkCase
        (Some (static_cast_int32
                 (Example.MakeTag (number Example.tags_field)
                    WIRETYPE_LENGTH_DELIMITED)))
        [FieldParsing GenerateBuilderParsingCodeFromPacked Example.tags_field] ]
  ∧ entries_of Example.tags_field
      (GenerateBuilderParsingMethods Example.MakeTag
         Example.WireTypeForFieldType (Example.pool Example.Parent))
    = entries_of Example.tags_field
        (GenerateBuilderFieldParsingCases Example.MakeTag
           Example.WireTypeForFieldType (Example.pool Example.Parent)).
Proof.
  apply (C3_packable_field_has_two_entries Example.MakeTag
           Example.WireTypeForFieldType (Example.pool Example.Parent)
           Example.tags_field).
  - apply (bool_decide_unpack _). by vm_compute.
  - simpl. do 2 right. left.
  - reflexivity.
Defined.

(** The tags of the scenario's message: 8 for [id], 18 for [child], and 24
    and 26 for the unpacked and the packed form of [tags]. *)
Example dispatch_table_of_scenario :
  map case_label
    (GenerateBuilderParsingMethods Example.MakeTag
       Example.WireTypeForFieldType (Example.pool Example.Parent))
  = [Some 0; Some 8; Some 18; Some 24; Some 26; None].
Proof. reflexivity. Qed.

Lemma C4_decode_loop_policy_witness :
  run_parsing_method (list Z) (list Z) Example.readTag
    Example.run_field_parsing Example.parseUnknownField Example.onChanged
    (GenerateBuilderParsingMethods Example.MakeTag
       Example.WireTypeForFieldType (Example.pool Example.Parent))
    false 1 [12; 8] []
  = if 12 =? 0 then Returned (list Z) (list Z) [8] (Example.onChanged [])
    else
      match Example.parseUnknownField 12 [8] [] with
      | None => Threw (list Z) (list Z)
      | Some (go_on, (input2, this')) =>
          if go_on then
            run_parsing_method (list Z) (list Z) Example.readTag
              Example.run_field_parsing Example.parseUnknownField
              Example.onChanged
              (GenerateBuilderParsingMethods Example.MakeTag
                 Example.WireTypeForFieldType (Example.pool Example.Parent))
              false 0 input2 this'
          else Returned (list Z) (list Z) input2 (Example.onChanged this')
      end.
Proof.
  apply (C4_decode_loop_policy Example.MakeTag Example.WireTypeForFieldType
           (list Z) (list Z) Example.readTag Example.run_field_parsing
           Example.parseUnknownField Example.onChanged
           (Example.pool Example.Parent) 0%nat [12; 8] [] 12 [8]).
  - reflexivity.
  - intros _ c Hc.
    change (c ∈ [ mkCase (Some 8)
                    [FieldParsing GenerateBuilderParsingCode Example.id_field];
                  mkCase (Some 18)
                    [FieldParsing GenerateBuilderParsingCode
                       Example.child_field];
                  mkCase (Some 24)
                    [FieldParsing GenerateBuilderParsingCode
                       Example.tags_field];
                  mkCase (Some 26)
                    [FieldParsing GenerateBuilderParsingCodeFromPacked
                       Example.tags_field] ]) in Hc.
    list_cases Hc; simpl; congruence.
Defined.

Lemma C5_merge_default_is_noop_witness :
  run_mergeFrom (list Z) bool (λ other, other)
    (λ f this other, number f :: this) (λ oneof other, Some 1)
    (λ this other, 100 :: this) (λ this other, 200 :: this)
    (λ this, 300 :: this)
    (mergeFrom_body elements (Example.pool Example.Choice)) [7] true
  = ([7], [ReturnThisIfDefaultInstance]).
Proof.
  apply (C5_merge_default_is_noop Example.field_generators_
           Example.HasGeneratedMethods elements (list Z) bool (λ other, other)
           (λ f this other, number f :: this) (λ oneof other, Some 1)
           (λ this other, 100 :: this) (λ this other, 200 :: this)
           (λ this, 300 :: this)
           (Example.pool Example.Choice)
           (mergeFrom_body elements (Example.pool Example.Choice))
           [7] true).
  - reflexivity.
  - reflexivity.
Defined.

Lemma C6_merge_order_witness :
  ∃ oneofs : list OneofId,
    NoDup oneofs
    ∧ (∀ oneof, oneof ∈ oneofs ↔
         ∃ f, f ∈ field (Example.pool Example.Choice)
              ∧ real_containing_oneof f = Some oneof)
    ∧ mergeFrom_body elements (Example.pool Example.Choice)
      = [ReturnThisIfDefaultInstance]
        ++ map FieldMerging
             (List.filter (λ f, negb (IsRealOneof f))
                (field (Example.pool Example.Choice)))
        ++ map (λ oneof,
                  OneofSwitch oneof
                    (oneof_fields (Example.pool Example.Choice) oneof))
               oneofs
        ++ (if (0 <? extension_range_count (Example.pool Example.Choice))%nat
            then [MergeExtensionFields] else [])
        ++ [MergeUnknownFields; OnChanged; ReturnThis]
    ∧ merge_actions (mergeFrom_body elements (Example.pool Example.Choice))
      = map FieldMerging
            (List.filter (λ f, negb (IsRealOneof f))
               (field (Example.pool Example.Choice)))
        ++ map (λ oneof,
                  OneofSwitch oneof
                    (oneof_fields (Example.pool Example.Choice) oneof))
               oneofs
        ++ (if (0 <? extension_range_count (Example.pool Example.Choice))%nat
            then [MergeExtensionFields] else [])
        ++ [MergeUnknownFields]
    ∧ run_mergeFrom (list Z) bool (λ other, other)
        (λ f this other, number f :: this) (λ oneof other, Some 2)
        (λ this other, 100 :: this) (λ this other, 200 :: this)
        (λ this, 300 :: this)
        (mergeFrom_body elements (Example.pool Example.Choice)) [7] false
      = ((λ this, 300 :: this)
           (fold_left
              (λ b stmt,
                 exec_merge_stmt (list Z) bool
                   (λ f this other, number f :: this) (λ oneof other, Some 2)
                   (λ this other, 100 :: this) (λ this other, 200 :: this)
                   (λ this, 300 :: this) stmt b false)
              (merge_actions
                 (mergeFrom_body elements (Example.pool Example.Choice)))
              [7]),
         mergeFrom_body elements (Example.pool Example.Choice)).
Proof.
  destruct (C6_merge_order Example.field_generators_
              Example.HasGeneratedMethods elements
              (Example.pool Example.Choice)
              (mergeFrom_body elements (Example.pool Example.Choice)))
    as (oneofs & Hnodup & Hmem & Hbody & Hactions & Hrun).
  - intros s. reflexivity.
  - reflexivity.
  - exists oneofs. split; [exact Hnodup|]. split; [exact Hmem|].
    split; [exact Hbody|]. split; [exact Hactions|].
    apply (Hrun (list Z) bool (λ other, other)
             (λ f this other, number f :: this) (λ oneof other, Some 2)
             (λ this other, 100 :: this) (λ this other, 200 :: this)
             (λ this, 300 :: this) [7] false).
    reflexivity.
Defined.

(** The run behind the lemma above: on the builder [[7]], the field [c]
    (number 3) is merged first, then the member [b] (number 2) that is set
    in the oneof, then the extensions (100), then the unknown fields (200),
    and [onChanged()] (300) runs last; every statement of the body is
    executed. *)
Example merge_order_of_scenario :
  run_mergeFrom (list Z) bool (λ other, other)
    (λ f this other, number f :: this) (λ oneof other, Some 2)
    (λ this other, 100 :: this) (λ this other, 200 :: this)
    (λ this, 300 :: this)
    (mergeFrom_body elements (Example.pool Example.Choice)) [7] false
  = ([300; 200; 100; 2; 3; 7],
     [ReturnThisIfDefaultInstance;
      FieldMerging Example.c_field;
      OneofSwitch 0%nat [Example.a_field; Example.b_field];
      MergeExtensionFields; MergeUnknownFields; OnChanged; ReturnThis]).
Proof. by vm_compute. Qed.

Lemma C7_bit_field_words_witness :
  Generate_bit_fields Example.field_generators_ (Example.pool Example.Parent)
    = map PrivateIntBitField [0]
  ∧ buildPartial (GenerateCommonBuilderMethods Example.field_generators_
                    Example.HasGeneratedMethods elements
                    (Example.pool Example.Parent))
    = map FromBitField [0]
      ++ map ToBitField [0]
      ++ map FieldBuilding (field (Example.pool Example.Parent))
      ++ map ResultBitField [0]
      ++ map ResultOneofCase (elements (oneofs_ (Example.pool Example.Parent)))
      ++ [OnBuilt; ReturnResult]
  ∧ 32 * (1 - 1) < 3 <= 32 * 1
  ∧ 32 * (1 - 1) < 2 <= 32 * 1.
Proof.
  apply (C7_bit_field_words Example.field_generators_
           Example.HasGeneratedMethods elements (Example.pool Example.Parent)).
  - intros f Hf. simpl in Hf. list_cases Hf; simpl; lia.
  - simpl. lia.
Defined.

Lemma Example_analysis_sound :
  analysis_sound Example.pool Example.GetJavaType Example.HasRequiredFields.
Proof.
  intros message Htrue.
  destruct message as [|[|[|[|[|message]]]]]; try discriminate Htrue.
  - exists Example.Parent. split; [constructor|]. right.
    exists Example.id_field. split; [left|done].
  - exists Example.Extendable. split; [constructor|]. left. simpl. lia.
  - exists Example.Choice. split; [constructor|]. left. simpl. lia.
Qed.

Lemma Example_reachable_Holder m :
  reachable Example.pool Example.GetJavaType Example.Holder m →
  m = Example.Holder ∨ m = Example.Msg.
Proof.
  induction 1 as [|via f _ IH Hf Hjava]; [by left|].
  destruct IH as [-> | ->]; simpl in Hf.
  - list_cases Hf. by right.
  - by inversion Hf.
Qed.

Lemma Example_reachable_Extendable m :
  reachable Example.pool Example.GetJavaType Example.Extendable m →
  m = Example.Extendable.
Proof.
  induction 1 as [|via f _ IH Hf Hjava]; [done|].
  subst via. by inversion Hf.
Qed.

Lemma C8_validation_tree_pruned_witness :
  (∀ tree check f,
     GenerateIsInitialized Example.GetJavaType Example.HasRequiredFields
       Example.IsMapEntry Example.map_value_type
       (Example.pool Example.Holder) = Some tree →
     check ∈ tree → recursion_target check = Some f →
     f ∈ field (Example.pool Example.Holder)
     ∧ Example.GetJavaType f = JAVATYPE_MESSAGE
     ∧ Example.HasRequiredFields (message_type f) = true)
  ∧ GenerateIsInitialized Example.GetJavaType Example.HasRequiredFields
      Example.IsMapEntry Example.map_value_type
      (Example.pool Example.Holder) = Some [].
Proof.
  destruct (C8_validation_tree_pruned Example.pool Example.GetJavaType
              Example.HasRequiredFields Example.IsMapEntry
              Example.map_value_type Example.Holder) as [Hpruned Hempty].
  split; [exact Hpruned|]. apply Hempty.
  - exact Example_analysis_sound.
  - intros m f Hm Hf.
    destruct (Example_reachable_Holder m Hm) as [-> | ->]; simpl in Hf.
    + list_cases Hf. reflexivity.
    + by inversion Hf.
  - intros m Hm.
    destruct (Example_reachable_Holder m Hm) as [-> | ->]; reflexivity.
Defined.

(** C8 as the specification states it fails: nothing reachable from
    [Extendable] has a required field, and its [isInitialized()] still
    checks the extensions, whatever the analysis answers. *)
Lemma C8_extension_ranges_counterexample :
  no_required_fields Example.pool Example.GetJavaType Example.Extendable
  ∧ ∀ HasRequiredFields,
      GenerateIsInitialized Example.GetJavaType HasRequiredFields
        Example.IsMapEntry Example.map_value_type
        (Example.pool Example.Extendable) = Some [CheckExtensions].
Proof.
  split.
  - intros m f Hm Hf.
    apply Example_reachable_Extendable in Hm as ->. by inversion Hf.
  - reflexivity.
Qed.

(** ** Further properties of the generated builder *)

(** *** The dispatch table *)

Lemma length_flat_map_Permutation {A B} (g : A → list B) (l l' : list A) :
  l ≡ₚ l' → length (flat_map g l) = length (flat_map g l').
Proof.
  induction 1 as [|x l l' _ IH|x y l|l l' l'' _ IH1 _ IH2]; simpl.
  - done.
  - by rewrite !length_app, IH.
  - rewrite !length_app. lia.
  - congruence.
Qed.

Lemma length_field_cases MakeTag WireTypeForFieldType
    (fields : list FieldDescriptor) :
  length
    (flat_map
       (λ f, GenerateBuilderFieldParsingCase MakeTag WireTypeForFieldType f
             :: (if is_packable f
                 then [GenerateBuilderPackedFieldParsingCase MakeTag f]
                 else []))
       fields)
  = (length fields + length (List.filter is_packable fields))%nat.
Proof.
  induction fields as [|f fields IH]; [done|]. simpl.
  rewrite length_app, IH. destruct (is_packable f); simpl; lia.
Qed.

(** X10.  The [switch] of the generated parsing method has the case for
    tag 0, the default case, one case for every field of the message and
    one more for every packable field, whatever the field numbers are. *)
Theorem X10_dispatch_table_size MakeTag WireTypeForFieldType
    (descriptor : Descriptor) :
  length (GenerateBuilderParsingMethods MakeTag WireTypeForFieldType descriptor)
  = (2 + length (field descriptor)
     + length (List.filter is_packable (field descriptor)))%nat
  ∧ hd_error
      (GenerateBuilderParsingMethods MakeTag WireTypeForFieldType descriptor)
    = Some (mkCase (Some 0) [SetDone])
  ∧ last
      (GenerateBuilderParsingMethods MakeTag WireTypeForFieldType descriptor)
    = Some (mkCase None [ParseUnknownFieldOrDone]).
Proof.
  unfold GenerateBuilderParsingMethods. split; [|split].
  - rewrite !length_app. simpl.
    unfold GenerateBuilderFieldParsingCases, SortFieldsByNumber.
    rewrite (length_flat_map_Permutation _ _ (field descriptor))
      by apply std_sort_Permutation.
    rewrite length_field_cases. lia.
  - done.
  - simpl. rewrite last_cons, last_snoc. done.
Qed.

(** X11.  A field that is not packable has exactly one entry in the
    dispatch table: the case whose tag is made from the wire type of its
    own type and which runs its parsing code; no case for the packed form
    is generated for it. *)
Theorem X11_unpackable_field_has_one_entry MakeTag WireTypeForFieldType
    (descriptor : Descriptor) (f : FieldDescriptor) :
  NoDup (map number (field descriptor)) →
  f ∈ field descriptor →
  is_packable f = false →
  entries_of f
    (GenerateBuilderParsingMethods MakeTag WireTypeForFieldType descriptor)
  = [ mkCase
        (Some (static_cast_int32
                 (MakeTag (number f) (WireTypeForFieldType (type f)))))
        [FieldParsing GenerateBuilderParsingCode f] ].
Proof.
  intros Hnodup Hin Hpack.
  assert (SortFieldsByNumber descriptor ≡ₚ field descriptor) as Hperm
    by apply std_sort_Permutation.
  unfold GenerateBuilderParsingMethods.
  rewrite !entries_of_app.
  unfold GenerateBuilderFieldParsingCases.
  rewrite (entries_of_flat_map _ f).
  - rewrite Hpack. unfold entries_of. simpl. by rewrite Z.eqb_refl.
  - by rewrite (Permutation_map number Hperm).
  - by rewrite Hperm.
  - intros x Hne. apply Z.eqb_neq in Hne. unfold entries_of. simpl.
    rewrite Hne. destruct (is_packable x); simpl; [|done]. by rewrite Hne.
Qed.

Section Labels.
Variable MakeTag : Z → WireType → Z.
Variable WireTypeForFieldType : FieldType → WireType.

Local Abbreviation cases_of_field :=
  (λ f, GenerateBuilderFieldParsingCase MakeTag WireTypeForFieldType f
        :: (if is_packable f
            then [GenerateBuilderPackedFieldParsingCase MakeTag f] else [])).

Lemma field_case_label (fields : list FieldDescriptor) (l : option Z) :
  l ∈ map case_label (flat_map cases_of_field fields) →
  ∃ f w, f ∈ fields ∧ l = Some (static_cast_int32 (MakeTag (number f) w)).
Proof.
  induction fields as [|f fields IH]; simpl; [by inversion 1|].
  intros Hin. apply elem_of_cons in Hin as [->|Hin].
  { exists f, (WireTypeForFieldType (type f)). split; [left|done]. }
  rewrite map_app in Hin. apply elem_of_app in Hin as [Hin|Hin].
  - destruct (is_packable f); [|by inversion Hin].
    apply list_elem_of_singleton in Hin as ->.
    exists f, WIRETYPE_LENGTH_DELIMITED. split; [left|done].
  - destruct (IH Hin) as (g & w & Hg & ->). exists g, w. split; [by right|done].
Qed.

Lemma field_case_labels_NoDup (fields : list FieldDescriptor) :
  NoDup (map number fields) →
  (∀ f g w v, f ∈ fields → g ∈ fields →
     static_cast_int32 (MakeTag (number f) w)
     = static_cast_int32 (MakeTag (number g) v) →
     number f = number g ∧ w = v) →
  (∀ f, f ∈ fields → is_packable f = true →
     WireTypeForFieldType (type f) ≠ WIRETYPE_LENGTH_DELIMITED) →
  NoDup (map case_label (flat_map cases_of_field fields)).
Proof.
  induction fields as [|f fields IH]; intros Hnum Hinj Hpack; simpl;
    [constructor|].
  simpl in Hnum. apply NoDup_cons in Hnum as [Hf Hnum].
  assert (NoDup (map case_label (flat_map cases_of_field fields))) as Hrest.
  { apply IH; [done| |].
    - intros g h w v Hg Hh. apply Hinj; by right.
    - intros g Hg. apply Hpack. by right. }
  assert (∀ w, Some (static_cast_int32 (MakeTag (number f) w))
               ∉ map case_label (flat_map cases_of_field fields)) as Hfresh.
  { intros w Hin. apply field_case_label in Hin as (g & v & Hg & Heq).
    injection Heq as Heq.
    destruct (Hinj f g w v) as [Hsame _]; [left|by right|done|].
    apply Hf. rewrite Hsame. apply list_elem_of_In, in_map.
    by apply list_elem_of_In. }
  rewrite map_app. apply NoDup_cons. split.
  - intros Hin. apply elem_of_app in Hin as [Hin|Hin]; [|by eapply Hfresh].
    destruct (is_packable f) eqn:Hp; [|by inversion Hin].
    apply list_elem_of_singleton in Hin. injection Hin as Heq.
    destruct (Hinj f f _ _ ltac:(left) ltac:(left) Heq) as [_ Hw].
    by apply (Hpack f); [left|..].
  - apply NoDup_app. split; [|split; [|done]].
    + destruct (is_packable f); simpl; [|constructor].
      apply NoDup_singleton.
    + intros l Hl. destruct (is_packable f); [|by inversion Hl].
      apply list_elem_of_singleton in Hl as ->. apply Hfresh.
Qed.

End Labels.

(** X12.  The labels of the generated [switch] are pairwise distinct, so
    every tag selects at most one case: when the field numbers of the
    message are pairwise distinct, no packable field has the
    length-delimited wire type, and [MakeTag] followed by the cast to
    [int32_t] gives different tags, none equal to 0, for different pairs of
    a field number of the message and a wire type. *)
Theorem X12_case_labels_are_distinct MakeTag WireTypeForFieldType
    (descriptor : Descriptor) :
  NoDup (map number (field descriptor)) →
  (∀ f g w v, f ∈ field descriptor → g ∈ field descriptor →
     static_cast_int32 (MakeTag (number f) w)
     = static_cast_int32 (MakeTag (number g) v) →
     number f = number g ∧ w = v) →
  (∀ f w, f ∈ field descriptor →
     static_cast_int32 (MakeTag (number f) w) ≠ 0) →
  (∀ f, f ∈ field descriptor → is_packable f = true →
     WireTypeForFieldType (type f) ≠ WIRETYPE_LENGTH_DELIMITED) →
  NoDup (map case_label
           (GenerateBuilderParsingMethods MakeTag WireTypeForFieldType
              descriptor)).
Proof.
  intros Hnum Hinj Hnonzero Hpack.
  assert (SortFieldsByNumber descriptor ≡ₚ field descriptor) as Hperm
    by apply std_sort_Permutation.
  assert (NoDup (map case_label
                   (GenerateBuilderFieldParsingCases MakeTag
                      WireTypeForFieldType descriptor))) as Hfields.
  { apply field_case_labels_NoDup.
    - by rewrite (Permutation_map number Hperm).
    - intros f g w v Hf Hg. apply Hinj; by rewrite <- Hperm.
    - intros f Hf. apply Hpack. by rewrite <- Hperm. }
  unfold GenerateBuilderParsingMethods. rewrite !map_app. simpl.
  apply NoDup_cons. split.
  - intros Hin. apply elem_of_app in Hin as [Hin|Hin].
    + apply field_case_label in Hin as (f & w & Hf & Heq).
      injection Heq as Heq. apply (Hnonzero f w); [by rewrite <- Hperm|done].
    + apply list_elem_of_singleton in Hin. done.
  - apply NoDup_app. split; [done|split; [|apply NoDup_singleton]].
    intros l Hl Hnone. apply list_elem_of_singleton in Hnone as ->.
    apply field_case_label in Hl as (f & w & _ & Heq). done.
Qed.

Section KnownTag.
Variables Input Builder : Type.

Lemma find_label_unique (cases : list SwitchCase) (c : SwitchCase) tag :
  NoDup (map case_label cases) → c ∈ cases → case_label c = Some tag →
  find (λ c, bool_decide (case_label c = Some tag)) cases = Some c.
Proof.
  induction cases as [|c' cases IH]; intros Hnodup Hin Hlabel;
    [by inversion Hin|].
  simpl in Hnodup. apply NoDup_cons in Hnodup as [Hfresh Hnodup]. simpl.
  apply elem_of_cons in Hin as [->|Hin].
  - by rewrite bool_decide_eq_true_2.
  - rewrite bool_decide_eq_false_2; [by apply IH|].
    intros Heq. apply Hfresh. rewrite Heq, <- Hlabel.
    apply list_elem_of_In, in_map. by apply list_elem_of_In.
Qed.

End KnownTag.

(** X13.  In the generated parsing method, when the tag read is the label
    of a case of a field (the labels of the [switch] being pairwise
    distinct, as Java demands), the parsing code of that case runs on the
    input after the tag, and the loop goes on with what it leaves; the
    method throws only when that code throws.  The handler of unknown
    fields is not called. *)
Theorem X13_known_tag_runs_field_parsing MakeTag WireTypeForFieldType
    (Input Builder : Type) readTag run_field_parsing parseUnknownField
    (onChanged : Builder → Builder)
    (descriptor : Descriptor) (fuel : nat) (input0 : Input) (this : Builder)
    (tag : Z) (input1 : Input) (call : FieldGeneratorCall)
    (f : FieldDescriptor) :
  NoDup (map case_label
           (GenerateBuilderParsingMethods MakeTag WireTypeForFieldType
              descriptor)) →
  mkCase (Some tag) [FieldParsing call f]
    ∈ GenerateBuilderFieldParsingCases MakeTag WireTypeForFieldType
        descriptor →
  readTag input0 = Some (tag, input1) →
  run_parsing_method Input Builder readTag run_field_parsing
    parseUnknownField onChanged
    (GenerateBuilderParsingMethods MakeTag WireTypeForFieldType descriptor)
    false (S fuel) input0 this
  = match run_field_parsing call f input1 this with
    | None => Threw Input Builder
    | Some (input2, this') =>
        run_parsing_method Input Builder readTag run_field_parsing
          parseUnknownField onChanged
          (GenerateBuilderParsingMethods MakeTag WireTypeForFieldType
             descriptor)
          false fuel input2 this'
    end.
Proof.
  intros Hnodup Hcase Hread. unfold run_parsing_method.
  cbn [run_loop done input builder]. rewrite Hread.
  assert (select_case tag
            (GenerateBuilderParsingMethods MakeTag WireTypeForFieldType
               descriptor)
          = Some (mkCase (Some tag) [FieldParsing call f])) as ->.
  { unfold select_case.
    rewrite (find_label_unique _ (mkCase (Some tag) [FieldParsing call f]));
      [done|done| |done].
    unfold GenerateBuilderParsingMethods.
    apply elem_of_app. right. apply elem_of_app. by left. }
  cbn [case_body exec_parse_stmts exec_parse_stmt input builder done].
  by destruct (run_field_parsing call f input1 this) as [[input2 this']|].
Qed.

(** *** Running [mergeFrom($classname$ other)] *)

(** X14.  When [other] is not the default instance, the generated
    [mergeFrom($classname$ other)] executes every one of its statements
    once, in the order in which they were printed, and returns the builder
    obtained by running the merge actions in that order and then
    [onChanged()]. *)
Theorem X14_merge_runs_every_action field_generators_ HasGeneratedMethods
    oneofs_iteration (Builder Message : Type) is_default_instance
    run_field_merging oneof_case mergeExtensionFields mergeUnknownFields
    (onChanged : Builder → Builder)
    (descriptor : Descriptor) (body : list MergeStmt)
    (this : Builder) (other : Message) :
  mergeFrom (GenerateCommonBuilderMethods field_generators_
               HasGeneratedMethods oneofs_iteration descriptor) = Some body →
  is_default_instance other = false →
  run_mergeFrom Builder Message is_default_instance run_field_merging
    oneof_case mergeExtensionFields mergeUnknownFields onChanged
    body this other
  = (onChanged
       (fold_left
          (λ b stmt,
             exec_merge_stmt Builder Message run_field_merging oneof_case
               mergeExtensionFields mergeUnknownFields onChanged stmt b other)
          (merge_actions body) this),
     body).
Proof.
  unfold GenerateCommonBuilderMethods. simpl.
  destruct (HasGeneratedMethods descriptor); [|done].
  intros [= <-] Hdefault.
  destruct (mergeFrom_body_actions oneofs_iteration descriptor)
    as (actions & Hactions & ->).
  change (ReturnThisIfDefaultInstance :: actions ++ [OnChanged; ReturnThis])
    with ([ReturnThisIfDefaultInstance] ++ actions ++ [OnChanged; ReturnThis])
    at 2.
  rewrite !merge_actions_app, (merge_actions_all actions) by done.
  change (merge_actions [ReturnThisIfDefaultInstance]) with (@nil MergeStmt).
  change (merge_actions [OnChanged; ReturnThis]) with (@nil MergeStmt).
  rewrite app_nil_l, app_nil_r.
  cbn [run_mergeFrom]. rewrite Hdefault.
  rewrite run_merge_actions by done. done.
Qed.

(** *** [isInitialized()] *)

Section Initialized.
Variable GetJavaType : FieldDescriptor → JavaType.
Variable HasRequiredFields : DescriptorId → bool.
Variable IsMapEntry : DescriptorId → bool.
Variable map_value_type : DescriptorId → FieldType.

Local Abbreviation embedded_check :=
  (embedded_message_check GetJavaType HasRequiredFields IsMapEntry
     map_value_type).
Local Abbreviation embedded_checks :=
  (embedded_message_checks GetJavaType HasRequiredFields IsMapEntry
     map_value_type).

(** The fields at which [MapValueImmutableClassdName] aborts. *)
Local Abbreviation aborts f :=
  (GetJavaType f = JAVATYPE_MESSAGE
   ∧ HasRequiredFields (message_type f) = true
   ∧ label f = LABEL_REPEATED
   ∧ IsMapEntry (message_type f) = true
   ∧ map_value_type (message_type f) ≠ TYPE_MESSAGE).

Lemma embedded_check_None f : embedded_check f = None ↔ aborts f.
Proof.
  unfold embedded_message_check, MapValueImmutableClassdName.
  destruct (GetJavaType f), (HasRequiredFields (message_type f)), (label f),
    (IsMapEntry (message_type f)), (map_value_type (message_type f));
    split; try done; try (by intros (? & ? & ? & ? & ?)).
Qed.

Lemma embedded_checks_None fields :
  embedded_checks fields = None ↔ ∃ f, f ∈ fields ∧ aborts f.
Proof.
  induction fields as [|f fields IH]; simpl.
  - split; [done|]. intros (f & Hf & _). by inversion Hf.
  - destruct (embedded_check f) as [checks|] eqn:Hcheck.
    + destruct (embedded_checks fields) as [more|].
      * split; [done|]. intros (g & Hg & Hab).
        apply elem_of_cons in Hg as [->|Hg].
        -- apply embedded_check_None in Hab. congruence.
        -- destruct IH as [_ IH]. discriminate IH. by exists g.
      * split; [|done]. intros _.
        destruct IH as [IH _]. destruct (IH eq_refl) as (g & Hg & Hab).
        exists g. split; [by right|done].
    + split; [|done]. intros _. exists f. split; [left|].
      by apply embedded_check_None.
Qed.

Section Meaning.
Variable has : FieldDescriptor → bool.
Variable message_initialized : FieldDescriptor → bool.
Variable elements_initialized : FieldDescriptor → list bool.
Variable extensionsAreInitialized : bool.

Local Abbreviation passes :=
  (check_passes has message_initialized elements_initialized
     extensionsAreInitialized).
Local Abbreviation run :=
  (run_isInitialized has message_initialized elements_initialized
     extensionsAreInitialized).

(** What the check of an embedded message demands of one field. *)
Local Abbreviation embedded_ok f :=
  (GetJavaType f = JAVATYPE_MESSAGE →
   HasRequiredFields (message_type f) = true →
   match label f with
   | LABEL_REQUIRED => message_initialized f = true
   | LABEL_OPTIONAL => has f = true → message_initialized f = true
   | LABEL_REPEATED => ∀ ok, ok ∈ elements_initialized f → ok = true
   end).

Lemma run_isInitialized_Forall checks :
  run checks = true ↔ Forall (λ check, passes check = true) checks.
Proof.
  induction checks as [|check checks IH]; simpl; [by split; [constructor|]|].
  rewrite Forall_cons. destruct (passes check); [|by split; [|intros []]].
  rewrite IH. by split; [|intros []].
Qed.

Lemma required_checks_pass fields :
  Forall (λ check, passes check = true)
    (flat_map (λ f, if is_required f then [CheckHas f] else []) fields)
  ↔ ∀ f, f ∈ fields → is_required f = true → has f = true.
Proof.
  induction fields as [|f fields IH]; simpl.
  - split; [|constructor]. intros _ f Hf. by inversion Hf.
  - rewrite Forall_app, IH. split.
    + intros [Hf Hrest] g Hg Hreq. apply elem_of_cons in Hg as [->|Hg].
      * rewrite Hreq, Forall_singleton in Hf. exact Hf.
      * by apply Hrest.
    + intros Hall. split.
      * destruct (is_required f) eqn:Hreq; [|constructor].
        apply Forall_singleton. simpl. apply Hall; [left|done].
      * intros g Hg. apply Hall. by right.
Qed.

Lemma forallb_id (l : list bool) :
  forallb (λ ok, ok) l = true ↔ ∀ ok, ok ∈ l → ok = true.
Proof.
  rewrite forallb_forall. split; intros H ok Hok; apply H;
    by apply list_elem_of_In.
Qed.

Lemma embedded_check_passes f checks :
  embedded_check f = Some checks →
  Forall (λ check, passes check = true) checks ↔ embedded_ok f.
Proof.
  unfold embedded_message_check.
  destruct (GetJavaType f) eqn:Hjava;
    try (intros [= <-]; split; [done|constructor]).
  destruct (HasRequiredFields (message_type f)) eqn:Hreq;
    [|intros [= <-]; split; [done|constructor]].
  destruct (label f).
  - intros [= <-]. rewrite Forall_singleton. simpl.
    destruct (has f); [|by split]. split; auto.
  - intros [= <-]. rewrite Forall_singleton. simpl. split; auto.
  - destruct (IsMapEntry (message_type f)).
    + destruct (MapValueImmutableClassdName map_value_type (message_type f));
        [|done].
      intros [= <-]. rewrite Forall_singleton. simpl. rewrite forallb_id.
      split; auto.
    + intros [= <-]. rewrite Forall_singleton. simpl. rewrite forallb_id.
      split; auto.
Qed.

Lemma embedded_checks_pass fields checks :
  embedded_checks fields = Some checks →
  Forall (λ check, passes check = true) checks
  ↔ ∀ f, f ∈ fields → embedded_ok f.
Proof.
  revert checks. induction fields as [|f fields IH]; intros checks; simpl.
  - intros [= <-]. split; [|constructor]. intros _ f Hf. by inversion Hf.
  - destruct (embedded_check f) as [first|] eqn:Hfirst; [|done].
    destruct (embedded_checks fields) as [more|] eqn:Hmore; [|done].
    intros [= <-]. rewrite Forall_app.
    rewrite (embedded_check_passes f first Hfirst), (IH more eq_refl).
    split.
    + intros [Hf Hrest] g Hg.
      apply elem_of_cons in Hg as [->|Hg]; [exact Hf|by apply Hrest].
    + intros Hall. split; [apply Hall; left|].
      intros g Hg. apply Hall. by right.
Qed.

End Meaning.

End Initialized.

(** X15.  [GenerateIsInitialized] aborts, on the check of
    [MapValueImmutableClassdName], exactly when the message has a map field
    whose entry type is reported as possibly having required fields and
    whose value type is not a message; for every other message it returns
    the checks. *)
Theorem X15_generator_aborts_on_map_of_non_messages GetJavaType
    HasRequiredFields IsMapEntry map_value_type (descriptor : Descriptor) :
  GenerateIsInitialized GetJavaType HasRequiredFields IsMapEntry
    map_value_type descriptor = None
  ↔ ∃ f, f ∈ field descriptor
         ∧ GetJavaType f = JAVATYPE_MESSAGE
         ∧ HasRequiredFields (message_type f) = true
         ∧ label f = LABEL_REPEATED
         ∧ IsMapEntry (message_type f) = true
         ∧ map_value_type (message_type f) ≠ TYPE_MESSAGE.
Proof.
  rewrite <- embedded_checks_None. unfold GenerateIsInitialized.
  by destruct (embedded_message_checks _ _ _ _ _).
Qed.

(** X16.  The generated [isInitialized()] answers [true] exactly when every
    required field of the message is set, every message field whose type
    is reported as possibly having required fields is initialized (a
    required one always, an optional one when it is set, and every element
    of a repeated one or value of a map), and, when the message has
    extension ranges, the extensions are initialized. *)
Theorem X16_isInitialized_meaning GetJavaType HasRequiredFields IsMapEntry
    map_value_type has message_initialized elements_initialized
    (extensionsAreInitialized : bool)
    (descriptor : Descriptor) (checks : list InitCheck) :
  GenerateIsInitialized GetJavaType HasRequiredFields IsMapEntry
    map_value_type descriptor = Some checks →
  run_isInitialized has message_initialized elements_initialized
    extensionsAreInitialized checks = true
  ↔ (∀ f, f ∈ field descriptor → is_required f = true → has f = true)
    ∧ (∀ f, f ∈ field descriptor →
         GetJavaType f = JAVATYPE_MESSAGE →
         HasRequiredFields (message_type f) = true →
         match label f with
         | LABEL_REQUIRED => message_initialized f = true
         | LABEL_OPTIONAL => has f = true → message_initialized f = true
         | LABEL_REPEATED => ∀ ok, ok ∈ elements_initialized f → ok = true
         end)
    ∧ ((0 < extension_range_count descriptor)%nat →
       extensionsAreInitialized = true).
Proof.
  unfold GenerateIsInitialized.
  destruct (embedded_message_checks _ _ _ _ _) as [embedded|] eqn:Hemb;
    [|done].
  intros [= <-].
  rewrite run_isInitialized_Forall, !Forall_app, required_checks_pass.
  rewrite (embedded_checks_pass _ _ _ _ _ _ _ _ _ _ Hemb).
  assert (Forall
            (λ check,
               check_passes has message_initialized elements_initialized
                 extensionsAreInitialized check = true)
            (if (0 <? extension_range_count descriptor)%nat
             then [CheckExtensions] else [])
          ↔ ((0 < extension_range_count descriptor)%nat →
             extensionsAreInitialized = true)) as ->; [|done].
  destruct (0 <? extension_range_count descriptor)%nat eqn:Hext.
  - apply Nat.ltb_lt in Hext. rewrite Forall_singleton. simpl.
    split; auto.
  - apply Nat.ltb_ge in Hext. split; [|constructor]. intros _ Hpos. lia.
Qed.

(** *** Bit fields *)

(** X17.  Whatever numbers of bits the field generators ask for, the
    [from_bitField] locals that [buildPartial()] reads are the bit-field
    members that [Generate] declares in the builder, and the words that
    [buildPartial()] copies into the result are the [to_bitField] locals it
    declared, in the same order. *)
Theorem X17_bit_field_members_match_buildPartial field_generators_
    HasGeneratedMethods oneofs_iteration (descriptor : Descriptor) :
  ∃ totalBuilderInts totalMessageInts : Z,
    Generate_bit_fields field_generators_ descriptor
    = map PrivateIntBitField (int_range totalBuilderInts)
    ∧ buildPartial (GenerateCommonBuilderMethods field_generators_
                      HasGeneratedMethods oneofs_iteration descriptor)
      = map FromBitField (int_range totalBuilderInts)
        ++ map ToBitField (int_range totalMessageInts)
        ++ map FieldBuilding (field descriptor)
        ++ map ResultBitField (int_range totalMessageInts)
        ++ map ResultOneofCase (oneofs_iteration (oneofs_ descriptor))
        ++ [OnBuilt; ReturnResult].
Proof.
  eexists _, _. split; [reflexivity|].
  unfold GenerateCommonBuilderMethods, buildPartial_body. simpl.
  rewrite (fold_pair_split
             (λ f, GetNumBitsForBuilder (field_generators_ f))
             (λ f, GetNumBitsForMessage (field_generators_ f))).
  reflexivity.
Qed.

(** *** The accessors of map fields *)

Section MapFields.
Variable GetJavaType : FieldDescriptor → JavaType.
Variable IsMapEntry : DescriptorId → bool.

Lemma elem_of_map_fields (descriptor : Descriptor) f :
  f ∈ map_fields GetJavaType IsMapEntry descriptor
  ↔ f ∈ field descriptor ∧ GetJavaType f = JAVATYPE_MESSAGE
    ∧ IsMapEntry (message_type f) = true.
Proof.
  unfold map_fields. rewrite !list_elem_of_In, filter_In.
  destruct (GetJavaType f); split; try (by intros (? & ? & ?));
    try (by intros [? ?]).
Qed.

Lemma run_map_switch_spec (fields : list FieldDescriptor) (n : Z) f :
  NoDup (map number fields) →
  run_map_switch (map (λ f, mkMapCase (number f) f) fields) n = Some f
  ↔ f ∈ fields ∧ number f = n.
Proof.
  unfold run_map_switch.
  induction fields as [|g fields IH]; intros Hnodup; simpl.
  - split; [done|]. intros [Hf _]. by inversion Hf.
  - simpl in Hnodup. apply NoDup_cons in Hnodup as [Hg Hnodup].
    destruct (number g =? n) eqn:Hn.
    + apply Z.eqb_eq in Hn. split.
      * intros [= <-]. split; [left|done].
      * intros [Hf Hnum]. apply elem_of_cons in Hf as [->|Hf]; [done|].
        exfalso. apply Hg. rewrite Hn, <- Hnum.
        apply list_elem_of_In, in_map. by apply list_elem_of_In.
    + apply Z.eqb_neq in Hn. rewrite (IH Hnodup). split.
      * intros [Hf Hnum]. split; [by right|done].
      * intros [Hf Hnum]. apply elem_of_cons in Hf as [->|Hf]; [done|].
        done.
Qed.

End MapFields.

(** X18.  [internalGetMapField] and [internalGetMutableMapField] are
    generated exactly when the message has a map field, with the same
    cases; called with a number, they return the map of the field of the
    message that has this number when that field is a map field, and throw
    for every other number (the field numbers of the message being
    pairwise distinct).  [getDescriptor()] is generated unless the option
    [no_standard_descriptor_accessor] is set. *)
Theorem X18_map_field_accessors GetJavaType IsMapEntry
    no_standard_descriptor_accessor (descriptor : Descriptor) :
  NoDup (map number (field descriptor)) →
  let methods :=
    GenerateDescriptorMethods GetJavaType IsMapEntry
      no_standard_descriptor_accessor descriptor in
  getDescriptor methods = negb (no_standard_descriptor_accessor descriptor)
  ∧ internalGetMutableMapField methods = internalGetMapField methods
  ∧ (internalGetMapField methods = None
     ↔ ∀ f, f ∈ field descriptor → GetJavaType f = JAVATYPE_MESSAGE →
            IsMapEntry (message_type f) = false)
  ∧ ∀ cases, internalGetMapField methods = Some cases →
      ∀ n f, run_map_switch cases n = Some f
             ↔ f ∈ field descriptor ∧ number f = n
               ∧ GetJavaType f = JAVATYPE_MESSAGE
               ∧ IsMapEntry (message_type f) = true.
Proof.
  intros Hnodup methods. subst methods. unfold GenerateDescriptorMethods.
  cbn [getDescriptor internalGetMapField internalGetMutableMapField].
  split; [done|split; [done|split]].
  - pose proof (elem_of_map_fields GetJavaType IsMapEntry descriptor) as Hmem.
    destruct (map_fields GetJavaType IsMapEntry descriptor) as [|g fields].
    + split; [|done]. intros _ f Hf Hjava.
      destruct (IsMapEntry (message_type f)) eqn:Hmap; [|done].
      exfalso. assert (f ∈ @nil FieldDescriptor) as Hin by by apply Hmem.
      by inversion Hin.
    + split; [done|]. intros Hnone. exfalso.
      assert (g ∈ g :: fields) as Hg by left.
      apply Hmem in Hg as (Hg & Hjava & Hmap).
      rewrite (Hnone g Hg Hjava) in Hmap. done.
  - intros cases Hcases n f.
    assert (cases = map (λ f, mkMapCase (number f) f)
                      (map_fields GetJavaType IsMapEntry descriptor)) as ->.
    { destruct (map_fields GetJavaType IsMapEntry descriptor); [done|].
      by injection Hcases as <-. }
    rewrite run_map_switch_spec, elem_of_map_fields; [tauto|].
    unfold map_fields. clear Hcases.
    induction (field descriptor) as [|g fields IH]; [constructor|].
    simpl in Hnodup. apply NoDup_cons in Hnodup as [Hg Hnodup]. simpl.
    destruct (match GetJavaType g with
              | JAVATYPE_MESSAGE => IsMapEntry (message_type g)
              | _ => false
              end); [|by apply IH].
    simpl. apply NoDup_cons. split; [|by apply IH].
    intros Hin. apply Hg.
    apply list_elem_of_In, in_map_iff in Hin as (h & Hnum & Hh).
    apply filter_In in Hh as [Hh _]. rewrite <- Hnum.
    apply list_elem_of_In, in_map. done.
Qed.

(** *** The theorems at concrete messages *)

Lemma X11_unpackable_field_has_one_entry_witness :
  entries_of Example.id_field
    (GenerateBuilderParsingMethods Example.MakeTag
       Example.WireTypeForFieldType (Example.pool Example.Parent))
  = [ mkCase
        (Some (static_cast_int32
                 (Example.MakeTag (number Example.id_field)
                    (Example.WireTypeForFieldType (type Example.id_field)))))
        [FieldParsing GenerateBuilderParsingCode Example.id_field] ].
Proof.
  apply (X11_unpackable_field_has_one_entry Example.MakeTag
           Example.WireTypeForFieldType (Example.pool Example.Parent)
           Example.id_field).
  - apply (bool_decide_unpack _). by vm_compute.
  - simpl. left.
  - reflexivity.
Defined.

Lemma X12_case_labels_are_distinct_witness :
  NoDup (map case_label
           (GenerateBuilderParsingMethods Example.MakeTag
              Example.WireTypeForFieldType (Example.pool Example.Parent))).
Proof.
  apply (X12_case_labels_are_distinct Example.MakeTag
           Example.WireTypeForFieldType (Example.pool Example.Parent)).
  - apply (bool_decide_unpack _). by vm_compute.
  - intros f g w v Hf Hg. simpl in Hf, Hg.
    list_cases Hf; list_cases Hg; destruct w, v; vm_compute;
      intros Heq; (by split) || discriminate Heq.
  - intros f w Hf. simpl in Hf.
    list_cases Hf; destruct w; vm_compute; discriminate.
  - intros f Hf. simpl in Hf. list_cases Hf; simpl; discriminate.
Defined.

Lemma X13_known_tag_runs_field_parsing_witness :
  run_parsing_method (list Z) (list Z) Example.readTag
    Example.run_field_parsing Example.parseUnknownField Example.onChanged
    (GenerateBuilderParsingMethods Example.MakeTag
       Example.WireTypeForFieldType (Example.pool Example.Parent))
    false 2 [24; 0] []
  = match
      Example.run_field_parsing GenerateBuilderParsingCode Example.tags_field
        [0] []
    with
    | None => Threw (list Z) (list Z)
    | Some (input2, this') =>
        run_parsing_method (list Z) (list Z) Example.readTag
          Example.run_field_parsing Example.parseUnknownField
          Example.onChanged
          (GenerateBuilderParsingMethods Example.MakeTag
             Example.WireTypeForFieldType (Example.pool Example.Parent))
          false 1 input2 this'
    end.
Proof.
  apply (X13_known_tag_runs_field_parsing Example.MakeTag
           Example.WireTypeForFieldType (list Z) (list Z) Example.readTag
           Example.run_field_parsing Example.parseUnknownField
           Example.onChanged (Example.pool Example.Parent) 1%nat [24; 0] []
           24 [0] GenerateBuilderParsingCode Example.tags_field).
  - apply (bool_decide_unpack _). by vm_compute.
  - change (mkCase (Some 24)
              [FieldParsing GenerateBuilderParsingCode Example.tags_field]
            ∈ [ mkCase (Some 8)
                  [FieldParsing GenerateBuilderParsingCode Example.id_field];
                mkCase (Some 18)
                  [FieldParsing GenerateBuilderParsingCode
                     Example.child_field];
                mkCase (Some 24)
                  [FieldParsing GenerateBuilderParsingCode
                     Example.tags_field];
                mkCase (Some 26)
                  [FieldParsing GenerateBuilderParsingCodeFromPacked
                     Example.tags_field] ]).
    do 2 right. left.
  - reflexivity.
Defined.

(** The run of the theorem above: the field [tags] is parsed once, then
    the tag 0 ends the loop. *)
Example known_tag_of_scenario :
  run_parsing_method (list Z) (list Z) Example.readTag
    Example.run_field_parsing Example.parseUnknownField Example.onChanged
    (GenerateBuilderParsingMethods Example.MakeTag
       Example.WireTypeForFieldType (Example.pool Example.Parent))
    false 2 [24; 0] []
  = Returned (list Z) (list Z) [] [3].
Proof. reflexivity. Qed.

Lemma X14_merge_runs_every_action_witness :
  run_mergeFrom (list Z) bool (λ other, other)
    (λ f this other, number f :: this) (λ oneof other, Some 1)
    (λ this other, 100 :: this) (λ this other, 200 :: this)
    (λ this, 300 :: this)
    (mergeFrom_body elements (Example.pool Example.Choice)) [7] false
  = ((λ this, 300 :: this)
       (fold_left
          (λ b stmt,
             exec_merge_stmt (list Z) bool
               (λ f this other, number f :: this) (λ oneof other, Some 1)
               (λ this other, 100 :: this) (λ this other, 200 :: this)
               (λ this, 300 :: this) stmt b false)
          (merge_actions (mergeFrom_body elements (Example.pool Example.Choice)))
          [7]),
     mergeFrom_body elements (Example.pool Example.Choice)).
Proof.
  apply (X14_merge_runs_every_action Example.field_generators_
           Example.HasGeneratedMethods elements (list Z) bool (λ other, other)
           (λ f this other, number f :: this) (λ oneof other, Some 1)
           (λ this other, 100 :: this) (λ this other, 200 :: this)
           (λ this, 300 :: this)
           (Example.pool Example.Choice)
           (mergeFrom_body elements (Example.pool Example.Choice))
           [7] false).
  - reflexivity.
  - reflexivity.
Defined.

(** The run of the theorem above: [c] is merged, then the member [a] of
    the oneof, the extensions and the unknown fields, then [onChanged()]
    runs. *)
Example merge_of_scenario :
  fst (run_mergeFrom (list Z) bool (λ other, other)
         (λ f this other, number f :: this) (λ oneof other, Some 1)
         (λ this other, 100 :: this) (λ this other, 200 :: this)
         (λ this, 300 :: this)
         (mergeFrom_body elements (Example.pool Example.Choice)) [7] false)
  = [300; 200; 100; 1; 3; 7].
Proof. reflexivity. Qed.

Lemma X16_isInitialized_meaning_witness :
  run_isInitialized (λ f, number f =? 1) (λ f, true) (λ f, []) true
    [CheckHas Example.id_field; CheckOptionalMessage Example.child_field]
  = true
  ↔ (∀ f, f ∈ field (Example.pool Example.Parent) →
          is_required f = true → (number f =? 1) = true)
    ∧ (∀ f, f ∈ field (Example.pool Example.Parent) →
         Example.GetJavaType f = JAVATYPE_MESSAGE →
         negb (Example.HasRequiredFields (message_type f)) = true →
         match label f with
         | LABEL_REQUIRED => true = true
         | LABEL_OPTIONAL => (number f =? 1) = true → true = true
         | LABEL_REPEATED => ∀ ok, ok ∈ @nil bool → ok = true
         end)
    ∧ ((0 < extension_range_count (Example.pool Example.Parent))%nat →
       true = true).
Proof.
  apply (X16_isInitialized_meaning Example.GetJavaType
           (λ m, negb (Example.HasRequiredFields m))
           Example.IsMapEntry Example.map_value_type
           (λ f, number f =? 1) (λ f, true) (λ f, []) true
           (Example.pool Example.Parent)
           [CheckHas Example.id_field;
            CheckOptionalMessage Example.child_field]).
  reflexivity.
Defined.

Lemma X18_map_field_accessors_witness :
  getDescriptor
    (GenerateDescriptorMethods Example.GetJavaType MapExample.IsMapEntry
       MapExample.no_standard_descriptor_accessor MapExample.book)
  = negb (MapExample.no_standard_descriptor_accessor MapExample.book)
  ∧ internalGetMutableMapField
      (GenerateDescriptorMethods Example.GetJavaType MapExample.IsMapEntry
         MapExample.no_standard_descriptor_accessor MapExample.book)
    = internalGetMapField
        (GenerateDescriptorMethods Example.GetJavaType MapExample.IsMapEntry
           MapExample.no_standard_descriptor_accessor MapExample.book)
  ∧ (internalGetMapField
       (GenerateDescriptorMethods Example.GetJavaType MapExample.IsMapEntry
          MapExample.no_standard_descriptor_accessor MapExample.book) = None
     ↔ ∀ f, f ∈ field MapExample.book →
            Example.GetJavaType f = JAVATYPE_MESSAGE →
            MapExample.IsMapEntry (message_type f) = false)
  ∧ ∀ cases,
      internalGetMapField
        (GenerateDescriptorMethods Example.GetJavaType MapExample.IsMapEntry
           MapExample.no_standard_descriptor_accessor MapExample.book)
      = Some cases →
      ∀ n f, run_map_switch cases n = Some f
             ↔ f ∈ field MapExample.book ∧ number f = n
               ∧ Example.GetJavaType f = JAVATYPE_MESSAGE
               ∧ MapExample.IsMapEntry (message_type f) = true.
Proof.
  apply (X18_map_field_accessors Example.GetJavaType MapExample.IsMapEntry
           MapExample.no_standard_descriptor_accessor MapExample.book).
  apply (bool_decide_unpack _). by vm_compute.
Defined.

(** The accessors of [Book]: the maps of [counts] and [parts] under the
    numbers 1 and 4, and an exception for the number 2 of [title]. *)
Example map_switch_of_book :
  internalGetMapField
    (GenerateDescriptorMethods Example.GetJavaType MapExample.IsMapEntry
       MapExample.no_standard_descriptor_accessor MapExample.book)
  = Some [mkMapCase 1 MapExample.counts_field;
          mkMapCase 4 MapExample.parts_field]
  ∧ run_map_switch
      [mkMapCase 1 MapExample.counts_field;
       mkMapCase 4 MapExample.parts_field] 4
    = Some MapExample.parts_field
  ∧ run_map_switch
      [mkMapCase 1 MapExample.counts_field;
       mkMapCase 4 MapExample.parts_field] 2
    = None.
Proof. by vm_compute. Qed.

End JavaProofs.
